(** * A shallow embedding of the lease manager (package [lease])

    The development follows the two source files of the package:
    [interface.go] (the [Lease] record with its [Set]/[Get] accessors) and
    the manager (the [LeaseManager] methods that turn lease operations into
    conditional writes against a DynamoDB table, each wrapped in a bounded
    retry loop).

    Conventions of the embedding.
    - Go's [int] is taken at its 64-bit width; [Counter++] wraps.
    - [time.Time] values are clock readings in [Z].
    - [interface{}] values are [interface T]: the nil interface or a boxed
      dynamic value of an arbitrary type [T].
    - A method with a pointer receiver or a [*Lease] argument returns the
      final value of the pointee next to its Go result.
    - The DynamoDB client, the backoff policy and the clock are threaded
      through a [World]; the logger has no observable effect and is left
      out. *)

From Stdlib Require Import ZArith Lia DecimalString.
From stdpp Require Import base option list strings gmap fin_maps.

Local Open Scope string_scope.
Local Open Scope Z_scope.

(** ** Go's [int] *)

Module GoInt.

Definition bits : Z := 64.
Definition modulus : Z := 2 ^ bits.
Definition min_int : Z := - 2 ^ (bits - 1).
Definition max_int : Z := 2 ^ (bits - 1) - 1.

(** The value of type [int] that a mathematical integer wraps to. *)
Definition wrap (z : Z) : Z := (z - min_int) mod modulus + min_int.

(** [x++] *)
Definition incr (z : Z) : Z := wrap (z + 1).

Definition in_range (z : Z) : Prop := min_int <= z <= max_int.

Definition in_rangeb (z : Z) : bool := (min_int <=? z) && (z <=? max_int).

End GoInt.

(** ** interface.go *)

Inductive interface (T : Type) : Type :=
| iface_nil : interface T
| iface_val (v : T) : interface T.

Arguments iface_nil {T}.
Arguments iface_val {T} v.

(** [type Lease struct].  A nil [extrafields] map is [None]. *)
Record Lease (T : Type) : Type := mkLease {
  Key : string;
  Owner : string;
  Counter : Z;
  lastRenewal : Z;
  concurrencyToken : string;
  extrafields : option (gmap string (interface T))
}.

Arguments mkLease {T}.
Arguments Key {T}.
Arguments Owner {T}.
Arguments Counter {T}.
Arguments lastRenewal {T}.
Arguments concurrencyToken {T}.
Arguments extrafields {T}.

Section LeaseAccessors.

Context {T : Type}.

(** The zero value of the struct, [Lease{}] and [new(Lease)]. *)
Definition zeroLease : Lease T :=
  mkLease "" "" 0 0 "" None.

(** [func NewLease(key string) Lease] *)
Definition NewLease (key : string) : Lease T :=
  mkLease key "" 0 0 "" None.

Definition with_Key (l : Lease T) (k : string) : Lease T :=
  mkLease k (Owner l) (Counter l) (lastRenewal l) (concurrencyToken l)
          (extrafields l).

Definition with_Owner (l : Lease T) (o : string) : Lease T :=
  mkLease (Key l) o (Counter l) (lastRenewal l) (concurrencyToken l)
          (extrafields l).

Definition with_Counter (l : Lease T) (c : Z) : Lease T :=
  mkLease (Key l) (Owner l) c (lastRenewal l) (concurrencyToken l)
          (extrafields l).

Definition with_lastRenewal (l : Lease T) (t : Z) : Lease T :=
  mkLease (Key l) (Owner l) (Counter l) t (concurrencyToken l)
          (extrafields l).

Definition with_extrafields (l : Lease T)
    (m : option (gmap string (interface T))) : Lease T :=
  mkLease (Key l) (Owner l) (Counter l) (lastRenewal l)
          (concurrencyToken l) m.

(** [func (l *Lease) Set(key string, val interface{})]: allocates the map
    when it is nil, then stores [val] under [key]. *)
Definition Set_ (l : Lease T) (key : string) (val : interface T) : Lease T :=
  let l1 :=
    match extrafields l with
    | None => with_extrafields l (Some ∅)
    | Some _ => l
    end in
  match extrafields l1 with
  | Some m => with_extrafields l1 (Some (<[key := val]> m))
  | None => l1
  end.

(** [func (l *Lease) Get(key string) (interface{}, bool)]: reading a nil
    map or a missing key yields the zero value and [false]. *)
Definition Get (l : Lease T) (key : string) : interface T * bool :=
  match extrafields l with
  | Some m =>
      match m !! key with
      | Some val => (val, true)
      | None => (iface_nil, false)
      end
  | None => (iface_nil, false)
  end.

(** [func (l *Lease) hasNoOwner() bool] *)
Definition hasNoOwner (l : Lease T) : bool :=
  bool_decide (Owner l = "NULL") || bool_decide (Owner l = "").

End LeaseAccessors.

(** ** The DynamoDB service, as far as the manager uses it

    The service is not part of the package.  Its model follows the
    documented behaviour of the four item operations and of [CreateTable]:
    [PutItem] replaces the whole item stored under the key, [UpdateItem]
    edits the stored item or creates it, [DeleteItem] removes it, and a
    write carrying a condition expression is applied only when the
    expression holds of the item currently stored (of an item without
    attributes when there is none).  A comparison with an attribute the
    item does not have is false.  Attribute values are strings and
    integral numbers, which is what the manager writes and decodes. *)

Inductive AttributeValue : Type :=
| AttrS (s : string)
| AttrN (n : Z).

#[global] Instance AttributeValue_eq_dec : EqDecision AttributeValue.
Proof. solve_decision. Defined.

Abbreviation Item := (gmap string AttributeValue).

(** A table: the name of its hash key attribute (declared of type S) and
    its items by the value of that attribute. *)
Record Table : Type := mkTable {
  KeySchema : string;
  Items : gmap string Item
}.

(** [error] values the client returns: a request the service refused, with
    its code ([awserr.RequestFailure]), or a failure to reach it. *)
Inductive error : Type :=
| RequestFailure (code : string)
| TransportFailure (msg : string).

#[global] Instance error_eq_dec : EqDecision error.
Proof. solve_decision. Defined.

Definition ConditionalCheckFailed : string := "ConditionalCheckFailedException".
Definition ResourceNotFound : string := "ResourceNotFoundException".
Definition ValidationError : string := "ValidationException".

(** A document path of an expression: an attribute name written out, or a
    [#name] placeholder resolved through [ExpressionAttributeNames]. *)
Inductive path : Type :=
| PathName (name : string)
| PathRef (placeholder : string).

(** The condition expressions the manager sends.  [CondEq v p] is
    [v = p] for a [:value] placeholder [v]. *)
Inductive condition : Type :=
| CondEq (value : string) (p : path)
| CondNotExists (p : path)
| CondAnd (a b : condition)
| CondOr (a b : condition).

Definition render_path (p : path) : string :=
  match p with
  | PathName n => n
  | PathRef r => r
  end.

(** The text of a condition.  In the service's grammar AND binds tighter
    than OR, so no rendered condition of this development needs brackets. *)
Fixpoint render (c : condition) : string :=
  match c with
  | CondEq v p => v +:+ " = " +:+ render_path p
  | CondNotExists p => "attribute_not_exists(" +:+ render_path p +:+ ")"
  | CondAnd a b => render a +:+ " AND " +:+ render b
  | CondOr a b => render a +:+ " OR " +:+ render b
  end.

Section Expressions.

Variable names : gmap string string.
Variable values : gmap string AttributeValue.

Definition resolve (p : path) : option string :=
  match p with
  | PathName n => Some n
  | PathRef r => names !! r
  end.

(** [None]: the expression mentions a placeholder that is not bound. *)
Fixpoint eval (c : condition) (item : Item) : option bool :=
  match c with
  | CondEq v p =>
      match values !! v, resolve p with
      | Some x, Some n => Some (bool_decide (item !! n = Some x))
      | _, _ => None
      end
  | CondNotExists p =>
      match resolve p with
      | Some n => Some (bool_decide (item !! n = None))
      | None => None
      end
  | CondAnd a b =>
      match eval a item, eval b item with
      | Some x, Some y => Some (x && y)
      | _, _ => None
      end
  | CondOr a b =>
      match eval a item, eval b item with
      | Some x, Some y => Some (x || y)
      | _, _ => None
      end
  end.

(** [SET p1 = :v1, p2 = :v2, ...] applied from left to right. *)
Fixpoint apply_set (actions : list (path * string)) (item : Item)
    : option Item :=
  match actions with
  | [] => Some item
  | (p, v) :: rest =>
      match resolve p, values !! v with
      | Some n, Some x => apply_set rest (<[n := x]> item)
      | _, _ => None
      end
  end.

End Expressions.

Record CreateTableInput : Type := mkCreateTableInput {
  ct_TableName : string;
  ct_HashKey : string;
  ct_ReadCapacityUnits : Z;
  ct_WriteCapacityUnits : Z
}.

Record PutItemInput : Type := mkPutItemInput {
  pi_TableName : string;
  pi_Item : Item
}.

Record UpdateItemInput : Type := mkUpdateItemInput {
  ui_TableName : string;
  ui_Key : Item;
  ui_ExpressionAttributeValues : gmap string AttributeValue;
  ui_UpdateExpression : list (path * string);
  ui_ExpressionAttributeNames : gmap string string;
  ui_ConditionExpression : option condition
}.

Record DeleteItemInput : Type := mkDeleteItemInput {
  di_TableName : string;
  di_Key : Item;
  di_ExpressionAttributeValues : gmap string AttributeValue;
  di_ExpressionAttributeNames : gmap string string;
  di_ConditionExpression : option condition
}.

(** The key a request addresses: the value of the table's hash key
    attribute, a non-empty string. *)
Definition key_of (t : Table) (attrs : Item) : option string :=
  match attrs !! KeySchema t with
  | Some (AttrS k) => if bool_decide (k = "") then None else Some k
  | _ => None
  end.

(** Does the write go ahead on the stored item? *)
Definition admits (names : gmap string string)
    (values : gmap string AttributeValue) (c : option condition)
    (stored : option Item) : option bool :=
  match c with
  | None => Some true
  | Some c => eval names values c (default ∅ stored)
  end.

Abbreviation Database := (gmap string Table).

Definition db_CreateTable (inp : CreateTableInput) (db : Database)
    : option error * Database :=
  match db !! ct_TableName inp with
  | Some _ => (Some (RequestFailure "ResourceInUseException"), db)
  | None => (None, <[ct_TableName inp := mkTable (ct_HashKey inp) ∅]> db)
  end.

Definition db_PutItem (inp : PutItemInput) (db : Database)
    : option error * Database :=
  match db !! pi_TableName inp with
  | None => (Some (RequestFailure ResourceNotFound), db)
  | Some t =>
      match key_of t (pi_Item inp) with
      | None => (Some (RequestFailure ValidationError), db)
      | Some k =>
          (None,
           <[pi_TableName inp :=
               mkTable (KeySchema t) (<[k := pi_Item inp]> (Items t))]> db)
      end
  end.

Definition db_UpdateItem (inp : UpdateItemInput) (db : Database)
    : option error * Database :=
  match db !! ui_TableName inp with
  | None => (Some (RequestFailure ResourceNotFound), db)
  | Some t =>
      match key_of t (ui_Key inp) with
      | None => (Some (RequestFailure ValidationError), db)
      | Some k =>
          let names := ui_ExpressionAttributeNames inp in
          let values := ui_ExpressionAttributeValues inp in
          match admits names values (ui_ConditionExpression inp)
                       (Items t !! k) with
          | None => (Some (RequestFailure ValidationError), db)
          | Some false => (Some (RequestFailure ConditionalCheckFailed), db)
          | Some true =>
              match apply_set names values (ui_UpdateExpression inp)
                              (default (ui_Key inp) (Items t !! k)) with
              | None => (Some (RequestFailure ValidationError), db)
              | Some item =>
                  (None,
                   <[ui_TableName inp :=
                       mkTable (KeySchema t) (<[k := item]> (Items t))]> db)
              end
          end
      end
  end.

Definition db_DeleteItem (inp : DeleteItemInput) (db : Database)
    : option error * Database :=
  match db !! di_TableName inp with
  | None => (Some (RequestFailure ResourceNotFound), db)
  | Some t =>
      match key_of t (di_Key inp) with
      | None => (Some (RequestFailure ValidationError), db)
      | Some k =>
          match admits (di_ExpressionAttributeNames inp)
                       (di_ExpressionAttributeValues inp)
                       (di_ConditionExpression inp) (Items t !! k) with
          | None => (Some (RequestFailure ValidationError), db)
          | Some false => (Some (RequestFailure ConditionalCheckFailed), db)
          | Some true =>
              (None,
               <[di_TableName inp :=
                   mkTable (KeySchema t) (delete k (Items t))]> db)
          end
      end
  end.

(** [Scan] of a whole table, in the order of the map.  The service cuts a
    response at 1 MB and the manager never asks for a further page; the
    model takes the table to fit in one response. *)
Definition db_Scan (table : string) (db : Database)
    : option (list Item) * option error :=
  match db !! table with
  | None => (None, Some (RequestFailure ResourceNotFound))
  | Some t => (Some (map snd (map_to_list (Items t))), None)
  end.

(** ** The world the manager runs in *)

(** - [db]: the tables of the service.
    - [network]: what happens to the client calls to come, one entry per
      call: [Some e] makes the call return [e] without reaching a table,
      [None] lets it through; calls past the end of the list go through.
    - [calls]: the number of client calls made so far.
    - [attempt]: the attempt counter of the shared [Backoff].
    - [now], [ticks]: the clock and by how much it will have advanced at
      each of its readings to come.
    - [slept]: the pauses taken so far, most recent first, each recorded as
      the attempt number its duration was computed for. *)
Record World : Type := mkWorld {
  db : Database;
  network : list (option error);
  calls : nat;
  attempt : nat;
  now : Z;
  ticks : list nat;
  slept : list nat
}.

(** Computations: a state transformer that may run out of the fuel given
    to its loops ([None]). *)
Definition M (A : Type) : Type := World -> option (A * World).

Definition ret {A : Type} (a : A) : M A := fun w => Some (a, w).

Definition bind {A B : Type} (m : M A) (f : A -> M B) : M B :=
  fun w =>
    match m w with
    | Some (a, w') => f a w'
    | None => None
    end.

Definition out_of_fuel {A : Type} : M A := fun _ => None.

Declare Scope go_scope.
Delimit Scope go_scope with go.

Notation "'do' x <- m ; k" := (bind m (fun x => k))
  (at level 10, x pattern, m at level 100, k at level 200) : go_scope.
Notation "'run' m ; k" := (bind m (fun _ => k))
  (at level 10, m at level 100, k at level 200) : go_scope.

Local Open Scope go_scope.

(** One client call: consult the network, then run the request on [db].
    A call that the network fails does not reach the table; a response
    lost after the table has applied the request is not part of this
    model of the network. *)
Definition call {A : Type} (failed : error -> A)
    (request : Database -> A * Database) : M A :=
  fun w =>
    match network w with
    | Some e :: rest =>
        Some (failed e,
              mkWorld (db w) rest (S (calls w)) (attempt w) (now w)
                      (ticks w) (slept w))
    | rest =>
        let (a, d) := request (db w) in
        Some (a,
              mkWorld d (tl rest) (S (calls w)) (attempt w) (now w)
                      (ticks w) (slept w))
    end.

Definition Client_CreateTable (inp : CreateTableInput) : M (option error) :=
  call Some (db_CreateTable inp).

Definition Client_PutItem (inp : PutItemInput) : M (option error) :=
  call Some (db_PutItem inp).

Definition Client_UpdateItem (inp : UpdateItemInput) : M (option error) :=
  call Some (db_UpdateItem inp).

Definition Client_DeleteItem (inp : DeleteItemInput) : M (option error) :=
  call Some (db_DeleteItem inp).

Definition Client_Scan (table : string)
    : M (option (list Item) * option error) :=
  call (fun e => (None, Some e)) (fun d => (db_Scan table d, d)).

(** The backoff of the configuration: [Attempt] reads the counter,
    [Duration] hands out the pause of the current attempt and advances the
    counter, [Reset] zeroes it.  A duration is kept as the attempt number
    it belongs to; the growth of the pauses is the policy's business. *)
Definition Backoff_Attempt : M nat :=
  fun w => Some (attempt w, w).

Definition Backoff_Duration : M nat :=
  fun w =>
    Some (attempt w,
          mkWorld (db w) (network w) (calls w) (S (attempt w)) (now w)
                  (ticks w) (slept w)).

Definition Backoff_Reset : M unit :=
  fun w =>
    Some (tt,
          mkWorld (db w) (network w) (calls w) 0%nat (now w) (ticks w)
                  (slept w)).

(** [time.Sleep] *)
Definition Sleep (d : nat) : M unit :=
  fun w =>
    Some (tt,
          mkWorld (db w) (network w) (calls w) (attempt w) (now w) (ticks w)
                  (d :: slept w)).

(** [time.Now] *)
Definition Now : M Z :=
  fun w =>
    let t := now w + Z.of_nat (hd 0%nat (ticks w)) in
    Some (t,
          mkWorld (db w) (network w) (calls w) (attempt w) t (tl (ticks w))
                  (slept w)).

(** ** The manager *)

(** Table schema *)
Definition LeaseKeyKey : string := "leaseKey".
Definition LeaseOwnerKey : string := "leaseOwner".
Definition LeaseCounterKey : string := "leaseCounter".

(** AWS exception *)
Definition AlreadyExist : string := "ResourceInUseException".

(** Max number of retries *)
Definition maxScanRetries : nat := 3.
Definition maxCreateRetries : nat := 3.
Definition maxUpdateRetries : nat := 2.
Definition maxDeleteRetries : nat := 2.

(** Modelled from the spec: the [Config] struct embedded in
    [LeaseManager] is declared outside the two source files.  These are
    the options of the specification's configuration section that the
    manager reads as plain data; the client, the backoff and the clock it
    also reaches through the configuration live in the [World]. *)
Record Config : Type := mkConfig {
  WorkerId : string;
  LeaseTable : string;
  LeaseTableReadCap : Z;
  LeaseTableWriteCap : Z
}.

(** [awsErr, ok := err.(awserr.RequestFailure); ok && awsErr.Code() == code] *)
Definition has_code (e : error) (code : string) : bool :=
  match e with
  | RequestFailure c => bool_decide (c = code)
  | TransportFailure _ => false
  end.

(** Fuel for a loop that runs while [Backoff.Attempt() < cap]. *)
Definition fuel_for (cap : nat) : nat := S cap.

(** [func (l *LeaseManager) CreateLeaseTable() (err error)] *)
Fixpoint CreateLeaseTable_loop (fuel : nat) (c : Config) (err : option error)
    : M (option error) :=
  match fuel with
  | O => out_of_fuel
  | S fuel =>
      do a <- Backoff_Attempt;
      if (a <? maxCreateRetries)%nat then
        do err <- Client_CreateTable
                    (mkCreateTableInput (LeaseTable c) LeaseKeyKey
                       (LeaseTableReadCap c) (LeaseTableWriteCap c));
        match err with
        | None => ret None
        | Some e =>
            if has_code e AlreadyExist then ret None
            else
              do backoff <- Backoff_Duration;
              run Sleep backoff;
              CreateLeaseTable_loop fuel c (Some e)
        end
      else ret err
  end.

Definition CreateLeaseTable (c : Config) : M (option error) :=
  do err <- CreateLeaseTable_loop (fuel_for maxCreateRetries) c None;
  run Backoff_Reset;
  ret err.

Section Manager.

Context {T : Type}.

(** The request [updateLease] starts from: key, values and the SET
    clause. *)
Definition updateInput (c : Config) (updateLease : Lease T)
    : UpdateItemInput :=
  mkUpdateItemInput
    (LeaseTable c)
    {[ LeaseKeyKey := AttrS (Key updateLease) ]}
    (<[":owner" := AttrS (Owner updateLease)]>
       (<[":count" := AttrN (Counter updateLease)]> ∅))
    [(PathName LeaseOwnerKey, ":owner");
     (PathName LeaseCounterKey, ":count")]
    ∅
    None.

(** The text of the SET clause, as [fmt.Sprintf] builds it. *)
Definition updateExpression_text : string :=
  "SET " +:+ LeaseOwnerKey +:+ " = :owner, " +:+ LeaseCounterKey
         +:+ " = :count".

(** "add conditions only to veteran leases": the three [if]s that follow
    the construction of the request.  An empty [condExp] is [None]. *)
Definition conditioned (input : UpdateItemInput) (condLease : Lease T)
    : UpdateItemInput :=
  let values := ui_ExpressionAttributeValues input in
  let condExp : option condition := None in
  let attrExp : gmap string string := ∅ in
  let '(values, attrExp, condExp) :=
    if 0 <? Counter condLease then
      (<[":condCounter" := AttrN (Counter condLease)]> values,
       <["#counter" := LeaseCounterKey]> attrExp,
       Some (CondEq ":condCounter" (PathRef "#counter")))
    else (values, attrExp, condExp) in
  let '(values, attrExp, condExp) :=
    if bool_decide (Owner condLease ≠ "") then
      (<[":condOwner" := AttrS (Owner condLease)]> values,
       <["#owner" := LeaseOwnerKey]> attrExp,
       match condExp with
       | Some e => Some (CondAnd e (CondEq ":condOwner" (PathRef "#owner")))
       | None => Some (CondEq ":condOwner" (PathRef "#owner"))
       end)
    else (values, attrExp, condExp) in
  match condExp with
  | Some e =>
      mkUpdateItemInput (ui_TableName input) (ui_Key input) values
        (ui_UpdateExpression input) attrExp (Some e)
  | None =>
      mkUpdateItemInput (ui_TableName input) (ui_Key input) values
        (ui_UpdateExpression input) (ui_ExpressionAttributeNames input)
        None
  end.

(** The string [condExp] of the source, built by the same three steps. *)
Definition condExp_text (condLease : Lease T) : string :=
  let condExp := "" in
  let condExp :=
    if 0 <? Counter condLease then ":condCounter = #counter"
    else condExp in
  let condExp :=
    if bool_decide (Owner condLease ≠ "") then
      (if bool_decide (condExp ≠ "") then condExp +:+ " AND " else condExp)
        +:+ ":condOwner = #owner"
    else condExp in
  condExp.

Fixpoint updateLease_loop (fuel : nat) (c : Config)
    (input : UpdateItemInput) (err : option error) : M (option error) :=
  match fuel with
  | O => out_of_fuel
  | S fuel =>
      do a <- Backoff_Attempt;
      if (a <? maxUpdateRetries)%nat then
        do err <- Client_UpdateItem input;
        match err with
        | None => ret None
        | Some e =>
            do backoff <- Backoff_Duration;
            run Sleep backoff;
            updateLease_loop fuel c input (Some e)
        end
      else ret err
  end.

(** [func (l *LeaseManager) updateLease(updateLease, condLease Lease) (err error)] *)
Definition updateLease (c : Config) (updateLease condLease : Lease T)
    : M (option error) :=
  let input := conditioned (updateInput c updateLease) condLease in
  do err <- updateLease_loop (fuel_for maxUpdateRetries) c input None;
  run Backoff_Reset;
  ret err.

(** [func (l *LeaseManager) RenewLease(lease *Lease) (err error)] *)
Definition RenewLease (c : Config) (lease : Lease T)
    : M (option error * Lease T) :=
  let clease := lease in
  let clease := with_Counter clease (GoInt.incr (Counter clease)) in
  do err <- updateLease c clease lease;
  match err with
  | None => ret (None, with_Counter lease (Counter clease))
  | Some e => ret (Some e, lease)
  end.

(** [func (l *LeaseManager) EvictLease(lease *Lease) (err error)] *)
Definition EvictLease (c : Config) (lease : Lease T)
    : M (option error * Lease T) :=
  let clease := lease in
  let clease := with_Owner clease "NULL" in
  do err <- updateLease c clease lease;
  match err with
  | None => ret (None, with_Owner lease (Owner clease))
  | Some e => ret (Some e, lease)
  end.

(** [func (l *LeaseManager) TakeLease(lease *Lease) (err error)] *)
Definition TakeLease (c : Config) (lease : Lease T)
    : M (option error * Lease T) :=
  let clease := lease in
  let clease := with_Counter clease (GoInt.incr (Counter clease)) in
  let clease := with_Owner clease (WorkerId c) in
  do err <- updateLease c clease lease;
  match err with
  | None =>
      let lease := with_Owner lease (Owner clease) in
      ret (None, with_Counter lease (Counter clease))
  | Some e => ret (Some e, lease)
  end.

End Manager.

(** ** Decoding items ([dynamodbattribute.UnmarshalMap] into a [*Lease]) *)

(** [strconv.Itoa], which is also how the service prints a number. *)
Definition Itoa (z : Z) : string := NilZero.string_of_int (Z.to_int z).

(** A string field takes a string, or the text of a number. *)
Definition decode_string (av : AttributeValue) : option string :=
  match av with
  | AttrS s => Some s
  | AttrN n => Some (Itoa n)
  end.

(** An [int] field takes a number that fits; a string is a type error. *)
Definition decode_int (av : AttributeValue) : option Z :=
  match av with
  | AttrN n => if GoInt.in_rangeb n then Some n else None
  | AttrS _ => None
  end.

(** The fields of [Lease] the decoder knows, in the order of the struct,
    each under the name of its [dynamodbav] tag; the three unexported
    fields are not among them. *)
Inductive field : Type := FieldKey | FieldOwner | FieldCounter.

Definition field_name (f : field) : string :=
  match f with
  | FieldKey => LeaseKeyKey
  | FieldOwner => LeaseOwnerKey
  | FieldCounter => LeaseCounterKey
  end.

Definition fields : list field := [FieldKey; FieldOwner; FieldCounter].

(** A byte, with an ASCII capital turned into its small letter. *)
Definition lower (a : Ascii.ascii) : Ascii.ascii :=
  let n := Ascii.nat_of_ascii a in
  if ((65 <=? n) && (n <=? 90))%nat then Ascii.ascii_of_nat (n + 32) else a.

(** [strings.EqualFold(s, t)] for an ASCII [s] and a UTF-8 [t]: equality
    under simple case folding.  Besides the two cases of a letter, the
    folding puts the Kelvin sign (U+212A, bytes E2 84 AA) with k and the
    long s (U+017F, bytes C5 BF) with s. *)
Fixpoint EqualFold (s t : string) : bool :=
  match s, t with
  | String.EmptyString, String.EmptyString => true
  | String.String a s', String.String b t' =>
      if Ascii.eqb (lower a) (lower b) then EqualFold s' t'
      else if Ascii.eqb (lower a) (Ascii.ascii_of_nat 107) then
        match t with
        | String.String b1 (String.String b2 (String.String b3 t3)) =>
            Ascii.eqb b1 (Ascii.ascii_of_nat 226)
            && Ascii.eqb b2 (Ascii.ascii_of_nat 132)
            && Ascii.eqb b3 (Ascii.ascii_of_nat 170) && EqualFold s' t3
        | _ => false
        end
      else if Ascii.eqb (lower a) (Ascii.ascii_of_nat 115) then
        match t with
        | String.String b1 (String.String b2 t2) =>
            Ascii.eqb b1 (Ascii.ascii_of_nat 197)
            && Ascii.eqb b2 (Ascii.ascii_of_nat 191)
            && EqualFold s' t2
        | _ => false
        end
      else false
  | _, _ => false
  end.

(** [fieldByName(fields, name)]: the field of that very name, or else the
    first field whose name equals it under case folding. *)
Fixpoint fieldByName_loop (fs : list field) (name : string)
    (foldField : option field) : option field :=
  match fs with
  | [] => foldField
  | f :: fs =>
      if bool_decide (field_name f = name) then Some f
      else
        fieldByName_loop fs name
          (match foldField with
           | Some g => Some g
           | None => if EqualFold (field_name f) name then Some f else None
           end)
  end.

Definition fieldByName (name : string) : option field :=
  fieldByName_loop fields name None.

(** The order in which a [range] over an item's attributes visits them: Go
    leaves it unspecified and varies it from one loop to the next, so it
    is any arrangement of the attributes, chosen item by item (the items
    of a scan differ in their key). *)
Record RangeOrder : Type := mkRangeOrder {
  range : Item -> list (string * AttributeValue);
  range_perm : forall item, range item ≡ₚ map_to_list item
}.

Section Listing.

Context {T : Type}.

(** Decoding one attribute into the field it was matched with. *)
Definition decode_field (f : field) (av : AttributeValue) (lease : Lease T)
    : option (Lease T) :=
  match f with
  | FieldKey =>
      match decode_string av with
      | Some s => Some (with_Key lease s)
      | None => None
      end
  | FieldOwner =>
      match decode_string av with
      | Some s => Some (with_Owner lease s)
      | None => None
      end
  | FieldCounter =>
      match decode_int av with
      | Some n => Some (with_Counter lease n)
      | None => None
      end
  end.

(** [for k, av := range avMap { if f, ok := fieldByName(fields, k); ok
    { decode av into f } }]: every attribute whose name matches a field
    is decoded into it, in the order of the range; the first one that does
    not decode is the error ([None]).  Attributes that match no field are
    passed over. *)
Fixpoint decodeMap (attrs : list (string * AttributeValue)) (lease : Lease T)
    : option (Lease T) :=
  match attrs with
  | [] => Some lease
  | (k, av) :: attrs =>
      match fieldByName k with
      | Some f =>
          match decode_field f av lease with
          | Some lease => decodeMap attrs lease
          | None => None
          end
      | None => decodeMap attrs lease
      end
  end.

Definition UnmarshalMap (o : RangeOrder) (item : Item) (lease : Lease T)
    : option (Lease T) :=
  decodeMap (range o item) lease.

(** [for _, item := range res.Items { ... }]: an item that does not
    decode is skipped; a decoded one is appended to the result (the
    source's [list]) and then stamped. *)
Fixpoint collect (o : RangeOrder) (items : list Item)
    (leases : list (Lease T)) : M (list (Lease T)) :=
  match items with
  | [] => ret leases
  | item :: items =>
      let lease := zeroLease in
      match UnmarshalMap o item lease with
      | Some lease =>
          do t <- Now;
          collect o items (leases ++ [with_lastRenewal lease t])
      | None => collect o items leases
      end
  end.

Fixpoint ListLeases_loop (o : RangeOrder) (fuel : nat) (c : Config)
    (leases : list (Lease T)) (err : option error)
    : M (list (Lease T) * option error) :=
  match fuel with
  | O => out_of_fuel
  | S fuel =>
      do a <- Backoff_Attempt;
      if (a <? maxScanRetries)%nat then
        do r <- Client_Scan (LeaseTable c);
        let '(res, err) := r in
        match err with
        | Some e =>
            do backoff <- Backoff_Duration;
            run Sleep backoff;
            ListLeases_loop o fuel c leases (Some e)
        | None =>
            do leases <- collect o (default [] res) leases;
            ret (leases, None)
        end
      else ret (leases, err)
  end.

(** [func (l *LeaseManager) ListLeases() (list []*Lease, err error)] *)
Definition ListLeases (o : RangeOrder) (c : Config)
    : M (list (Lease T) * option error) :=
  do r <- ListLeases_loop o (fuel_for maxScanRetries) c [] None;
  run Backoff_Reset;
  ret r.

(** The request of [DeleteLease]. *)
Definition deleteInput (c : Config) (lease : Lease T) : DeleteItemInput :=
  mkDeleteItemInput
    (LeaseTable c)
    {[ LeaseKeyKey := AttrS (Key lease) ]}
    (<[":condOwner" := AttrS (Owner lease)]>
       (<[":condCounter" := AttrN (Counter lease)]> ∅))
    (<["#counter" := LeaseCounterKey]>
       (<["#owner" := LeaseOwnerKey]>
          (<["#key" := LeaseKeyKey]> ∅)))
    (Some (CondOr (CondNotExists (PathRef "#key"))
                  (CondAnd (CondEq ":condCounter" (PathRef "#counter"))
                           (CondEq ":condOwner" (PathRef "#owner"))))).

Fixpoint DeleteLease_loop (fuel : nat) (c : Config)
    (lease : Lease T) (err : option error) : M (option error) :=
  match fuel with
  | O => out_of_fuel
  | S fuel =>
      do a <- Backoff_Attempt;
      if (a <? maxDeleteRetries)%nat then
        do err <- Client_DeleteItem (deleteInput c lease);
        match err with
        | None => ret None
        | Some e =>
            do backoff <- Backoff_Duration;
            run Sleep backoff;
            DeleteLease_loop fuel c lease (Some e)
        end
      else ret err
  end.

(** [func (l *LeaseManager) DeleteLease(lease *Lease) (err error)] *)
Definition DeleteLease (c : Config) (lease : Lease T) : M (option error) :=
  do err <- DeleteLease_loop (fuel_for maxDeleteRetries) c lease None;
  run Backoff_Reset;
  ret err.

(** [func (l *LeaseManager) CreateLease(lease *Lease) (err error)]: one
    unconditional [PutItem] of an item holding the key alone. *)
Definition CreateLease (c : Config) (lease : Lease T) : M (option error) :=
  do err <- Client_PutItem
              (mkPutItemInput (LeaseTable c)
                 {[ LeaseKeyKey := AttrS (Key lease) ]});
  ret err.

End Listing.

(** ** Vocabulary of the statements *)

(** The common shape of the retry loops of [updateLease] and
    [DeleteLease]: attempt the request while [Backoff.Attempt() < cap],
    stop at the first success, pause after every failure. *)
Fixpoint attempts (fuel cap : nat)
    (request : Database -> option error * Database) (err : option error)
    : M (option error) :=
  match fuel with
  | O => out_of_fuel
  | S fuel =>
      do a <- Backoff_Attempt;
      if (a <? cap)%nat then
        do err <- call Some request;
        match err with
        | None => ret None
        | Some e =>
            do backoff <- Backoff_Duration;
            run Sleep backoff;
            attempts fuel cap request (Some e)
        end
      else ret err
  end.

(** The world after a failed attempt: [Duration] then [Sleep]. *)
Definition paused (w : World) : World :=
  mkWorld (db w) (network w) (calls w) (S (attempt w)) (now w) (ticks w)
          (attempt w :: slept w).

(** The world after a call that went through and left [d] behind. *)
Definition served (w : World) (d : Database) : World :=
  mkWorld d (tl (network w)) (S (calls w)) (attempt w) (now w) (ticks w)
          (slept w).

(** The world after a call that the network dropped. *)
Definition dropped (w : World) : World :=
  mkWorld (db w) (tl (network w)) (S (calls w)) (attempt w) (now w)
          (ticks w) (slept w).

(** The backoff counter after an operation. *)
Definition rested (w : World) : World :=
  mkWorld (db w) (network w) (calls w) 0%nat (now w) (ticks w) (slept w).

Definition lease_table (c : Config) (w : World) : option Table :=
  db w !! LeaseTable c.

(** The record stored under a lease key, and two of its attributes. *)
Definition stored (c : Config) (w : World) (key : string) : option Item :=
  match lease_table c w with
  | Some t => Items t !! key
  | None => None
  end.

Definition stored_owner (c : Config) (w : World) (key : string)
    : option AttributeValue :=
  match stored c w key with
  | Some item => item !! LeaseOwnerKey
  | None => None
  end.

Definition stored_counter (c : Config) (w : World) (key : string)
    : option AttributeValue :=
  match stored c w key with
  | Some item => item !! LeaseCounterKey
  | None => None
  end.

(** The lease table exists and is keyed by [leaseKey], as
    [CreateLeaseTable] declares it. *)
Definition serving (c : Config) (w : World) : Prop :=
  exists t, lease_table c w = Some t /\ KeySchema t = LeaseKeyKey.

(** Every item of a table carries its own key. *)
Definition well_keyed (t : Table) : Prop :=
  forall k item, Items t !! k = Some item ->
                 item !! KeySchema t = Some (AttrS k).

(** The state of the lease table that the operations maintain. *)
Definition sound (c : Config) (d : Database) : Prop :=
  exists t, d !! LeaseTable c = Some t
            /\ KeySchema t = LeaseKeyKey /\ well_keyed t.

(** No call to come is dropped by the network. *)
Definition quiet (w : World) : Prop :=
  Forall (fun o => o = None) (network w).

(** The backoff counter is at rest, as every operation leaves it. *)
Definition idle (w : World) : Prop := attempt w = 0%nat.

Section Guards.

Context {T : Type}.

(** What the condition of [updateLease] asks of the stored record. *)
Definition counter_guard (l : Lease T) (item : Item) : bool :=
  if 0 <? Counter l
  then bool_decide (item !! LeaseCounterKey = Some (AttrN (Counter l)))
  else true.

Definition owner_guard (l : Lease T) (item : Item) : bool :=
  if bool_decide (Owner l ≠ "")
  then bool_decide (item !! LeaseOwnerKey = Some (AttrS (Owner l)))
  else true.

Definition guards (l : Lease T) (record : option Item) : bool :=
  counter_guard l (default ∅ record) && owner_guard l (default ∅ record).

(** The record [updateLease] leaves behind when its write is applied. *)
Definition updated (u : Lease T) (record : option Item) : Item :=
  <[LeaseCounterKey := AttrN (Counter u)]>
    (<[LeaseOwnerKey := AttrS (Owner u)]>
       (default {[ LeaseKeyKey := AttrS (Key u) ]} record)).

(** What the condition of [DeleteLease] asks of the stored record. *)
Definition matches (l : Lease T) (item : Item) : bool :=
  bool_decide (item !! LeaseCounterKey = Some (AttrN (Counter l)))
  && bool_decide (item !! LeaseOwnerKey = Some (AttrS (Owner l))).

Definition deletable (l : Lease T) (record : option Item) : bool :=
  bool_decide (default ∅ record !! LeaseKeyKey = None)
  || matches l (default ∅ record).

(** A lease as it is read back, whatever the time of the reading. *)
Definition decoded (o : RangeOrder) (item : Item) : option (Lease T) :=
  UnmarshalMap o item zeroLease.

(** The three attributes named exactly as the fields, each decoded into
    its field of [lease]; a missing one leaves the field as it is. *)
Definition overlay (item : Item) (lease : Lease T) : option (Lease T) :=
  match
    match item !! LeaseKeyKey with
    | Some av => decode_string av
    | None => Some (Key lease)
    end,
    match item !! LeaseOwnerKey with
    | Some av => decode_string av
    | None => Some (Owner lease)
    end,
    match item !! LeaseCounterKey with
    | Some av => decode_int av
    | None => Some (Counter lease)
    end
  with
  | Some k, Some o, Some n =>
      Some (mkLease k o n (lastRenewal lease) (concurrencyToken lease)
                    (extrafields lease))
  | _, _, _ => None
  end.

(** The lease a record stands for: its [leaseKey], [leaseOwner] and
    [leaseCounter] attributes, a missing one read as the zero value. *)
Definition as_stored (item : Item) : option (Lease T) :=
  overlay item zeroLease.

Definition unstamped (l : Lease T) : Lease T := with_lastRenewal l 0.

End Guards.

Section Outcomes.

Context {T : Type}.

(** The lease each operation writes, which is also the caller's lease
    after its success. *)
Definition renewed (l : Lease T) : Lease T :=
  with_Counter l (GoInt.incr (Counter l)).

Definition evicted (l : Lease T) : Lease T :=
  with_Owner l "NULL".

Definition taken (c : Config) (l : Lease T) : Lease T :=
  with_Owner (with_Counter l (GoInt.incr (Counter l))) (WorkerId c).

(** The fields no manager operation is meant to touch. *)
Definition same_identity (l l' : Lease T) : Prop :=
  Key l' = Key l
  /\ lastRenewal l' = lastRenewal l
  /\ concurrencyToken l' = concurrencyToken l
  /\ extrafields l' = extrafields l.

End Outcomes.

(** ** Worlds and leases for the examples *)

Module Examples.

Definition cfg : Config := mkConfig "w1" "leases" 5 5.

(** A record as [updateLease] leaves it. *)
Definition record (key owner : string) (counter : Z) : Item :=
  <[LeaseCounterKey := AttrN counter]>
    (<[LeaseOwnerKey := AttrS owner]> {[ LeaseKeyKey := AttrS key ]}).

(** A record as [CreateLease] leaves it. *)
Definition bare (key : string) : Item := {[ LeaseKeyKey := AttrS key ]}.

Definition tables (items : list (string * Item)) : Database :=
  {[ "leases" := mkTable LeaseKeyKey (list_to_map items) ]}.

(** An idle world at time 1000 over the given records and network. *)
Definition world (items : list (string * Item))
    (net : list (option error)) : World :=
  mkWorld (tables items) net 0 0 1000 [] [].

(** Key A held by w2 at counter 5. *)
Definition heldA : list (string * Item) := [("A", record "A" "w2" 5)].

Definition lease (key owner : string) (counter : Z) : Lease unit :=
  mkLease key owner counter 0 "" None.

Definition timeout : error := TransportFailure "timeout".

End Examples.

(** ** Expiry ([interface.go]) *)

(** [time.Duration] is an [int64] count of nanoseconds; [Time.Sub]
    saturates at its two ends. *)
Definition minDuration : Z := - 2 ^ 63.
Definition maxDuration : Z := 2 ^ 63 - 1.

Definition Time_Sub (t u : Z) : Z :=
  Z.max minDuration (Z.min maxDuration (t - u)).

(** [time.Since(t)] is [time.Now().Sub(t)]. *)
Definition Since (t : Z) : M Z :=
  do n <- Now;
  ret (Time_Sub n t).

(** [func (l *Lease) isExpired(t time.Duration) bool] *)
Definition isExpired {T : Type} (l : Lease T) (t : Z) : M bool :=
  do d <- Since (lastRenewal l);
  ret (t <? d).

(** The reading the clock gives next. *)
Definition next_reading (w : World) : Z :=
  now w + Z.of_nat (hd 0%nat (ticks w)).

(** ** The three conditional mutations, as one family *)

Definition mutations {T : Type} (c : Config)
    : list (Lease T -> M (option error * Lease T)) :=
  [RenewLease c; TakeLease c; EvictLease c].

(** Each mutation with the lease it sends to [updateLease] as
    [updateLease], the caller's lease [l] being the [condLease]. *)
Definition writes {T : Type} (c : Config) (l : Lease T)
    : list ((Lease T -> M (option error * Lease T)) * Lease T) :=
  [(RenewLease c, renewed l); (TakeLease c, taken c l);
   (EvictLease c, evicted l)].

(** The condition of a mutation, spelled out on the stored attributes. *)
Definition precondition {T : Type} (c : Config) (l : Lease T) (w : World)
    : Prop :=
  (Counter l <= 0 \/ stored_counter c w (Key l) = Some (AttrN (Counter l)))
  /\ (Owner l = "" \/ stored_owner c w (Key l) = Some (AttrS (Owner l))).

(** ** Records and clock readings, for the statements on listings *)

(** No attribute of the item is mistaken for a field: the attributes that
    the decoder matches with a field are named exactly as the field. *)
Definition tidy (item : Item) : Prop :=
  forall name f,
    is_Some (item !! name) -> fieldByName name = Some f ->
    name = field_name f.

(** Every record of the lease table is tidy. *)
Definition tidy_records (c : Config) (w : World) : Prop :=
  forall k item, stored c w k = Some item -> tidy item.

(** The next [n] readings of a clock that stands at [t]. *)
Fixpoint readings (t : Z) (ticks : list nat) (n : nat) : list Z :=
  match n with
  | O => []
  | S n =>
      let t' := t + Z.of_nat (hd 0%nat ticks) in
      t' :: readings t' (tl ticks) n
  end.

(** Two range orders: the order of the map, and its reverse. *)
Definition map_order : RangeOrder :=
  mkRangeOrder map_to_list (fun item => Permutation_refl (map_to_list item)).

Definition reverse_order : RangeOrder :=
  mkRangeOrder (fun item => rev (map_to_list item))
    (fun item => Permutation_sym (Permutation_rev (map_to_list item))).

(** * Properties *)

(** ** Go's [int] *)

Lemma incr_in_range (z : Z) :
  GoInt.in_range z -> z < GoInt.max_int -> GoInt.incr z = z + 1.
Proof.
  unfold GoInt.in_range, GoInt.incr, GoInt.wrap, GoInt.min_int,
    GoInt.max_int, GoInt.modulus, GoInt.bits.
  intros [Hlo Hhi] Hlt.
  rewrite Z.mod_small; lia.
Qed.

Lemma incr_max_int : GoInt.incr GoInt.max_int = GoInt.min_int.
Proof. reflexivity. Qed.

(** ** The accessors of a lease *)

Section AccessorFacts.

Context {T : Type}.

Lemma Set_extrafields (l : Lease T) (k : string) (v : interface T) :
  extrafields (Set_ l k v)
  = Some (<[k := v]> (default ∅ (extrafields l))).
Proof. destruct l as [? ? ? ? ? [m|]]; reflexivity. Qed.

Lemma Get_Set_other (l : Lease T) (k k' : string) (v : interface T) :
  k <> k' -> Get (Set_ l k v) k' = Get l k'.
Proof.
  intros Hne. unfold Get. rewrite Set_extrafields.
  rewrite lookup_insert_ne by exact Hne.
  destruct (extrafields l) as [m|]; simpl; [reflexivity|].
  rewrite lookup_empty. reflexivity.
Qed.

Lemma Set_frame (l : Lease T) (k : string) (v : interface T) :
  Key (Set_ l k v) = Key l /\ Owner (Set_ l k v) = Owner l
  /\ Counter (Set_ l k v) = Counter l
  /\ lastRenewal (Set_ l k v) = lastRenewal l
  /\ concurrencyToken (Set_ l k v) = concurrencyToken l.
Proof. destruct l as [? ? ? ? ? [m|]]; simpl; auto. Qed.

End AccessorFacts.

(** C9.  For every lease, key and value, [Set(k, v)] followed by [Get(k)]
    returns [(v, true)]. *)
Theorem C9_Get_after_Set {T : Type} (l : Lease T) (k : string)
    (v : interface T) :
  Get (Set_ l k v) k = (v, true).
Proof.
  unfold Get. rewrite Set_extrafields.
  rewrite lookup_insert_eq. reflexivity.
Qed.

(** ** Client calls and the retry loop *)

Lemma call_dropped (req : Database -> option error * Database)
    (w : World) (e : error) :
  hd None (network w) = Some e ->
  call Some req w = Some (Some e, dropped w).
Proof.
  unfold call, dropped. destruct (network w) as [|[e'|] rest]; simpl;
    intros H; try discriminate.
  injection H as ->. reflexivity.
Qed.

Lemma call_served (req : Database -> option error * Database) (w : World) :
  hd None (network w) = None ->
  call Some req w = Some (fst (req (db w)), served w (snd (req (db w)))).
Proof.
  unfold call, served. destruct (network w) as [|[e'|] rest]; simpl;
    intros H; try discriminate; destruct (req (db w)); reflexivity.
Qed.

Lemma quiet_hd (w : World) : quiet w -> hd None (network w) = None.
Proof.
  unfold quiet. destruct (network w) as [|o rest]; [reflexivity|].
  intros H. apply Forall_cons in H as [-> _]. reflexivity.
Qed.

Lemma quiet_tl (w : World) : quiet w -> Forall (fun o => o = None) (tl (network w)).
Proof.
  unfold quiet. destruct (network w) as [|o rest]; [trivial|].
  intros H. apply Forall_cons in H as [_ H]. exact H.
Qed.

Lemma quiet_served (w : World) (d : Database) : quiet w -> quiet (served w d).
Proof. intros H. unfold quiet. simpl. apply quiet_tl, H. Qed.

Lemma quiet_paused (w : World) : quiet w -> quiet (paused w).
Proof. intros H. exact H. Qed.

Lemma attempts_step (fuel cap : nat)
    (req : Database -> option error * Database) (err : option error)
    (w : World) :
  attempts (S fuel) cap req err w =
  if (attempt w <? cap)%nat then
    match call Some req w with
    | Some (None, w1) => Some (None, w1)
    | Some (Some e, w1) => attempts fuel cap req (Some e) (paused w1)
    | None => None
    end
  else Some (err, w).
Proof.
  simpl. unfold bind, Backoff_Attempt.
  destruct (attempt w <? cap)%nat; [|reflexivity].
  destruct (call Some req w) as [[[e|] w1]|]; reflexivity.
Qed.

(** The three loops written out in the manager are instances. *)
Lemma updateLease_loop_attempts (fuel : nat) (c : Config)
    (input : UpdateItemInput) (err : option error) (w : World) :
  updateLease_loop fuel c input err w
  = attempts fuel maxUpdateRetries (db_UpdateItem input) err w.
Proof.
  revert err w. induction fuel as [|fuel IH]; intros err w; [reflexivity|].
  simpl. unfold bind, Backoff_Attempt.
  destruct (attempt w <? maxUpdateRetries)%nat; [|reflexivity].
  unfold Client_UpdateItem.
  destruct (call Some (db_UpdateItem input) w) as [[[e|] w1]|];
    try reflexivity.
  simpl. apply IH.
Qed.

Lemma DeleteLease_loop_attempts {T : Type} (fuel : nat) (c : Config)
    (lease : Lease T) (err : option error) (w : World) :
  DeleteLease_loop fuel c lease err w
  = attempts fuel maxDeleteRetries (db_DeleteItem (deleteInput c lease))
             err w.
Proof.
  revert err w. induction fuel as [|fuel IH]; intros err w; [reflexivity|].
  simpl. unfold bind, Backoff_Attempt.
  destruct (attempt w <? maxDeleteRetries)%nat; [|reflexivity].
  unfold Client_DeleteItem.
  destruct (call Some (db_DeleteItem (deleteInput c lease)) w)
    as [[[e|] w1]|]; try reflexivity.
  simpl. apply IH.
Qed.

Section Attempts.

Variable cap : nat.
Variable req : Database -> option error * Database.

(** A request that fails leaves the tables as they were. *)
Hypothesis req_fails_clean :
  forall d e d', req d = (Some e, d') -> d' = d.

Lemma call_cases (w : World) :
  (exists e, call Some req w = Some (Some e, dropped w)
             /\ hd None (network w) = Some e)
  \/ (exists e, call Some req w = Some (Some e, dropped w)
                /\ hd None (network w) = None
                /\ req (db w) = (Some e, db w))
  \/ (exists d, call Some req w = Some (None, served w d)
                /\ hd None (network w) = None
                /\ req (db w) = (None, d)).
Proof.
  destruct (hd None (network w)) as [e|] eqn:Hhd.
  - left. exists e. split; [apply call_dropped, Hhd | reflexivity].
  - right. rewrite (call_served req w Hhd).
    destruct (req (db w)) as [[e|] d] eqn:Hreq; simpl.
    + left. exists e.
      pose proof (req_fails_clean _ _ _ Hreq) as ->.
      repeat split; reflexivity.
    + right. exists d. repeat split; reflexivity.
Qed.

(** With fuel beyond the attempts left, the loop returns. *)
Lemma attempts_total (fuel : nat) (err : option error) (w : World) :
  (cap - attempt w < fuel)%nat ->
  exists r w', attempts fuel cap req err w = Some (r, w').
Proof.
  revert err w. induction fuel as [|fuel IH]; intros err w Hfuel; [lia|].
  rewrite attempts_step.
  destruct (attempt w <? cap)%nat eqn:Hlt; [|eauto].
  apply Nat.ltb_lt in Hlt.
  destruct (call_cases w) as [(e & -> & _)|[(e & -> & _)|(d & -> & _)]];
    [| |eauto].
  - apply IH. simpl. lia.
  - apply IH. simpl. lia.
Qed.

(** More fuel changes nothing. *)
Lemma attempts_fuel (fuel fuel' : nat) (err : option error) (w : World) r :
  attempts fuel cap req err w = Some r ->
  (fuel <= fuel')%nat ->
  attempts fuel' cap req err w = Some r.
Proof.
  revert fuel' err w. induction fuel as [|fuel IH]; intros fuel' err w H Hle;
    [discriminate|].
  destruct fuel' as [|fuel']; [lia|].
  rewrite attempts_step in *.
  destruct (attempt w <? cap)%nat; [|exact H].
  destruct (call Some req w) as [[[e|] w1]|]; try exact H.
  apply IH; [exact H | lia].
Qed.

(** The loop never writes unless an attempt succeeds, it counts its
    calls, and it only ever returns the outcome of its last attempt. *)
Lemma attempts_failed (fuel : nat) (err : option error) (w w' : World)
    (e : error) :
  attempts fuel cap req err w = Some (Some e, w') ->
  db w' = db w
  /\ now w' = now w /\ ticks w' = ticks w
  /\ ((cap <= attempt w)%nat /\ attempt w' = attempt w
      \/ attempt w' = cap)
  /\ (calls w' + attempt w = calls w + attempt w')%nat.
Proof.
  revert err w. induction fuel as [|fuel IH]; intros err w H;
    [discriminate|].
  rewrite attempts_step in H.
  destruct (attempt w <? cap)%nat eqn:Hlt.
  - apply Nat.ltb_lt in Hlt.
    destruct (call_cases w) as [(e1 & Hc & _)|[(e1 & Hc & _)|(d & Hc & _)]];
      rewrite Hc in H; [| |discriminate].
    + apply IH in H. simpl in H. destruct H as (? & ? & ? & ? & ?).
      repeat split; try assumption; lia.
    + apply IH in H. simpl in H. destruct H as (? & ? & ? & ? & ?).
      repeat split; try assumption; lia.
  - apply Nat.ltb_ge in Hlt. injection H as _ <-.
    repeat split; try reflexivity; lia.
Qed.

(** A success is the first attempt that reaches the tables and is
    accepted by them. *)
Lemma attempts_succeeded (fuel : nat) (err : option error) (w w' : World) :
  attempts fuel cap req err w = Some (None, w') ->
  (err = None /\ (cap <= attempt w)%nat /\ w' = w)
  \/ ((attempt w < cap)%nat /\ req (db w) = (None, db w')).
Proof.
  revert err w. induction fuel as [|fuel IH]; intros err w H;
    [discriminate|].
  rewrite attempts_step in H.
  destruct (attempt w <? cap)%nat eqn:Hlt.
  - apply Nat.ltb_lt in Hlt. right. split; [exact Hlt|].
    destruct (call_cases w) as [(e1 & Hc & _)|[(e1 & Hc & _)|(d & Hc & ? & Hr)]];
      rewrite Hc in H.
    + apply IH in H. destruct H as [(? & _)|(_ & H)]; [discriminate|].
      exact H.
    + apply IH in H. destruct H as [(? & _)|(_ & H)]; [discriminate|].
      exact H.
    + injection H as <-. exact Hr.
  - apply Nat.ltb_ge in Hlt. injection H as -> <-. left. auto.
Qed.

(** While the tables refuse the request, the loop fails. *)
Lemma attempts_refused (fuel : nat) (err : option error) (w : World)
    (e : error) :
  req (db w) = (Some e, db w) ->
  (cap - attempt w < fuel)%nat ->
  (attempt w < cap)%nat \/ is_Some err ->
  exists e' w', attempts fuel cap req err w = Some (Some e', w').
Proof.
  revert err w. induction fuel as [|fuel IH]; intros err w Hreq Hfuel Hsome;
    [lia|].
  rewrite attempts_step.
  destruct (attempt w <? cap)%nat eqn:Hlt.
  - apply Nat.ltb_lt in Hlt.
    destruct (call_cases w)
      as [(e1 & Hc & _)|[(e1 & Hc & _)|(d & Hc & _ & Hr)]];
      rewrite Hc; [| |congruence].
    + apply IH; simpl; [exact Hreq | lia | right; eauto].
    + apply IH; simpl; [exact Hreq | lia | right; eauto].
  - apply Nat.ltb_ge in Hlt.
    destruct Hsome as [?|[e0 ->]]; [lia|]. eauto.
Qed.

(** On a quiet network the refusal is what comes back, after every
    attempt the cap allows. *)
Lemma attempts_refused_quiet (fuel : nat) (err : option error) (w : World)
    (e : error) :
  req (db w) = (Some e, db w) ->
  (cap - attempt w < fuel)%nat ->
  (attempt w < cap)%nat ->
  quiet w ->
  exists w', attempts fuel cap req err w = Some (Some e, w')
             /\ (calls w' = calls w + (cap - attempt w))%nat.
Proof.
  revert err w. induction fuel as [|fuel IH]; intros err w Hreq Hfuel Hlt Hq;
    [lia|].
  rewrite attempts_step.
  destruct (attempt w <? cap)%nat eqn:Hltb;
    [|apply Nat.ltb_ge in Hltb; lia].
  rewrite (call_served req w (quiet_hd w Hq)), Hreq. simpl.
  destruct (decide (S (attempt w) < cap)%nat) as [Hmore|Hlast].
  - destruct (IH (Some e) (paused (served w (db w)))) as (w' & -> & Hc);
      simpl; try assumption; try lia.
    + apply quiet_tl, Hq.
    + exists w'. split; [reflexivity|]. simpl in Hc. lia.
  - destruct fuel as [|fuel]; [lia|].
    rewrite attempts_step. simpl.
    destruct (S (attempt w) <? cap)%nat eqn:Hltb';
      [apply Nat.ltb_lt in Hltb'; lia|].
    eexists. split; [reflexivity|]. simpl. lia.
Qed.

(** On a quiet network an acceptable request is applied at once. *)
Lemma attempts_accepted (fuel : nat) (err : option error) (w : World)
    (d : Database) :
  req (db w) = (None, d) ->
  (attempt w < cap)%nat ->
  hd None (network w) = None ->
  attempts (S fuel) cap req err w = Some (None, served w d).
Proof.
  intros Hreq Hlt Hq. rewrite attempts_step.
  destruct (attempt w <? cap)%nat eqn:Hltb;
    [|apply Nat.ltb_ge in Hltb; lia].
  rewrite (call_served req w Hq), Hreq. reflexivity.
Qed.

End Attempts.

(** ** Requests against the tables *)

Lemma db_UpdateItem_fails_clean (inp : UpdateItemInput) (d : Database)
    (e : error) (d' : Database) :
  db_UpdateItem inp d = (Some e, d') -> d' = d.
Proof.
  unfold db_UpdateItem.
  destruct (d !! ui_TableName inp) as [t|]; [|congruence].
  destruct (key_of t (ui_Key inp)) as [k|]; [|congruence].
  destruct (admits _ _ _ _) as [[|]|]; try congruence.
  destruct (apply_set _ _ _ _); congruence.
Qed.

Lemma db_DeleteItem_fails_clean (inp : DeleteItemInput) (d : Database)
    (e : error) (d' : Database) :
  db_DeleteItem inp d = (Some e, d') -> d' = d.
Proof.
  unfold db_DeleteItem.
  destruct (d !! di_TableName inp) as [t|]; [|congruence].
  destruct (key_of t (di_Key inp)) as [k|]; [|congruence].
  destruct (admits _ _ _ _) as [[|]|]; congruence.
Qed.

Lemma key_of_lease (t : Table) (k : string) :
  KeySchema t = LeaseKeyKey -> k <> "" ->
  key_of t {[ LeaseKeyKey := AttrS k ]} = Some k.
Proof.
  intros Hks Hk. unfold key_of. rewrite Hks, lookup_singleton_eq.
  rewrite bool_decide_eq_false_2 by exact Hk. reflexivity.
Qed.

Section RequestFacts.

Context {T : Type}.

(** The condition of [updateLease], case by case. *)
Lemma conditioned_expression (c : Config) (u l : Lease T) :
  ui_ConditionExpression (conditioned (updateInput c u) l)
  = match 0 <? Counter l, bool_decide (Owner l ≠ "") with
    | true, true =>
        Some (CondAnd (CondEq ":condCounter" (PathRef "#counter"))
                      (CondEq ":condOwner" (PathRef "#owner")))
    | true, false => Some (CondEq ":condCounter" (PathRef "#counter"))
    | false, true => Some (CondEq ":condOwner" (PathRef "#owner"))
    | false, false => None
    end.
Proof.
  unfold conditioned.
  destruct (0 <? Counter l), (bool_decide (Owner l ≠ "")); reflexivity.
Qed.

(** The string the source builds is the text of that condition. *)
Lemma condExp_text_render (c : Config) (u l : Lease T) :
  condExp_text l
  = match ui_ConditionExpression (conditioned (updateInput c u) l) with
    | Some e => render e
    | None => ""
    end.
Proof.
  rewrite conditioned_expression. unfold condExp_text.
  destruct (0 <? Counter l), (bool_decide (Owner l ≠ "")); reflexivity.
Qed.

Lemma conditioned_frame (c : Config) (u l : Lease T) :
  ui_TableName (conditioned (updateInput c u) l) = LeaseTable c
  /\ ui_Key (conditioned (updateInput c u) l)
     = {[ LeaseKeyKey := AttrS (Key u) ]}
  /\ ui_UpdateExpression (conditioned (updateInput c u) l)
     = [(PathName LeaseOwnerKey, ":owner");
        (PathName LeaseCounterKey, ":count")].
Proof.
  unfold conditioned.
  destruct (0 <? Counter l), (bool_decide (Owner l ≠ "")); auto.
Qed.

(** What the condition means for the stored record. *)
Lemma conditioned_admits (c : Config) (u l : Lease T)
    (record : option Item) :
  let inp := conditioned (updateInput c u) l in
  admits (ui_ExpressionAttributeNames inp)
         (ui_ExpressionAttributeValues inp)
         (ui_ConditionExpression inp) record
  = Some (guards l record).
Proof.
  unfold conditioned, guards, counter_guard, owner_guard, admits.
  destruct (0 <? Counter l), (bool_decide (Owner l ≠ "")); simpl;
    repeat (rewrite ?lookup_insert_eq;
            try (rewrite lookup_insert_ne by discriminate));
    simpl; rewrite ?andb_true_r; reflexivity.
Qed.

Lemma conditioned_apply_set (c : Config) (u l : Lease T) (item : Item) :
  let inp := conditioned (updateInput c u) l in
  apply_set (ui_ExpressionAttributeNames inp)
            (ui_ExpressionAttributeValues inp)
            (ui_UpdateExpression inp) item
  = Some (<[LeaseCounterKey := AttrN (Counter u)]>
            (<[LeaseOwnerKey := AttrS (Owner u)]> item)).
Proof.
  unfold conditioned.
  destruct (0 <? Counter l), (bool_decide (Owner l ≠ "")); simpl;
    repeat (rewrite ?lookup_insert_eq;
            try (rewrite lookup_insert_ne by discriminate));
    reflexivity.
Qed.

(** One [UpdateItem] of [updateLease] on a served table. *)
Lemma db_UpdateItem_conditioned (c : Config) (u l : Lease T)
    (d : Database) (t : Table) :
  d !! LeaseTable c = Some t ->
  KeySchema t = LeaseKeyKey ->
  Key u <> "" ->
  db_UpdateItem (conditioned (updateInput c u) l) d
  = if guards l (Items t !! Key u)
    then (None,
          <[LeaseTable c :=
              mkTable (KeySchema t)
                (<[Key u := updated u (Items t !! Key u)]> (Items t))]> d)
    else (Some (RequestFailure ConditionalCheckFailed), d).
Proof.
  intros Ht Hks Hk. unfold db_UpdateItem.
  destruct (conditioned_frame c u l) as (-> & -> & _).
  rewrite Ht, (key_of_lease t (Key u) Hks Hk).
  rewrite conditioned_admits.
  destruct (guards l (Items t !! Key u)); [|reflexivity].
  rewrite conditioned_apply_set. reflexivity.
Qed.

(** Whatever the tables, a write of [updateLease] that is accepted has
    passed the guards of the conditioning lease and leaves [updated]. *)
Lemma db_UpdateItem_accepted (c : Config) (u l : Lease T)
    (d d' : Database) :
  db_UpdateItem (conditioned (updateInput c u) l) d = (None, d') ->
  exists t,
    d !! LeaseTable c = Some t
    /\ guards l (Items t !! Key u) = true
    /\ d' = <[LeaseTable c :=
                mkTable (KeySchema t)
                  (<[Key u := updated u (Items t !! Key u)]> (Items t))]> d.
Proof.
  unfold db_UpdateItem.
  destruct (conditioned_frame c u l) as (-> & -> & _).
  destruct (d !! LeaseTable c) as [t|] eqn:Ht; [|discriminate].
  unfold key_of.
  destruct (({[LeaseKeyKey := AttrS (Key u)]} : Item) !! KeySchema t)
    as [[k|n]|] eqn:Hk; try discriminate.
  destruct (bool_decide (k = "")); [discriminate|].
  apply lookup_singleton_Some in Hk as [_ Hk]. injection Hk as <-.
  rewrite conditioned_admits.
  destruct (guards l (Items t !! Key u)) eqn:Hg; [|discriminate].
  rewrite conditioned_apply_set.
  intros H. injection H as <-. exists t. auto.
Qed.

(** A write of [updateLease] whose guards fail is refused. *)
Lemma db_UpdateItem_refused (c : Config) (u l : Lease T) (d : Database) :
  (forall t, d !! LeaseTable c = Some t ->
             guards l (Items t !! Key u) = false) ->
  exists e, db_UpdateItem (conditioned (updateInput c u) l) d = (Some e, d).
Proof.
  intros Hg.
  destruct (db_UpdateItem (conditioned (updateInput c u) l) d)
    as [[e|] d'] eqn:H.
  - exists e. apply db_UpdateItem_fails_clean in H as Hd. congruence.
  - apply db_UpdateItem_accepted in H as (t & Ht & Hg' & _).
    rewrite (Hg t Ht) in Hg'. discriminate.
Qed.

End RequestFacts.

(** ** [updateLease] *)

(** Two attempts that both find the request refused, the second one
    possibly dropped on the way. *)
Lemma attempts_refused_twice (req : Database -> option error * Database)
    (w : World) (e : error) :
  attempt w = 0%nat ->
  hd None (network w) = None ->
  req (db w) = (Some e, db w) ->
  attempts 3 2 req None w
  = Some (Some (default e (hd None (tl (network w)))),
          paused (dropped (paused (dropped w)))).
Proof.
  intros Ha Hhd Hreq.
  destruct w as [d net k a t tk sl]. simpl in *. subst a.
  unfold attempts, bind, call, Backoff_Attempt, Backoff_Duration, Sleep,
    ret, paused, dropped; simpl.
  destruct net as [|[e1|] [|[e2|] net]]; try discriminate; simpl;
    repeat (rewrite Hreq; simpl); reflexivity.
Qed.

Section UpdateFacts.

Context {T : Type}.

Lemma updateLease_unfold (c : Config) (u l : Lease T) (w : World) :
  updateLease c u l w
  = match attempts (fuel_for maxUpdateRetries) maxUpdateRetries
            (db_UpdateItem (conditioned (updateInput c u) l)) None w with
    | Some (err, w1) => Some (err, rested w1)
    | None => None
    end.
Proof.
  unfold updateLease, bind. rewrite updateLease_loop_attempts.
  destruct (attempts _ _ _ _ _) as [[err w1]|]; reflexivity.
Qed.

(** [updateLease] returns. *)
Lemma updateLease_total (c : Config) (u l : Lease T) (w : World) :
  exists r w', updateLease c u l w = Some (r, w').
Proof.
  rewrite updateLease_unfold.
  destruct (attempts_total maxUpdateRetries
              (db_UpdateItem (conditioned (updateInput c u) l))
              (db_UpdateItem_fails_clean _)
              (fuel_for maxUpdateRetries) None w) as (r & w1 & ->);
    [unfold fuel_for; lia | eauto].
Qed.

(** A failed [updateLease] has written nothing. *)
Lemma updateLease_failed (c : Config) (u l : Lease T) (w w' : World)
    (e : error) :
  updateLease c u l w = Some (Some e, w') ->
  db w' = db w /\ attempt w' = 0%nat.
Proof.
  rewrite updateLease_unfold.
  destruct (attempts _ _ _ _ _) as [[err w1]|] eqn:H; [|discriminate].
  intros H'. injection H' as -> <-.
  apply attempts_failed in H; [|apply db_UpdateItem_fails_clean].
  simpl. split; [apply H | reflexivity].
Qed.

(** A successful [updateLease] from an idle backoff found the guards of
    the conditioning lease satisfied and stored [updated]. *)
Lemma updateLease_succeeded (c : Config) (u l : Lease T) (w w' : World) :
  idle w ->
  updateLease c u l w = Some (None, w') ->
  exists t,
    lease_table c w = Some t
    /\ guards l (Items t !! Key u) = true
    /\ db w'
       = <[LeaseTable c :=
             mkTable (KeySchema t)
               (<[Key u := updated u (Items t !! Key u)]> (Items t))]>
           (db w)
    /\ attempt w' = 0%nat.
Proof.
  intros Hidle. rewrite updateLease_unfold.
  destruct (attempts _ _ _ _ _) as [[err w1]|] eqn:H; [|discriminate].
  intros H'. injection H' as -> <-.
  apply attempts_succeeded in H; [|apply db_UpdateItem_fails_clean].
  destruct H as [(_ & Hcap & _)|(_ & H)].
  - unfold idle in Hidle. unfold maxUpdateRetries in Hcap. lia.
  - apply db_UpdateItem_accepted in H as (t & Ht & Hg & Hd).
    exists t. simpl. auto.
Qed.

(** Guards that fail make [updateLease] fail, whatever the network. *)
Lemma updateLease_refused (c : Config) (u l : Lease T) (w : World) :
  idle w ->
  (forall t, lease_table c w = Some t ->
             guards l (Items t !! Key u) = false) ->
  exists e w', updateLease c u l w = Some (Some e, w') /\ db w' = db w.
Proof.
  intros Hidle Hg.
  destruct (db_UpdateItem_refused c u l (db w) Hg) as (e & Hreq).
  destruct (attempts_refused maxUpdateRetries
              (db_UpdateItem (conditioned (updateInput c u) l))
              (db_UpdateItem_fails_clean _)
              (fuel_for maxUpdateRetries) None w e Hreq)
    as (e' & w1 & H).
  - unfold fuel_for. lia.
  - left. unfold idle in Hidle. unfold maxUpdateRetries. lia.
  - exists e', (rested w1). rewrite updateLease_unfold, H.
    split; [reflexivity|].
    apply attempts_failed in H; [|apply db_UpdateItem_fails_clean].
    simpl. apply H.
Qed.

(** The same on a served table, with the first attempt reaching it: the
    write is attempted twice and the outcome of the second attempt is
    returned. *)
Lemma updateLease_refused_twice (c : Config) (u l : Lease T) (w : World) :
  idle w ->
  serving c w ->
  Key u <> "" ->
  guards l (stored c w (Key u)) = false ->
  hd None (network w) = None ->
  updateLease c u l w
  = Some (Some (default (RequestFailure ConditionalCheckFailed)
                        (hd None (tl (network w)))),
          rested (paused (dropped (paused (dropped w))))).
Proof.
  intros Hidle (t & Ht & Hks) Hk Hg Hhd.
  unfold stored in Hg. rewrite Ht in Hg.
  rewrite updateLease_unfold.
  change (fuel_for maxUpdateRetries) with 3%nat.
  change maxUpdateRetries with 2%nat.
  rewrite (attempts_refused_twice _ w
             (RequestFailure ConditionalCheckFailed) Hidle Hhd);
    [reflexivity|].
  rewrite (db_UpdateItem_conditioned c u l (db w) t Ht Hks Hk), Hg.
  reflexivity.
Qed.

(** Guards that hold let the first attempt that goes through succeed. *)
Lemma updateLease_accepted (c : Config) (u l : Lease T) (w : World)
    (t : Table) :
  idle w ->
  lease_table c w = Some t ->
  KeySchema t = LeaseKeyKey ->
  Key u <> "" ->
  guards l (Items t !! Key u) = true ->
  hd None (network w) = None ->
  updateLease c u l w
  = Some (None,
          rested (served w
            (<[LeaseTable c :=
                 mkTable (KeySchema t)
                   (<[Key u := updated u (Items t !! Key u)]> (Items t))]>
               (db w)))).
Proof.
  intros Hidle Ht Hks Hk Hg Hhd.
  rewrite updateLease_unfold. unfold fuel_for.
  erewrite attempts_accepted; [reflexivity| | |exact Hhd].
  - rewrite (db_UpdateItem_conditioned c u l (db w) t Ht Hks Hk), Hg.
    reflexivity.
  - unfold idle in Hidle. unfold maxUpdateRetries. lia.
Qed.

(** The stored record after a write of [updateLease]. *)
Lemma stored_after_update (c : Config) (w w' : World) (t : Table)
    (k : string) (item : Item) :
  db w' = <[LeaseTable c := mkTable (KeySchema t) (<[k := item]> (Items t))]>
            (db w) ->
  stored c w' k = Some item
  /\ forall k', k' <> k ->
       lease_table c w = Some t -> stored c w' k' = stored c w k'.
Proof.
  intros Hd. unfold stored, lease_table. rewrite Hd, lookup_insert_eq.
  simpl. split; [apply lookup_insert_eq|].
  intros k' Hne ->. apply lookup_insert_ne. congruence.
Qed.

End UpdateFacts.

(** ** Renew, take and evict *)

Section Operations.

Context {T : Type}.

Lemma RenewLease_unfold (c : Config) (l : Lease T) (w : World) :
  RenewLease c l w
  = match updateLease c (renewed l) l w with
    | Some (None, w') => Some ((None, renewed l), w')
    | Some (Some e, w') => Some ((Some e, l), w')
    | None => None
    end.
Proof.
  unfold RenewLease, bind.
  change (with_Counter l (GoInt.incr (Counter l))) with (renewed l).
  destruct (updateLease c (renewed l) l w) as [[[e|] w']|]; reflexivity.
Qed.

Lemma TakeLease_unfold (c : Config) (l : Lease T) (w : World) :
  TakeLease c l w
  = match updateLease c (taken c l) l w with
    | Some (None, w') => Some ((None, taken c l), w')
    | Some (Some e, w') => Some ((Some e, l), w')
    | None => None
    end.
Proof.
  unfold TakeLease, bind.
  change (with_Owner (with_Counter l (GoInt.incr (Counter l))) (WorkerId c))
    with (taken c l).
  destruct (updateLease c (taken c l) l w) as [[[e|] w']|]; reflexivity.
Qed.

Lemma EvictLease_unfold (c : Config) (l : Lease T) (w : World) :
  EvictLease c l w
  = match updateLease c (evicted l) l w with
    | Some (None, w') => Some ((None, evicted l), w')
    | Some (Some e, w') => Some ((Some e, l), w')
    | None => None
    end.
Proof.
  unfold EvictLease, bind.
  change (with_Owner l "NULL") with (evicted l).
  destruct (updateLease c (evicted l) l w) as [[[e|] w']|]; reflexivity.
Qed.

(** The three operations return. *)
Lemma operations_total (c : Config) (l : Lease T) (w : World) :
  (exists r w', RenewLease c l w = Some (r, w'))
  /\ (exists r w', TakeLease c l w = Some (r, w'))
  /\ (exists r w', EvictLease c l w = Some (r, w')).
Proof.
  rewrite RenewLease_unfold, TakeLease_unfold, EvictLease_unfold.
  repeat split.
  - destruct (updateLease_total c (renewed l) l w) as ([e|] & w' & ->);
      eauto.
  - destruct (updateLease_total c (taken c l) l w) as ([e|] & w' & ->);
      eauto.
  - destruct (updateLease_total c (evicted l) l w) as ([e|] & w' & ->);
      eauto.
Qed.

(** A counter check that is part of the condition and does not hold of
    the stored record fails the guards. *)
Lemma stale_guards (c : Config) (l : Lease T) (w : World) :
  0 < Counter l ->
  stored_counter c w (Key l) <> Some (AttrN (Counter l)) ->
  guards l (stored c w (Key l)) = false.
Proof.
  intros Hpos Hstale. unfold guards, counter_guard.
  apply Z.ltb_lt in Hpos. rewrite Hpos.
  unfold stored_counter in Hstale.
  destruct (stored c w (Key l)) as [item|]; simpl.
  - rewrite bool_decide_eq_false_2 by exact Hstale. reflexivity.
  - rewrite lookup_empty. reflexivity.
Qed.

Lemma guards_stored (c : Config) (l : Lease T) (w : World) (k : string) :
  guards l (stored c w k) = false ->
  forall t, lease_table c w = Some t -> guards l (Items t !! k) = false.
Proof. unfold stored. intros H t Ht. rewrite Ht in H. exact H. Qed.

(** Guards that hold of a record with a positive-counter lease pin the
    stored counter. *)
Lemma guards_counter (l : Lease T) (record : option Item) :
  0 < Counter l -> guards l record = true ->
  default ∅ record !! LeaseCounterKey = Some (AttrN (Counter l)).
Proof.
  intros Hpos. unfold guards, counter_guard.
  apply Z.ltb_lt in Hpos. rewrite Hpos.
  intros H. apply andb_true_iff in H as [H _].
  apply bool_decide_eq_true in H. exact H.
Qed.

Lemma updated_attributes (u : Lease T) (record : option Item) :
  updated u record !! LeaseCounterKey = Some (AttrN (Counter u))
  /\ updated u record !! LeaseOwnerKey = Some (AttrS (Owner u)).
Proof.
  unfold updated. split.
  - apply lookup_insert_eq.
  - rewrite lookup_insert_ne by discriminate. apply lookup_insert_eq.
Qed.

(** What a successful [updateLease] leaves under the key. *)
Lemma updateLease_stored (c : Config) (u l : Lease T) (w w' : World) :
  idle w ->
  updateLease c u l w = Some (None, w') ->
  guards l (stored c w (Key u)) = true
  /\ stored c w' (Key u) = Some (updated u (stored c w (Key u)))
  /\ stored_counter c w' (Key u) = Some (AttrN (Counter u))
  /\ stored_owner c w' (Key u) = Some (AttrS (Owner u)).
Proof.
  intros Hidle H.
  apply updateLease_succeeded in H as (t & Ht & Hg & Hd & _);
    [|exact Hidle].
  destruct (stored_after_update c w w' t (Key u) _ Hd) as [Hs _].
  unfold stored_counter, stored_owner. rewrite Hs.
  unfold stored at 1 2. rewrite Ht.
  destruct (updated_attributes u (Items t !! Key u)) as [Hc Ho].
  auto.
Qed.

End Operations.

(** C10.  A successful [RenewLease] changes only the counter of the
    caller's lease, which it increments; a successful [TakeLease] changes
    only the counter, incremented, and the owner, set to the worker's id; a
    successful [EvictLease] changes only the owner, set to "NULL".  Key,
    [lastRenewal], [concurrencyToken] and extras are left as they were.
    The increment is Go's [++]: it adds one to every counter below the
    largest [int]. *)
Theorem C10_success_changes_only {T : Type} (c : Config) (l : Lease T)
    (w : World) :
  (forall l' w',
     RenewLease c l w = Some ((None, l'), w') ->
     Counter l' = GoInt.incr (Counter l)
     /\ Owner l' = Owner l /\ same_identity l l')
  /\ (forall l' w',
        TakeLease c l w = Some ((None, l'), w') ->
        Counter l' = GoInt.incr (Counter l)
        /\ Owner l' = WorkerId c /\ same_identity l l')
  /\ (forall l' w',
        EvictLease c l w = Some ((None, l'), w') ->
        Owner l' = "NULL"
        /\ Counter l' = Counter l /\ same_identity l l')
  /\ (GoInt.in_range (Counter l) -> Counter l < GoInt.max_int ->
      GoInt.incr (Counter l) = Counter l + 1).
Proof.
  repeat split.
  all: try (rewrite ?RenewLease_unfold, ?TakeLease_unfold,
              ?EvictLease_unfold in H;
            destruct (updateLease _ _ _ _) as [[[e|] w1]|];
            try discriminate; injection H as <- _; reflexivity).
  intros Hr Hlt. apply incr_in_range; assumption.
Qed.

(** C10, on a world where A is held by w2 at counter 5. *)
Lemma C10_success_changes_only_witness :
  let w := Examples.world Examples.heldA [] in
  let l := Examples.lease "A" "w2" 5 in
  (exists w', RenewLease Examples.cfg l w
              = Some ((None, Examples.lease "A" "w2" 6), w'))
  /\ Counter (Examples.lease "A" "w2" 6) = GoInt.incr (Counter l)
  /\ GoInt.incr (Counter l) = Counter l + 1.
Proof.
  intros w l.
  assert (Hrun : exists w', RenewLease Examples.cfg l w
                            = Some ((None, Examples.lease "A" "w2" 6), w')).
  { eexists. vm_compute. reflexivity. }
  split; [exact Hrun|].
  destruct Hrun as [w' Hrun].
  destruct (C10_success_changes_only Examples.cfg l w)
    as (Hrenew & _ & _ & Hincr).
  split.
  - exact (proj1 (Hrenew _ _ Hrun)).
  - apply Hincr; vm_compute; try split; congruence.
Defined.

(** C3, as stated, fails for a lease whose counter is 0: the record of A
    is at counter 5, the lease is stale, and both operations succeed and
    overwrite the record. *)
Lemma C3_counterexample :
  let w := Examples.world Examples.heldA [] in
  let l := Examples.lease "A" "" 0 in
  stored_counter Examples.cfg w "A" = Some (AttrN 5)
  /\ Counter l <> 5
  /\ (exists w',
        RenewLease Examples.cfg l w
        = Some ((None, Examples.lease "A" "" 1), w')
        /\ stored_counter Examples.cfg w' "A" = Some (AttrN 1))
  /\ (exists w',
        TakeLease Examples.cfg l w
        = Some ((None, Examples.lease "A" "w1" 1), w')
        /\ stored_counter Examples.cfg w' "A" = Some (AttrN 1)
        /\ stored_owner Examples.cfg w' "A" = Some (AttrS "w1")).
Proof.
  intros w l. split; [reflexivity|]. split; [discriminate|].
  split; eexists; vm_compute; repeat split; reflexivity.
Qed.

(** C3, amended.  For a lease whose counter is positive and differs from
    the stored counter (or whose record or counter attribute is missing),
    [RenewLease] and [TakeLease] return an error and change neither the
    tables nor the caller's lease, whatever the network does; on a served
    table and a quiet network the error is the conditional-check
    failure. *)
Theorem C3_stale_positive_counter {T : Type} (c : Config) (l : Lease T)
    (w : World) :
  idle w ->
  0 < Counter l ->
  stored_counter c w (Key l) <> Some (AttrN (Counter l)) ->
  (exists e w', RenewLease c l w = Some ((Some e, l), w') /\ db w' = db w)
  /\ (exists e w', TakeLease c l w = Some ((Some e, l), w') /\ db w' = db w)
  /\ (serving c w -> Key l <> "" -> quiet w ->
      (exists w', RenewLease c l w
                  = Some ((Some (RequestFailure ConditionalCheckFailed), l),
                          w'))
      /\ (exists w', TakeLease c l w
                     = Some ((Some (RequestFailure ConditionalCheckFailed),
                              l), w'))).
Proof.
  intros Hidle Hpos Hstale.
  pose proof (stale_guards c l w Hpos Hstale) as Hg.
  pose proof (guards_stored c l w (Key l) Hg) as Hg'.
  rewrite RenewLease_unfold, TakeLease_unfold.
  split; [|split].
  - destruct (updateLease_refused c (renewed l) l w Hidle Hg')
      as (e & w' & -> & Hd). eauto.
  - destruct (updateLease_refused c (taken c l) l w Hidle Hg')
      as (e & w' & -> & Hd). eauto.
  - intros Hserving Hk Hq.
    pose proof (quiet_hd w Hq) as Hhd.
    assert (Hhd2 : hd None (tl (network w)) = None).
    { pose proof (quiet_tl w Hq) as Ht.
      destruct (tl (network w)) as [|o rest]; [reflexivity|].
      apply Forall_cons in Ht as [-> _]. reflexivity. }
    rewrite (updateLease_refused_twice c (renewed l) l w Hidle Hserving Hk Hg
               Hhd).
    rewrite (updateLease_refused_twice c (taken c l) l w Hidle Hserving Hk Hg
               Hhd).
    rewrite Hhd2. simpl. eauto.
Qed.

(** C3 amended, for a renewal of A at counter 4 while the record is at
    counter 5. *)
Lemma C3_stale_positive_counter_witness :
  let w := Examples.world Examples.heldA [] in
  let l := Examples.lease "A" "w2" 4 in
  exists w',
    RenewLease Examples.cfg l w
    = Some ((Some (RequestFailure ConditionalCheckFailed), l), w')
    /\ db w' = db w.
Proof.
  intros w l.
  destruct (C3_stale_positive_counter Examples.cfg l w)
    as ((e & w' & Hrun & Hdb) & _ & Hquiet).
  - reflexivity.
  - reflexivity.
  - vm_compute. discriminate.
  - exists w'. split; [|exact Hdb].
    destruct Hquiet as [(w2 & Hccf) _].
    + exists (mkTable LeaseKeyKey (list_to_map Examples.heldA)).
      split; reflexivity.
    + discriminate.
    + constructor.
    + rewrite Hccf in Hrun. injection Hrun as <- <-. exact Hccf.
Defined.

(** C4.  [RenewLease], [TakeLease] and [EvictLease] each send one
    request, retried: the write of the renewed, taken or evicted lease
    under the condition built from the caller's lease.  That condition is
    made of the counter check exactly when the caller's lease has a
    positive counter and of the owner check exactly when its owner is not
    empty, joined by AND when both are there; on a served table the
    operation succeeds and stores its write when the stored record meets
    the checks, and fails, leaving lease and tables as they were, when it
    does not.  A lease at counter 0 without owner therefore carries no
    condition: its take succeeds whatever is stored, and a successful take
    of a lease at counter 0 puts the counter at 1. *)
Theorem C4_condition_composition {T : Type} (c : Config) (u l : Lease T) :
  let inp := conditioned (updateInput c u) l in
  ui_ConditionExpression inp
  = match 0 <? Counter l, bool_decide (Owner l ≠ "") with
    | true, true =>
        Some (CondAnd (CondEq ":condCounter" (PathRef "#counter"))
                      (CondEq ":condOwner" (PathRef "#owner")))
    | true, false => Some (CondEq ":condCounter" (PathRef "#counter"))
    | false, true => Some (CondEq ":condOwner" (PathRef "#owner"))
    | false, false => None
    end
  /\ condExp_text l
     = match ui_ConditionExpression inp with
       | Some e => render e
       | None => ""
       end
  /\ (forall record,
        admits (ui_ExpressionAttributeNames inp)
               (ui_ExpressionAttributeValues inp)
               (ui_ConditionExpression inp) record
        = Some (guards l record))
  /\ (forall op,
        In (op, u) (writes c l) ->
        (forall w,
           op l w
           = match attempts (fuel_for maxUpdateRetries) maxUpdateRetries
                            (db_UpdateItem inp) None w with
             | Some (None, w1) => Some ((None, u), rested w1)
             | Some (Some e, w1) => Some ((Some e, l), rested w1)
             | None => None
             end)
        /\ (forall w,
              idle w -> serving c w -> Key l <> "" ->
              hd None (network w) = None ->
              if guards l (stored c w (Key l)) then
                exists w',
                  op l w = Some ((None, u), w')
                  /\ stored c w' (Key l)
                     = Some (updated u (stored c w (Key l)))
              else
                exists e w',
                  op l w = Some ((Some e, l), w') /\ db w' = db w))
  /\ (Counter l = 0 -> Owner l = "" ->
      ui_ConditionExpression inp = None
      /\ forall w,
           idle w -> serving c w -> Key l <> "" ->
           hd None (network w) = None ->
           exists w',
             TakeLease c l w = Some ((None, taken c l), w')
             /\ Counter (taken c l) = 1
             /\ Owner (taken c l) = WorkerId c
             /\ stored_counter c w' (Key l) = Some (AttrN 1)
             /\ stored_owner c w' (Key l) = Some (AttrS (WorkerId c)))
  /\ (Counter l = 0 ->
      forall w l' w',
        TakeLease c l w = Some ((None, l'), w') -> Counter l' = 1).
Proof.
  intros inp. subst inp.
  split; [apply conditioned_expression|].
  split; [apply condExp_text_render|].
  split; [intros record; apply conditioned_admits|].
  split; [|split].
  - intros op Hop.
    assert (Hcase : Key u = Key l
                    /\ forall w,
                         op l w
                         = match updateLease c u l w with
                           | Some (None, w') => Some ((None, u), w')
                           | Some (Some e, w') => Some ((Some e, l), w')
                           | None => None
                           end).
    { destruct Hop as [Heq|[Heq|[Heq|[]]]]; injection Heq as <- <-;
        (split; [reflexivity|]); intros w;
        [apply RenewLease_unfold | apply TakeLease_unfold
         | apply EvictLease_unfold]. }
    destruct Hcase as [Hkey Hrun]. split.
    + intros w. rewrite Hrun, updateLease_unfold.
      destruct (attempts _ _ _ _ _) as [[[e|] w1]|]; reflexivity.
    + intros w Hidle Hserving Hk Hhd. rewrite Hrun.
      destruct (guards l (stored c w (Key l))) eqn:Hg.
      * destruct Hserving as (t & Ht & Hks).
        unfold stored in Hg. rewrite Ht, <- Hkey in Hg.
        rewrite <- Hkey in Hk.
        pose proof (updateLease_accepted c u l w t Hidle Ht Hks Hk Hg Hhd)
          as Hupd.
        rewrite Hupd. eexists. split; [reflexivity|].
        apply updateLease_stored in Hupd as (_ & Hst & _); [|exact Hidle].
        rewrite <- Hkey. exact Hst.
      * destruct (updateLease_refused c u l w Hidle) as (e & w' & Hupd & Hdb).
        { rewrite Hkey. apply guards_stored. exact Hg. }
        rewrite Hupd. eauto.
  - intros Hc Ho. split.
    + rewrite conditioned_expression, Hc, Ho. reflexivity.
    + intros w Hidle (t & Ht & Hks) Hk Hhd.
      assert (Hg : guards l (Items t !! Key l) = true).
      { unfold guards, counter_guard, owner_guard. rewrite Hc, Ho.
        reflexivity. }
      pose proof (updateLease_accepted c (taken c l) l w t Hidle Ht Hks Hk Hg
                    Hhd) as Hrun.
      rewrite TakeLease_unfold, Hrun.
      eexists. split; [reflexivity|].
      apply updateLease_stored in Hrun as (_ & _ & Hsc & Hso);
        [|exact Hidle].
      simpl in Hsc, Hso |- *. rewrite Hc in Hsc |- *. auto.
  - intros Hc w l' w' H. rewrite TakeLease_unfold in H.
    destruct (updateLease _ _ _ _) as [[[e|] w1]|]; try discriminate.
    injection H as <- _. simpl. rewrite Hc. reflexivity.
Qed.

(** C4, for a take of the freshly created key B by worker w1, for a
    renewal of A by its holder, and for an evict of A by a lease that
    names another owner. *)
Lemma C4_condition_composition_witness :
  let w := Examples.world [("B", Examples.bare "B")] [] in
  let l := Examples.lease "B" "" 0 in
  let wA := Examples.world Examples.heldA [] in
  let held := Examples.lease "A" "w2" 5 in
  let stale := Examples.lease "A" "w3" 5 in
  (ui_ConditionExpression
     (conditioned (updateInput Examples.cfg (taken Examples.cfg l)) l) = None
   /\ exists w',
        TakeLease Examples.cfg l w
        = Some ((None, Examples.lease "B" "w1" 1), w')
        /\ stored_counter Examples.cfg w' "B" = Some (AttrN 1)
        /\ stored_owner Examples.cfg w' "B" = Some (AttrS "w1"))
  /\ (exists w',
        RenewLease Examples.cfg held wA
        = Some ((None, Examples.lease "A" "w2" 6), w')
        /\ stored Examples.cfg w' "A" = Some (Examples.record "A" "w2" 6))
  /\ (exists e w',
        EvictLease Examples.cfg stale wA = Some ((Some e, stale), w')
        /\ db w' = db wA).
Proof.
  intros w l wA held stale.
  assert (Hserving : forall items,
            serving Examples.cfg (Examples.world items [])).
  { intros items. exists (mkTable LeaseKeyKey (list_to_map items)).
    split; reflexivity. }
  split; [|split].
  - destruct (C4_condition_composition Examples.cfg (taken Examples.cfg l) l)
      as (_ & _ & _ & _ & Hfresh & Hone).
    destruct Hfresh as [Hnone Htake]; [reflexivity | reflexivity |].
    split; [exact Hnone|].
    destruct (Htake w eq_refl (Hserving _)) as (w' & Hrun & _ & _ & Hsc & Hso);
      [discriminate | reflexivity |].
    pose proof (Hone eq_refl w _ w' Hrun) as Hcounter.
    exists w'. split; [exact Hrun|]. split; [exact Hsc | exact Hso].
  - destruct (C4_condition_composition Examples.cfg (renewed held) held)
      as (_ & _ & _ & Hops & _).
    destruct (Hops (RenewLease Examples.cfg)) as [_ Hrun];
      [left; reflexivity|].
    specialize (Hrun wA eq_refl (Hserving _)).
    destruct Hrun as (w' & Hrun & Hst); [discriminate | reflexivity |].
    exists w'. split; [exact Hrun|].
    etransitivity; [exact Hst|]. vm_compute. reflexivity.
  - destruct (C4_condition_composition Examples.cfg (evicted stale) stale)
      as (_ & _ & _ & Hops & _).
    destruct (Hops (EvictLease Examples.cfg)) as [_ Hrun];
      [right; right; left; reflexivity|].
    specialize (Hrun wA eq_refl (Hserving _)).
    destruct Hrun as (e & w' & Hrun & Hdb); [discriminate | reflexivity |].
    exists e, w'. split; [exact Hrun | exact Hdb].
Defined.

(** C5, as stated, fails for a lease at counter 0: its eviction carries no
    counter check and writes the lease's counter over the stored one. *)
Lemma C5_counterexample :
  let w := Examples.world Examples.heldA [] in
  let l := Examples.lease "A" "" 0 in
  stored_counter Examples.cfg w "A" = Some (AttrN 5)
  /\ exists w',
       EvictLease Examples.cfg l w
       = Some ((None, Examples.lease "A" "NULL" 0), w')
       /\ stored_owner Examples.cfg w' "A" = Some (AttrS "NULL")
       /\ stored_counter Examples.cfg w' "A" = Some (AttrN 0).
Proof.
  intros w l. split; [reflexivity|].
  eexists; vm_compute; repeat split; reflexivity.
Qed.

(** C5, amended.  A successful [EvictLease] sets the stored owner to
    "NULL" and stores the counter of the caller's lease, which it does not
    increment; for a lease with a positive counter that is the counter the
    record already had.  The next successful take of the evicted lease
    stores, and gives the lease, the counter incremented by one. *)
Theorem C5_evict_then_take {T : Type} (c : Config) (l l' : Lease T)
    (w w' : World) :
  idle w ->
  EvictLease c l w = Some ((None, l'), w') ->
  l' = evicted l
  /\ Counter l' = Counter l
  /\ stored_owner c w' (Key l) = Some (AttrS "NULL")
  /\ stored_counter c w' (Key l) = Some (AttrN (Counter l))
  /\ (0 < Counter l ->
      stored_counter c w (Key l) = stored_counter c w' (Key l))
  /\ (forall w1 l2 w2,
        idle w1 ->
        TakeLease c l' w1 = Some ((None, l2), w2) ->
        Counter l2 = GoInt.incr (Counter l)
        /\ stored_counter c w2 (Key l) = Some (AttrN (GoInt.incr (Counter l)))
        /\ (GoInt.in_range (Counter l) -> Counter l < GoInt.max_int ->
            Counter l2 = Counter l + 1)).
Proof.
  intros Hidle H. rewrite EvictLease_unfold in H.
  destruct (updateLease c (evicted l) l w) as [[[e|] w1]|] eqn:Hrun;
    try discriminate.
  injection H as <- <-.
  apply updateLease_stored in Hrun as (Hg & _ & Hsc & Hso); [|exact Hidle].
  simpl in Hg, Hsc, Hso.
  split; [reflexivity|]. split; [reflexivity|].
  split; [exact Hso|]. split; [exact Hsc|]. split.
  - intros Hpos. rewrite Hsc.
    pose proof (guards_counter l _ Hpos Hg) as Hcounter.
    unfold stored_counter.
    destruct (stored c w (Key l)) as [item|]; [exact Hcounter|].
    simpl in Hcounter. rewrite lookup_empty in Hcounter. discriminate.
  - intros w2 l2 w3 Hidle2 Htake. rewrite TakeLease_unfold in Htake.
    destruct (updateLease c (taken c (evicted l)) (evicted l) w2)
      as [[[e|] w4]|] eqn:Hrun2; try discriminate.
    injection Htake as <- <-.
    apply updateLease_stored in Hrun2 as (_ & _ & Hsc2 & _);
      [|exact Hidle2].
    simpl in Hsc2 |- *.
    split; [reflexivity|]. split; [exact Hsc2|].
    intros Hr Hlt. apply incr_in_range; assumption.
Qed.

(** C5 amended: w2 evicts A at counter 5, then takes it. *)
Lemma C5_evict_then_take_witness :
  let w := Examples.world Examples.heldA [] in
  let l := Examples.lease "A" "w2" 5 in
  exists w' w2,
    EvictLease Examples.cfg l w
    = Some ((None, Examples.lease "A" "NULL" 5), w')
    /\ stored_counter Examples.cfg w' "A" = Some (AttrN 5)
    /\ TakeLease Examples.cfg (Examples.lease "A" "NULL" 5) w'
       = Some ((None, Examples.lease "A" "w1" 6), w2)
    /\ stored_counter Examples.cfg w2 "A" = Some (AttrN 6).
Proof.
  intros w l.
  destruct (operations_total Examples.cfg l w) as (_ & _ & (r & w' & Hev)).
  assert (Hr : r = (None, Examples.lease "A" "NULL" 5)).
  { vm_compute in Hev. injection Hev as <- _. reflexivity. }
  subst r.
  destruct (operations_total Examples.cfg (Examples.lease "A" "NULL" 5) w')
    as (_ & (r & w2 & Htk) & _).
  assert (Hidle' : idle w').
  { vm_compute in Hev. injection Hev as <-. reflexivity. }
  assert (Hr : r = (None, Examples.lease "A" "w1" 6)).
  { vm_compute in Hev. injection Hev as <-.
    vm_compute in Htk. injection Htk as <- _. reflexivity. }
  subst r.
  destruct (C5_evict_then_take Examples.cfg l _ w w' eq_refl Hev)
    as (_ & _ & _ & Hsc & _ & Hnext).
  destruct (Hnext w' _ w2 Hidle' Htk) as (_ & Hsc2 & _).
  exists w', w2. auto.
Defined.

(** ** [DeleteLease] *)

Section DeleteFacts.

Context {T : Type}.

Lemma deleteInput_admits (c : Config) (l : Lease T)
    (record : option Item) :
  let inp := deleteInput c l in
  admits (di_ExpressionAttributeNames inp)
         (di_ExpressionAttributeValues inp)
         (di_ConditionExpression inp) record
  = Some (deletable l record).
Proof.
  unfold deleteInput, deletable, matches, admits. simpl.
  repeat (rewrite ?lookup_insert_eq;
          try (rewrite lookup_insert_ne by discriminate)).
  reflexivity.
Qed.

(** The text of the condition is the one in the source. *)
Lemma deleteInput_text (c : Config) (l : Lease T) :
  match di_ConditionExpression (deleteInput c l) with
  | Some e => render e
  | None => ""
  end
  = "attribute_not_exists(#key) OR :condCounter = #counter AND :condOwner = #owner".
Proof. reflexivity. Qed.

Lemma db_DeleteItem_lease (c : Config) (l : Lease T) (d : Database)
    (t : Table) :
  d !! LeaseTable c = Some t ->
  KeySchema t = LeaseKeyKey ->
  Key l <> "" ->
  db_DeleteItem (deleteInput c l) d
  = if deletable l (Items t !! Key l)
    then (None,
          <[LeaseTable c :=
              mkTable (KeySchema t) (delete (Key l) (Items t))]> d)
    else (Some (RequestFailure ConditionalCheckFailed), d).
Proof.
  intros Ht Hks Hk. unfold db_DeleteItem.
  change (di_TableName (deleteInput c l)) with (LeaseTable c).
  change (di_Key (deleteInput c l))
    with ({[ LeaseKeyKey := AttrS (Key l) ]} : Item).
  rewrite Ht, (key_of_lease t (Key l) Hks Hk).
  rewrite deleteInput_admits.
  destruct (deletable l (Items t !! Key l)); reflexivity.
Qed.

Lemma DeleteLease_unfold (c : Config) (l : Lease T) (w : World) :
  DeleteLease c l w
  = match attempts (fuel_for maxDeleteRetries) maxDeleteRetries
            (db_DeleteItem (deleteInput c l)) None w with
    | Some (err, w1) => Some (err, rested w1)
    | None => None
    end.
Proof.
  unfold DeleteLease, bind. rewrite DeleteLease_loop_attempts.
  destruct (attempts _ _ _ _ _) as [[err w1]|]; reflexivity.
Qed.

(** [DeleteLease] returns. *)
Lemma DeleteLease_total (c : Config) (l : Lease T) (w : World) :
  exists r w', DeleteLease c l w = Some (r, w').
Proof.
  rewrite DeleteLease_unfold.
  destruct (attempts_total maxDeleteRetries
              (db_DeleteItem (deleteInput c l))
              (db_DeleteItem_fails_clean _)
              (fuel_for maxDeleteRetries) None w) as (r & w1 & ->);
    [unfold fuel_for; lia | eauto].
Qed.

(** On a table where every item carries its key, the condition of the
    delete says: no record, or the same counter and owner. *)
Lemma deletable_iff (c : Config) (l : Lease T) (w : World) (t : Table) :
  lease_table c w = Some t ->
  KeySchema t = LeaseKeyKey ->
  well_keyed t ->
  deletable l (stored c w (Key l)) = true
  <-> stored c w (Key l) = None
      \/ (stored_owner c w (Key l) = Some (AttrS (Owner l))
          /\ stored_counter c w (Key l) = Some (AttrN (Counter l))).
Proof.
  intros Ht Hks Hwk.
  unfold stored_owner, stored_counter, deletable, matches.
  unfold stored. rewrite Ht.
  destruct (Items t !! Key l) as [item|] eqn:Hitem; simpl.
  - apply Hwk in Hitem. rewrite Hks in Hitem. rewrite Hitem.
    rewrite bool_decide_eq_false_2 by discriminate. simpl.
    rewrite andb_true_iff, !bool_decide_eq_true.
    split.
    + intros [Hc Ho]. right. auto.
    + intros [?|[Ho Hc]]; [discriminate | auto].
  - rewrite lookup_empty. simpl. split; auto.
Qed.

End DeleteFacts.

(** C6, as stated, fails when the stored owner and counter are read as
    the package reads them: the record that [CreateLease] writes for key B
    lists as the lease of B without owner at counter 0, and the delete of
    that very lease returns the conditional-check failure and leaves the
    record in place. *)
Lemma C6_counterexample :
  let w := Examples.world [] [] in
  let listed : Lease unit := mkLease "B" "" 0 1000 "" None in
  exists w1 w2 w3,
    CreateLease Examples.cfg (Examples.lease "B" "" 0) w = Some (None, w1)
    /\ stored Examples.cfg w1 "B" = Some (Examples.bare "B")
    /\ ListLeases map_order Examples.cfg w1 = Some (([listed], None), w2)
    /\ Owner listed = "" /\ Counter listed = 0
    /\ DeleteLease Examples.cfg listed w2
       = Some (Some (RequestFailure ConditionalCheckFailed), w3)
    /\ stored Examples.cfg w3 "B" = Some (Examples.bare "B").
Proof.
  intros w listed. do 3 eexists.
  split; [vm_compute; reflexivity|].
  split; [vm_compute; reflexivity|].
  split; [vm_compute; reflexivity|].
  split; [reflexivity|]. split; [reflexivity|].
  split; vm_compute; reflexivity.
Qed.

(** C6, amended.  On a served table, [DeleteLease] started with the
    backoff at rest succeeds exactly when no record is stored under the
    key of the lease, or the record has a [leaseOwner] attribute and a
    [leaseCounter] attribute equal to the owner and the counter of the
    lease; the record is then gone.  A record that lacks one of the two
    attributes, as [CreateLease] leaves it, matches no lease.  Otherwise
    [DeleteLease] returns the conditional-check failure and the tables
    are as before.  The network is quiet in the equivalence; whatever the
    network does, a success implies the condition and a failed condition
    implies an error that leaves the tables alone. *)
Theorem C6_conditional_delete {T : Type} (c : Config) (l : Lease T)
    (w : World) (t : Table) :
  idle w ->
  lease_table c w = Some t ->
  KeySchema t = LeaseKeyKey ->
  well_keyed t ->
  Key l <> "" ->
  let condition :=
    stored c w (Key l) = None
    \/ (stored_owner c w (Key l) = Some (AttrS (Owner l))
        /\ stored_counter c w (Key l) = Some (AttrN (Counter l))) in
  (forall w', DeleteLease c l w = Some (None, w') ->
              condition /\ stored c w' (Key l) = None)
  /\ (~ condition ->
      exists e w', DeleteLease c l w = Some (Some e, w') /\ db w' = db w)
  /\ (quiet w ->
      (condition ->
       exists w', DeleteLease c l w = Some (None, w')
                  /\ stored c w' (Key l) = None)
      /\ (~ condition ->
          exists w',
            DeleteLease c l w
            = Some (Some (RequestFailure ConditionalCheckFailed), w')
            /\ db w' = db w))
  /\ (forall item,
        stored c w (Key l) = Some item ->
        item !! LeaseOwnerKey = None \/ item !! LeaseCounterKey = None ->
        ~ condition).
Proof.
  intros Hidle Ht Hks Hwk Hk condition.
  assert (Hmissing : forall item,
            stored c w (Key l) = Some item ->
            item !! LeaseOwnerKey = None \/ item !! LeaseCounterKey = None ->
            ~ condition).
  { intros item Hitem Hmiss [Habsent|[Ho Hc]]; [congruence|].
    unfold stored_owner, stored_counter in Ho, Hc.
    rewrite Hitem in Ho, Hc. destruct Hmiss; congruence. }
  pose proof (deletable_iff c l w t Ht Hks Hwk) as Hiff.
  fold condition in Hiff.
  assert (Hreq := db_DeleteItem_lease c l (db w) t Ht Hks Hk).
  assert (Hst : stored c w (Key l) = Items t !! Key l).
  { unfold stored. rewrite Ht. reflexivity. }
  rewrite Hst in Hiff.
  assert (Hlt : (attempt w < maxDeleteRetries)%nat).
  { unfold idle in Hidle. unfold maxDeleteRetries. lia. }
  assert (Hgone : forall w',
            db w' = <[LeaseTable c :=
                        mkTable (KeySchema t) (delete (Key l) (Items t))]>
                      (db w) ->
            stored c w' (Key l) = None).
  { intros w' Hd. unfold stored, lease_table.
    rewrite Hd, lookup_insert_eq. simpl. apply lookup_delete_eq. }
  rewrite DeleteLease_unfold.
  split; [|split; [|split; [|exact Hmissing]]].
  - intros w' H.
    destruct (attempts _ _ _ _ _) as [[err w1]|] eqn:Hrun; [|discriminate].
    injection H as -> <-.
    apply attempts_succeeded in Hrun; [|apply db_DeleteItem_fails_clean].
    destruct Hrun as [(_ & Hcap & _)|(_ & Hrun)]; [lia|].
    rewrite Hreq in Hrun.
    destruct (deletable l (Items t !! Key l)); [|discriminate].
    injection Hrun as Hd. split; [apply Hiff; reflexivity|].
    apply Hgone. simpl. symmetry. exact Hd.
  - intros Hnot.
    destruct (deletable l (Items t !! Key l)) eqn:Hdel;
      [exfalso; apply Hnot, Hiff; reflexivity|].
    destruct (attempts_refused maxDeleteRetries
                (db_DeleteItem (deleteInput c l))
                (db_DeleteItem_fails_clean _)
                (fuel_for maxDeleteRetries) None w _ Hreq)
      as (e' & w1 & Hrun); [unfold fuel_for; lia | left; exact Hlt |].
    rewrite Hrun. exists e', (rested w1). split; [reflexivity|].
    apply attempts_failed in Hrun; [|apply db_DeleteItem_fails_clean].
    simpl. apply Hrun.
  - intros Hq. split.
    + intros Hcond. apply Hiff in Hcond. rewrite Hcond in Hreq.
      unfold fuel_for.
      rewrite (attempts_accepted maxDeleteRetries _ _ None w _ Hreq Hlt
                 (quiet_hd w Hq)).
      eexists. split; [reflexivity|]. apply Hgone. reflexivity.
    + intros Hnot.
      destruct (deletable l (Items t !! Key l)) eqn:Hdel;
        [exfalso; apply Hnot, Hiff; reflexivity|].
      destruct (attempts_refused_quiet maxDeleteRetries
                  (db_DeleteItem (deleteInput c l))
                  (fuel_for maxDeleteRetries) None w _ Hreq)
        as (w1 & Hrun & _); [unfold fuel_for; lia | exact Hlt | exact Hq |].
      rewrite Hrun. exists (rested w1). split; [reflexivity|].
      apply attempts_failed in Hrun; [|apply db_DeleteItem_fails_clean].
      simpl. apply Hrun.
Qed.

Lemma well_keyed_single (k : string) (item : Item) :
  item !! LeaseKeyKey = Some (AttrS k) ->
  well_keyed (mkTable LeaseKeyKey (list_to_map [(k, item)])).
Proof.
  intros Hitem k' item' H. simpl in *.
  apply lookup_insert_Some in H as [[<- <-]|[_ H]]; [exact Hitem|].
  rewrite lookup_empty in H. discriminate.
Qed.

(** C6 amended, for the owner's delete of A at the stored counter 5, for
    a delete of A at the stale counter 4, and for the delete of the
    freshly created B through the lease it lists as. *)
Lemma C6_conditional_delete_witness :
  let w := Examples.world Examples.heldA [] in
  let wB := Examples.world [("B", Examples.bare "B")] [] in
  (exists w', DeleteLease Examples.cfg (Examples.lease "A" "w2" 5) w
              = Some (None, w')
              /\ stored Examples.cfg w' "A" = None)
  /\ (exists w', DeleteLease Examples.cfg (Examples.lease "A" "w2" 4) w
                 = Some (Some (RequestFailure ConditionalCheckFailed), w')
                 /\ db w' = db w)
  /\ (exists w', DeleteLease Examples.cfg (Examples.lease "B" "" 0) wB
                 = Some (Some (RequestFailure ConditionalCheckFailed), w')
                 /\ db w' = db wB).
Proof.
  intros w wB.
  assert (Hwk : well_keyed (mkTable LeaseKeyKey
                              (list_to_map Examples.heldA))).
  { apply well_keyed_single. reflexivity. }
  assert (HwkB : well_keyed (mkTable LeaseKeyKey
                               (list_to_map [("B", Examples.bare "B")]))).
  { apply well_keyed_single. reflexivity. }
  split; [|split].
  - destruct (C6_conditional_delete Examples.cfg
                (Examples.lease "A" "w2" 5) w _ eq_refl eq_refl eq_refl Hwk)
      as (_ & _ & Hquiet & _); [discriminate|].
    destruct Hquiet as [Hyes _]; [constructor|].
    apply Hyes. right. split; reflexivity.
  - destruct (C6_conditional_delete Examples.cfg
                (Examples.lease "A" "w2" 4) w _ eq_refl eq_refl eq_refl Hwk)
      as (_ & _ & Hquiet & _); [discriminate|].
    destruct Hquiet as [_ Hno]; [constructor|].
    apply Hno. intros [Habsent|[_ Hcounter]]; vm_compute in *; discriminate.
  - destruct (C6_conditional_delete Examples.cfg
                (Examples.lease "B" "" 0) wB _ eq_refl eq_refl eq_refl HwkB)
      as (_ & _ & Hquiet & Hmissing); [discriminate|].
    destruct Hquiet as [_ Hno]; [constructor|].
    apply Hno, (Hmissing (Examples.bare "B")); [reflexivity|].
    left. reflexivity.
Defined.

(** C2, as stated, fails: a renewal and a delete that meet the
    conditional-check failure are both attempted a second time, after a
    pause, before the failure is returned. *)
Lemma C2_counterexample :
  let w := Examples.world Examples.heldA [] in
  let l := Examples.lease "A" "w2" 4 in
  calls w = 0%nat
  /\ (exists w',
        RenewLease Examples.cfg l w
        = Some ((Some (RequestFailure ConditionalCheckFailed), l), w')
        /\ calls w' = 2%nat /\ slept w' = [1%nat; 0%nat])
  /\ (exists w',
        DeleteLease Examples.cfg l w
        = Some (Some (RequestFailure ConditionalCheckFailed), w')
        /\ calls w' = 2%nat /\ slept w' = [1%nat; 0%nat]).
Proof.
  intros w l. split; [reflexivity|].
  split; eexists; vm_compute; repeat split; reflexivity.
Qed.

(** C2, amended.  A conditional-check failure is handled like any other
    error of the store: when the first attempt of a renew, take, evict or
    delete meets it, the operation pauses and makes its second and last
    attempt, and returns what that attempt returns, which is the
    conditional-check failure again unless the network drops the call.
    The tables and the caller's lease are unchanged. *)
Theorem C2_conditional_failure_retried {T : Type} (c : Config)
    (l : Lease T) (w : World) :
  idle w ->
  serving c w ->
  Key l <> "" ->
  hd None (network w) = None ->
  let e2 := default (RequestFailure ConditionalCheckFailed)
                    (hd None (tl (network w))) in
  let w2 := rested (paused (dropped (paused (dropped w)))) in
  (guards l (stored c w (Key l)) = false ->
   RenewLease c l w = Some ((Some e2, l), w2)
   /\ TakeLease c l w = Some ((Some e2, l), w2)
   /\ EvictLease c l w = Some ((Some e2, l), w2))
  /\ (deletable l (stored c w (Key l)) = false ->
      DeleteLease c l w = Some (Some e2, w2))
  /\ calls w2 = (calls w + 2)%nat
  /\ slept w2 = 1%nat :: 0%nat :: slept w
  /\ db w2 = db w.
Proof.
  intros Hidle Hserving Hk Hhd e2 w2.
  split; [|split; [|split; [|split]]].
  - intros Hg.
    rewrite RenewLease_unfold, TakeLease_unfold, EvictLease_unfold.
    rewrite (updateLease_refused_twice c (renewed l) l w Hidle Hserving Hk Hg
               Hhd).
    rewrite (updateLease_refused_twice c (taken c l) l w Hidle Hserving Hk Hg
               Hhd).
    rewrite (updateLease_refused_twice c (evicted l) l w Hidle Hserving Hk Hg
               Hhd).
    auto.
  - intros Hdel. destruct Hserving as (t & Ht & Hks).
    rewrite DeleteLease_unfold.
    change (fuel_for maxDeleteRetries) with 3%nat.
    change maxDeleteRetries with 2%nat.
    rewrite (attempts_refused_twice _ w
               (RequestFailure ConditionalCheckFailed) Hidle Hhd);
      [reflexivity|].
    rewrite (db_DeleteItem_lease c l (db w) t Ht Hks Hk).
    unfold stored in Hdel. rewrite Ht in Hdel. rewrite Hdel. reflexivity.
  - subst w2. simpl. lia.
  - subst w2. simpl. rewrite Hidle. reflexivity.
  - reflexivity.
Qed.

(** C2 amended, for the renewal of A at the stale counter 4. *)
Lemma C2_conditional_failure_retried_witness :
  let w := Examples.world Examples.heldA [] in
  let l := Examples.lease "A" "w2" 4 in
  exists w',
    RenewLease Examples.cfg l w
    = Some ((Some (RequestFailure ConditionalCheckFailed), l), w')
    /\ calls w' = (calls w + 2)%nat.
Proof.
  intros w l.
  destruct (C2_conditional_failure_retried Examples.cfg l w)
    as (Hupdate & _ & Hcalls & _).
  - reflexivity.
  - exists (mkTable LeaseKeyKey (list_to_map Examples.heldA)).
    split; reflexivity.
  - discriminate.
  - reflexivity.
  - destruct Hupdate as (Hrenew & _); [reflexivity|].
    eexists. split; [exact Hrenew | exact Hcalls].
Defined.

(** ** Decoding *)

Lemma fieldByName_exact (f : field) : fieldByName (field_name f) = Some f.
Proof. destruct f; reflexivity. Qed.

(** An attribute that matches no field does not carry a field's name. *)
Lemma fieldByName_None (name : string) (f : field) :
  fieldByName name = None -> name <> field_name f.
Proof. intros H ->. rewrite fieldByName_exact in H. discriminate. Qed.

Lemma tidy_empty : tidy ∅.
Proof. intros name f [av H]. rewrite lookup_empty in H. discriminate. Qed.

(** Writing an attribute under a field's own name keeps an item tidy. *)
Lemma tidy_insert (item : Item) (f : field) (av : AttributeValue) :
  tidy item -> tidy (<[field_name f := av]> item).
Proof.
  intros Ht name g [x Hx] Hg.
  apply lookup_insert_Some in Hx as [[<- _]|[_ Hx]].
  - rewrite fieldByName_exact in Hg. injection Hg as <-. reflexivity.
  - apply Ht; eauto.
Qed.

Lemma tidy_singleton (f : field) (av : AttributeValue) :
  tidy {[ field_name f := av ]}.
Proof. rewrite <- insert_empty. apply tidy_insert, tidy_empty. Qed.

Section DecodingFacts.

Context {T : Type}.

(** Decoding fills the three persisted fields only. *)
Lemma decodeMap_frame (attrs : list (string * AttributeValue))
    (l0 l : Lease T) :
  decodeMap attrs l0 = Some l ->
  lastRenewal l = lastRenewal l0
  /\ concurrencyToken l = concurrencyToken l0
  /\ extrafields l = extrafields l0.
Proof.
  revert l0. induction attrs as [|[k av] attrs IH]; intros l0 H; simpl in H.
  - injection H as <-. auto.
  - destruct (fieldByName k) as [f|]; [|apply IH, H].
    destruct (decode_field f av l0) as [l1|] eqn:Hf; [|discriminate].
    apply IH in H as (-> & -> & ->).
    destruct f; simpl in Hf;
      [destruct (decode_string av) | destruct (decode_string av)
      | destruct (decode_int av)];
      try discriminate; injection Hf as <-; auto.
Qed.

Lemma overlay_empty (lease : Lease T) : overlay ∅ lease = Some lease.
Proof. unfold overlay. rewrite !lookup_empty. destruct lease; reflexivity. Qed.

(** An attribute that matches no field changes nothing to [overlay]. *)
Lemma overlay_insert_other (item : Item) (k : string) (av : AttributeValue)
    (lease : Lease T) :
  fieldByName k = None ->
  overlay (<[k := av]> item) lease = overlay item lease.
Proof.
  intros Hk. unfold overlay.
  rewrite !lookup_insert_ne; [reflexivity | | |].
  - apply (fieldByName_None k FieldCounter Hk).
  - apply (fieldByName_None k FieldOwner Hk).
  - apply (fieldByName_None k FieldKey Hk).
Qed.

(** A fresh attribute under a field's name: [overlay] decodes it into the
    field first. *)
Lemma overlay_insert_field (item : Item) (f : field) (av : AttributeValue)
    (lease : Lease T) :
  item !! field_name f = None ->
  overlay (<[field_name f := av]> item) lease
  = match decode_field f av lease with
    | Some lease' => overlay item lease'
    | None => None
    end.
Proof.
  intros Hfresh. unfold overlay.
  destruct f; simpl in *.
  - rewrite lookup_insert_eq, !lookup_insert_ne by discriminate.
    rewrite Hfresh.
    destruct (decode_string av); reflexivity.
  - rewrite lookup_insert_eq, !lookup_insert_ne by discriminate.
    rewrite Hfresh.
    destruct (decode_string av); [reflexivity|].
    destruct (match item !! LeaseKeyKey with
              | Some av0 => decode_string av0
              | None => Some (Key lease)
              end); reflexivity.
  - rewrite lookup_insert_eq, !lookup_insert_ne by discriminate.
    rewrite Hfresh.
    destruct (decode_int av); [reflexivity|].
    destruct (match item !! LeaseKeyKey with
              | Some av0 => decode_string av0
              | None => Some (Key lease)
              end); [|reflexivity].
    destruct (match item !! LeaseOwnerKey with
              | Some av0 => decode_string av0
              | None => Some (Owner lease)
              end); reflexivity.
Qed.

(** On attributes that are tidy and named once each, the order of the
    range is immaterial: the decoder computes [overlay]. *)
Lemma decodeMap_overlay (attrs : list (string * AttributeValue))
    (lease : Lease T) :
  NoDup (map fst attrs) ->
  (forall name av f,
     (name, av) ∈ attrs -> fieldByName name = Some f ->
     name = field_name f) ->
  decodeMap attrs lease = overlay (list_to_map attrs) lease.
Proof.
  revert lease. induction attrs as [|[k av] attrs IH]; intros lease Hnd Ht.
  - simpl. symmetry. apply overlay_empty.
  - simpl in *. apply NoDup_cons in Hnd as [Hk Hnd].
    assert (Hfresh : (list_to_map attrs : Item) !! k = None).
    { apply not_elem_of_list_to_map_1. exact Hk. }
    assert (Ht' : forall name av0 f,
              (name, av0) ∈ attrs -> fieldByName name = Some f ->
              name = field_name f).
    { intros name av0 f Hin. apply (Ht name av0 f).
      apply elem_of_cons. right. exact Hin. }
    destruct (fieldByName k) as [f|] eqn:Hf.
    + pose proof (Ht k av f (list_elem_of_here _ _) Hf) as ->.
      rewrite overlay_insert_field by exact Hfresh.
      destruct (decode_field f av lease) as [lease'|]; [|reflexivity].
      apply IH; assumption.
    + rewrite overlay_insert_other by exact Hf. apply IH; assumption.
Qed.

(** A tidy item decodes to the lease it stands for, whatever the order
    of the range. *)
Lemma decoded_tidy (o : RangeOrder) (item : Item) :
  tidy item -> decoded (T := T) o item = as_stored item.
Proof.
  intros Ht. unfold decoded, UnmarshalMap, as_stored.
  pose proof (range_perm o item) as Hperm.
  rewrite decodeMap_overlay.
  - f_equal. rewrite <- (list_to_map_to_list item) at 2.
    apply list_to_map_proper; [|exact Hperm].
    rewrite Hperm. apply NoDup_fst_map_to_list.
  - rewrite Hperm. apply NoDup_fst_map_to_list.
  - intros name av f Hin Hf. apply Ht; [|exact Hf].
    rewrite Hperm in Hin. apply elem_of_map_to_list in Hin. eauto.
Qed.

(** An attribute that is matched with a field and does not decode into it
    makes the decoder fail, wherever the range meets it. *)
Lemma decodeMap_fails (attrs : list (string * AttributeValue))
    (lease : Lease T) (k : string) (av : AttributeValue) (f : field) :
  (k, av) ∈ attrs ->
  fieldByName k = Some f ->
  (forall l0 : Lease T, decode_field f av l0 = None) ->
  decodeMap attrs lease = None.
Proof.
  intros Hin Hf Hfail. revert lease.
  induction attrs as [|[k' av'] attrs IH]; intros lease.
  - apply elem_of_nil in Hin. contradiction.
  - simpl. apply elem_of_cons in Hin as [Heq|Hin].
    + injection Heq as <- <-. rewrite Hf, Hfail. reflexivity.
    + destruct (fieldByName k') as [f'|]; [|apply IH, Hin].
      destruct (decode_field f' av' lease); [apply IH, Hin | reflexivity].
Qed.

Lemma decoded_fails (o : RangeOrder) (item : Item) (k : string)
    (av : AttributeValue) (f : field) :
  item !! k = Some av ->
  fieldByName k = Some f ->
  (forall l0 : Lease T, decode_field f av l0 = None) ->
  decoded (T := T) o item = None.
Proof.
  intros Hk Hf Hfail. unfold decoded, UnmarshalMap.
  apply (decodeMap_fails _ _ k av f); [|exact Hf|exact Hfail].
  rewrite (range_perm o item). apply elem_of_map_to_list, Hk.
Qed.

(** A record holding the key alone reads back as the lease [NewLease]
    makes. *)
Lemma decoded_bare (o : RangeOrder) (key : string) :
  decoded o ({[ LeaseKeyKey := AttrS key ]} : Item)
  = Some (NewLease key : Lease T).
Proof.
  rewrite decoded_tidy by apply (tidy_singleton FieldKey).
  unfold as_stored, overlay.
  rewrite lookup_singleton_eq.
  rewrite !lookup_singleton_ne by discriminate. reflexivity.
Qed.

End DecodingFacts.

(** ** [CreateLease] *)

Section CreateFacts.

Context {T : Type}.

Lemma CreateLease_unfold (c : Config) (l : Lease T) (w : World) :
  CreateLease c l w
  = call Some
      (db_PutItem (mkPutItemInput (LeaseTable c)
                     {[ LeaseKeyKey := AttrS (Key l) ]})) w.
Proof.
  unfold CreateLease, bind, ret, Client_PutItem.
  destruct (call _ _ w) as [[err w']|]; reflexivity.
Qed.

Lemma db_PutItem_lease (c : Config) (l : Lease T) (d : Database)
    (t : Table) :
  d !! LeaseTable c = Some t ->
  KeySchema t = LeaseKeyKey ->
  Key l <> "" ->
  db_PutItem (mkPutItemInput (LeaseTable c)
                {[ LeaseKeyKey := AttrS (Key l) ]}) d
  = (None,
     <[LeaseTable c :=
         mkTable (KeySchema t)
           (<[Key l := {[ LeaseKeyKey := AttrS (Key l) ]}]> (Items t))]> d).
Proof.
  intros Ht Hks Hk. unfold db_PutItem. simpl.
  rewrite Ht, (key_of_lease t (Key l) Hks Hk). reflexivity.
Qed.

End CreateFacts.

(** C1, as stated, fails: creating the key A, held by w2 at counter 5,
    succeeds and leaves a record without owner and without counter. *)
Lemma C1_counterexample :
  let w := Examples.world Examples.heldA [] in
  stored_owner Examples.cfg w "A" = Some (AttrS "w2")
  /\ stored_counter Examples.cfg w "A" = Some (AttrN 5)
  /\ exists w',
       CreateLease Examples.cfg (Examples.lease "A" "" 0) w = Some (None, w')
       /\ stored Examples.cfg w' "A" = Some (Examples.bare "A")
       /\ stored_owner Examples.cfg w' "A" = None
       /\ stored_counter Examples.cfg w' "A" = None.
Proof.
  intros w. split; [reflexivity|]. split; [reflexivity|].
  eexists; vm_compute; repeat split; reflexivity.
Qed.

(** C1, amended.  On a served table, when the call reaches the store,
    [CreateLease] succeeds whether or not the key is present and replaces
    whatever was stored under the key by a record holding the key alone:
    the record has no owner and no counter attribute any more and reads
    back as a lease without owner at counter 0.  The records of the other
    keys are untouched, and the call changes nothing when the record
    already held the key alone. *)
Theorem C1_create_replaces {T : Type} (c : Config) (l : Lease T)
    (w : World) (t : Table) :
  lease_table c w = Some t ->
  KeySchema t = LeaseKeyKey ->
  Key l <> "" ->
  hd None (network w) = None ->
  exists w',
    CreateLease c l w = Some (None, w')
    /\ stored c w' (Key l) = Some {[ LeaseKeyKey := AttrS (Key l) ]}
    /\ stored_owner c w' (Key l) = None
    /\ stored_counter c w' (Key l) = None
    /\ (forall o item, stored c w' (Key l) = Some item ->
                       decoded o item = Some (NewLease (Key l) : Lease T))
    /\ (forall k, k <> Key l -> stored c w' k = stored c w k)
    /\ (stored c w (Key l) = Some {[ LeaseKeyKey := AttrS (Key l) ]} ->
        db w' = db w).
Proof.
  intros Ht Hks Hk Hhd.
  rewrite CreateLease_unfold, (call_served _ w Hhd).
  rewrite (db_PutItem_lease c l (db w) t Ht Hks Hk). simpl.
  eexists. split; [reflexivity|].
  match goal with
  | |- context [served w ?d] =>
      destruct (stored_after_update c w (served w d) t (Key l)
                  {[ LeaseKeyKey := AttrS (Key l) ]} eq_refl) as [Hs Hother]
  end.
  unfold stored_owner, stored_counter. rewrite Hs.
  split; [reflexivity|].
  split; [apply lookup_singleton_ne; discriminate|].
  split; [apply lookup_singleton_ne; discriminate|].
  split; [intros o item Hitem; injection Hitem as <-; apply decoded_bare|].
  split; [intros k Hne; apply Hother; assumption|].
  intros Hbare. simpl. unfold stored in Hbare. rewrite Ht in Hbare.
  rewrite (insert_id (Items t) _ _ Hbare).
  destruct t as [ks items]. simpl. apply insert_id. exact Ht.
Qed.

(** C1 amended, on the record of A held by w2. *)
Lemma C1_create_replaces_witness :
  let w := Examples.world Examples.heldA [] in
  exists w',
    CreateLease Examples.cfg (Examples.lease "A" "" 0) w = Some (None, w')
    /\ stored Examples.cfg w' "A" = Some (Examples.bare "A")
    /\ stored_owner Examples.cfg w' "A" = None.
Proof.
  intros w.
  destruct (C1_create_replaces Examples.cfg (Examples.lease "A" "" 0) w
              (mkTable LeaseKeyKey (list_to_map Examples.heldA)))
    as (w' & Hrun & Hs & Ho & _).
  - reflexivity.
  - reflexivity.
  - discriminate.
  - reflexivity.
  - exists w'. split; [exact Hrun|]. split; [exact Hs | exact Ho].
Defined.

(** ** Retry caps *)

(** C7.  [CreateLease] makes one call and never retries: when the network
    drops the call, the error is returned at once, without a pause and
    without a second attempt. *)
Theorem C7_CreateLease_single_attempt {T : Type} (c : Config) (l : Lease T)
    (w : World) (e : error) :
  hd None (network w) = Some e ->
  CreateLease c l w = Some (Some e, dropped w)
  /\ calls (dropped w) = S (calls w)
  /\ slept (dropped w) = slept w
  /\ db (dropped w) = db w.
Proof.
  intros Hhd. rewrite CreateLease_unfold, (call_dropped _ w e Hhd).
  repeat split; reflexivity.
Qed.

(** C7: one timeout, after which the store would have answered. *)
Lemma C7_CreateLease_single_attempt_witness :
  let w := Examples.world [] [Some Examples.timeout] in
  exists w',
    CreateLease Examples.cfg (Examples.lease "A" "" 0) w
    = Some (Some Examples.timeout, w')
    /\ calls w' = 1%nat /\ slept w' = [] /\ network w' = []
    /\ stored Examples.cfg w' "A" = None.
Proof.
  intros w.
  destruct (C7_CreateLease_single_attempt Examples.cfg
              (Examples.lease "A" "" 0) w Examples.timeout eq_refl)
    as (Hrun & Hcalls & Hslept & Hdb).
  exists (dropped w). split; [exact Hrun|].
  repeat split; reflexivity.
Defined.

(** ** [ListLeases] *)

Lemma readings_length (t : Z) (ticks : list nat) (n : nat) :
  length (readings t ticks n) = n.
Proof.
  revert t ticks. induction n as [|n IH]; intros t ticks; simpl;
    [reflexivity | f_equal; apply IH].
Qed.

Section ListFacts.

Context {T : Type}.

Variable o : RangeOrder.

(** Decoding fills the three persisted fields only. *)
Lemma UnmarshalMap_frame (item : Item) (l0 l : Lease T) :
  UnmarshalMap o item l0 = Some l ->
  lastRenewal l = lastRenewal l0
  /\ concurrencyToken l = concurrencyToken l0
  /\ extrafields l = extrafields l0.
Proof. apply decodeMap_frame. Qed.

Lemma unstamped_stamped (l : Lease T) (t : Z) :
  lastRenewal l = 0 -> unstamped (with_lastRenewal l t) = l.
Proof. destruct l. simpl. intros ->. reflexivity. Qed.

(** The loop over the items: the records that decode, in order, each
    stamped with the reading of the clock taken as it is appended. *)
Lemma collect_spec (items : list Item) (acc : list (Lease T))
    (w : World) :
  exists found w',
    collect o items acc w = Some ((acc ++ found)%list, w')
    /\ map unstamped found = omap (decoded o) items
    /\ map lastRenewal found = readings (now w) (ticks w) (length found)
    /\ Forall (fun l => now w <= lastRenewal l <= now w') found
    /\ now w <= now w'
    /\ db w' = db w /\ network w' = network w /\ calls w' = calls w
    /\ attempt w' = attempt w /\ slept w' = slept w.
Proof.
  revert acc w. induction items as [|item items IH]; intros acc w.
  - exists [], w. simpl. unfold ret. rewrite app_nil_r.
    repeat split; first [reflexivity | constructor | lia].
  - simpl. unfold decoded at 1.
    destruct (UnmarshalMap o item zeroLease) as [l|] eqn:Hdec.
    + unfold bind, Now.
      set (t := now w + Z.of_nat (hd 0%nat (ticks w))).
      set (w1 := mkWorld (db w) (network w) (calls w) (attempt w) t
                         (tl (ticks w)) (slept w)).
      destruct (IH (acc ++ [with_lastRenewal l t])%list w1)
        as (found & w' & Hrun & Hmap & Hread & Hall & Hnow & Hrest).
      exists (with_lastRenewal l t :: found), w'.
      rewrite Hrun, <- app_assoc. simpl.
      assert (Ht : now w <= t) by (subst t; lia).
      split; [reflexivity|]. split.
      { rewrite Hmap. f_equal. apply unstamped_stamped.
        apply UnmarshalMap_frame in Hdec as [-> _]. reflexivity. }
      split.
      { fold t. rewrite Hread. reflexivity. }
      split.
      { constructor.
        - simpl. simpl in Hnow. lia.
        - eapply Forall_impl; [exact Hall|]. simpl. intros x Hx. lia. }
      split; [simpl in Hnow; lia|]. exact Hrest.
    + destruct (IH acc w) as (found & w' & Hrun & Hrest).
      exists found, w'. split; [exact Hrun | exact Hrest].
Qed.

(** One turn of the loop of [ListLeases]. *)
Lemma ListLeases_loop_step (fuel : nat) (c : Config)
    (acc : list (Lease T)) (err : option error) (w : World) :
  ListLeases_loop o (S fuel) c acc err w
  = if (attempt w <? maxScanRetries)%nat then
      match hd None (network w) with
      | Some e => ListLeases_loop o fuel c acc (Some e) (paused (dropped w))
      | None =>
          match lease_table c w with
          | None =>
              ListLeases_loop o fuel c acc
                (Some (RequestFailure ResourceNotFound))
                (paused (dropped w))
          | Some t =>
              match collect o (map snd (map_to_list (Items t))) acc
                            (dropped w) with
              | Some (leases, w') => Some ((leases, None), w')
              | None => None
              end
          end
      end
    else Some ((acc, err), w).
Proof.
  simpl. unfold bind, Backoff_Attempt.
  destruct (attempt w <? maxScanRetries)%nat; [|reflexivity].
  unfold Client_Scan, call, db_Scan, lease_table.
  destruct (network w) as [|[e|] rest] eqn:Hnet; simpl;
    try reflexivity;
    destruct (db w !! LeaseTable c) as [t|]; simpl;
    unfold dropped; rewrite ?Hnet; simpl;
    try reflexivity;
    destruct (collect _ _ _ _) as [[leases w']|]; reflexivity.
Qed.

(** The loop returns; when it returns without error after at least one
    turn, it has scanned the lease table and collected its items. *)
Lemma ListLeases_loop_spec (fuel : nat) (c : Config) (err : option error)
    (w : World) :
  (maxScanRetries - attempt w < fuel)%nat ->
  exists r w',
    ListLeases_loop (T := T) o fuel c [] err w = Some (r, w')
    /\ now w <= now w' /\ db w' = db w
    /\ (calls w' <= calls w + (maxScanRetries - attempt w))%nat
    /\ (snd r = None ->
        (err = None /\ (maxScanRetries <= attempt w)%nat)
        \/ exists t,
             lease_table c w = Some t
             /\ map unstamped (fst r)
                = omap (decoded o) (map snd (map_to_list (Items t)))
             /\ map lastRenewal (fst r)
                = readings (now w) (ticks w) (length (fst r))
             /\ Forall (fun l => now w <= lastRenewal l <= now w')
                       (fst r)).
Proof.
  revert err w. induction fuel as [|fuel IH]; intros err w Hfuel; [lia|].
  rewrite ListLeases_loop_step.
  destruct (attempt w <? maxScanRetries)%nat eqn:Hlt.
  - apply Nat.ltb_lt in Hlt. unfold maxScanRetries in *.
    assert (Hretry : forall e,
      exists r w',
        ListLeases_loop (T := T) o fuel c [] (Some e) (paused (dropped w))
        = Some (r, w')
        /\ now w <= now w' /\ db w' = db w
        /\ (calls w' <= calls w + (maxScanRetries - attempt w))%nat
        /\ (snd r = None ->
            (err = None /\ (maxScanRetries <= attempt w)%nat)
            \/ exists t,
                 lease_table c w = Some t
                 /\ map unstamped (fst r)
                    = omap (decoded o) (map snd (map_to_list (Items t)))
                 /\ map lastRenewal (fst r)
                    = readings (now w) (ticks w) (length (fst r))
                 /\ Forall (fun l => now w <= lastRenewal l <= now w')
                           (fst r))).
    { intros e.
      destruct (IH (Some e) (paused (dropped w)))
        as (r & w' & Hrun & Hnow & Hdb & Hcalls & Hok); [simpl; lia|].
      exists r, w'. simpl in Hnow, Hdb, Hcalls.
      split; [exact Hrun|]. split; [exact Hnow|]. split; [exact Hdb|].
      split; [unfold maxScanRetries; lia|].
      intros Hnone. right.
      destruct (Hok Hnone) as [[Hno _]|Hyes]; [discriminate | exact Hyes]. }
    destruct (hd None (network w)) as [e|]; [apply Hretry|].
    destruct (lease_table c w) as [t|] eqn:Ht; [|apply Hretry].
    destruct (collect_spec (map snd (map_to_list (Items t))) [] (dropped w))
      as (found & w' & Hrun & Hmap & Hread & Hall & Hnow & Hdb & _ & Hcalls
          & _).
    rewrite Hrun. simpl in Hnow, Hdb, Hcalls, Hall, Hread.
    exists (found, None), w'.
    split; [reflexivity|]. split; [exact Hnow|]. split; [exact Hdb|].
    split; [rewrite Hcalls; lia|].
    intros _. right. exists t. simpl. auto.
  - apply Nat.ltb_ge in Hlt. unfold maxScanRetries in *.
    exists ([], err), w.
    split; [reflexivity|]. split; [lia|]. split; [reflexivity|].
    split; [lia|]. simpl. intros ->. left. auto.
Qed.

Lemma ListLeases_unfold (c : Config) (w : World) :
  ListLeases o c w
  = match ListLeases_loop (T := T) o (fuel_for maxScanRetries) c [] None w
    with
    | Some (r, w1) => Some (r, rested w1)
    | None => None
    end.
Proof.
  unfold ListLeases, bind.
  destruct (ListLeases_loop _ _ _ _ _ _) as [[r w1]|]; reflexivity.
Qed.

(** [ListLeases] returns, after at most [maxScanRetries] scans. *)
Lemma ListLeases_total (c : Config) (w : World) :
  exists (r : list (Lease T) * option error) w',
    ListLeases o c w = Some (r, w')
    /\ (calls w' <= calls w + maxScanRetries)%nat.
Proof.
  rewrite ListLeases_unfold.
  destruct (ListLeases_loop_spec (fuel_for maxScanRetries) c None w)
    as (r & w1 & -> & _ & _ & Hcalls & _); [unfold fuel_for; lia|].
  exists r, (rested w1). split; [reflexivity|]. simpl. lia.
Qed.

(** A scan that reaches a served table succeeds. *)
Lemma ListLeases_served (c : Config) (w : World) (t : Table) :
  idle w ->
  lease_table c w = Some t ->
  hd None (network w) = None ->
  exists (leases : list (Lease T)) w',
    ListLeases o c w = Some ((leases, None), w').
Proof.
  intros Hidle Ht Hhd. rewrite ListLeases_unfold.
  unfold fuel_for. rewrite ListLeases_loop_step.
  rewrite Hidle. simpl. rewrite Hhd, Ht.
  destruct (collect_spec (map snd (map_to_list (Items t)))
              ([] : list (Lease T)) (dropped w)) as (found & w' & -> & _).
  eauto.
Qed.

(** A successful listing, from the loop. *)
Lemma ListLeases_succeeded (c : Config) (w : World)
    (leases : list (Lease T)) (w' : World) :
  idle w ->
  ListLeases o c w = Some ((leases, None), w') ->
  exists t,
    lease_table c w = Some t
    /\ map unstamped leases
       = omap (decoded o) (map snd (map_to_list (Items t)))
    /\ map lastRenewal leases = readings (now w) (ticks w) (length leases)
    /\ Forall (fun l => now w <= lastRenewal l <= now w') leases.
Proof.
  intros Hidle H. rewrite ListLeases_unfold in H.
  destruct (ListLeases_loop_spec (fuel_for maxScanRetries) c None w)
    as (r & w1 & Hrun & _ & _ & _ & Hok); [unfold fuel_for; lia|].
  rewrite Hrun in H. injection H as -> <-.
  destruct (Hok eq_refl) as [[_ Hcap]|(t & Ht & Hmap & Hread & Hall)].
  { unfold idle in Hidle. unfold maxScanRetries in Hcap. lia. }
  exists t. auto.
Qed.

End ListFacts.

(** A counter that does not fit Go's [int], and a caller's attribute that
    the decoder takes for the counter, make a record undecodable in every
    order of the range. *)
Example undecodable_records {T : Type} (o : RangeOrder) :
  decoded (T := T) o (Examples.record "A" "w2" (2 ^ 63)) = None
  /\ decoded (T := T) o
       (<["LEASECOUNTER" := AttrS "n/a"]> (Examples.record "A" "w2" 5))
     = None.
Proof.
  split.
  - apply (decoded_fails o _ LeaseCounterKey (AttrN (2 ^ 63)) FieldCounter);
      reflexivity.
  - apply (decoded_fails o _ "LEASECOUNTER" (AttrS "n/a") FieldCounter);
      reflexivity.
Qed.

(** A caller's attribute that the decoder takes for the key: the key of
    the lease depends on the order of the range. *)
Example stray_key_follows_the_range :
  let item : Item := <["LeaseKey" := AttrS "B"]> (Examples.record "A" "w2" 5) in
  decoded map_order item = Some (Examples.lease "B" "w2" 5)
  /\ decoded reverse_order item = Some (Examples.lease "A" "w2" 5).
Proof. split; vm_compute; reflexivity. Qed.

(** C8, as stated, fails: a record whose counter is an integer beyond
    Go's [int], and a record with a caller's attribute named
    LEASECOUNTER, do not decode, and a successful listing leaves them
    out. *)
Lemma C8_counterexample :
  let big : Item := Examples.record "A" "w2" (2 ^ 63) in
  let stray : Item :=
    <["LEASECOUNTER" := AttrS "n/a"]> (Examples.record "A" "w2" 5) in
  stored Examples.cfg (Examples.world [("A", big)] []) "A" = Some big
  /\ (exists w',
        ListLeases (T := unit) map_order Examples.cfg
          (Examples.world [("A", big)] [])
        = Some (([], None), w'))
  /\ stored Examples.cfg (Examples.world [("A", stray)] []) "A" = Some stray
  /\ (exists w',
        ListLeases (T := unit) map_order Examples.cfg
          (Examples.world [("A", stray)] [])
        = Some (([], None), w')).
Proof.
  intros big stray. split; [reflexivity|].
  split; [eexists; vm_compute; reflexivity|].
  split; [reflexivity|].
  eexists. vm_compute. reflexivity.
Qed.

(** C8, amended.  A successful [ListLeases] returns, in the order of the
    scan, one lease for every scanned record that the decoder accepts and
    skips the records it rejects.  A record that is tidy (no attribute
    other than [leaseKey], [leaseOwner] and [leaseCounter] passes for one
    of them) and whose three attributes decode is returned with the key,
    owner and counter it stores, whatever the order of the range.  The
    leases are stamped with the successive readings of the clock, the
    first lease with the first reading taken after the scan. *)
Theorem C8_ListLeases_decodable {T : Type} (o : RangeOrder) (c : Config)
    (w : World) (leases : list (Lease T)) (w' : World) :
  idle w ->
  ListLeases o c w = Some ((leases, None), w') ->
  exists t,
    lease_table c w = Some t
    /\ map unstamped leases
       = omap (decoded o) (map snd (map_to_list (Items t)))
    /\ (forall k item l,
          Items t !! k = Some item -> tidy item -> as_stored item = Some l ->
          exists l', l' ∈ leases /\ unstamped l' = l)
    /\ map lastRenewal leases = readings (now w) (ticks w) (length leases)
    /\ db w' = db w.
Proof.
  intros Hidle H.
  destruct (ListLeases_succeeded o c w leases w' Hidle H)
    as (t & Ht & Hmap & Hread & _).
  exists t.
  split; [exact Ht|]. split; [exact Hmap|]. split; [|split; [exact Hread|]].
  - intros k item l Hitem Htidy Hdec.
    assert (Hin : l ∈ map unstamped leases).
    { rewrite Hmap. apply list_elem_of_omap. exists item.
      split; [|rewrite decoded_tidy by exact Htidy; exact Hdec].
      apply list_elem_of_fmap. exists (k, item). split; [reflexivity|].
      apply elem_of_map_to_list. exact Hitem. }
    apply list_elem_of_fmap in Hin as (l' & -> & Hl'). eauto.
  - rewrite ListLeases_unfold in H.
    destruct (ListLeases_loop_spec (T := T) o (fuel_for maxScanRetries) c
                None w) as (r & w1 & Hrun & _ & Hdb & _);
      [unfold fuel_for; lia|].
    rewrite Hrun in H. injection H as _ <-. exact Hdb.
Qed.

(** C8 amended, on the record of A held by w2 at counter 5, with the
    clock advancing by 7 at its next reading. *)
Lemma C8_ListLeases_decodable_witness :
  let w := mkWorld (Examples.tables Examples.heldA) [] 0 0 1000 [7%nat] [] in
  exists w',
    ListLeases map_order Examples.cfg w
    = Some (([mkLease "A" "w2" 5 1007 "" None : Lease unit], None), w')
    /\ map lastRenewal [mkLease "A" "w2" 5 1007 "" None : Lease unit]
       = readings (now w) (ticks w) 1
    /\ db w' = db w.
Proof.
  intros w.
  assert (Hrun : exists w',
            ListLeases map_order Examples.cfg w
            = Some (([mkLease "A" "w2" 5 1007 "" None : Lease unit], None),
                    w')).
  { eexists. vm_compute. reflexivity. }
  destruct Hrun as [w' Hrun]. exists w'. split; [exact Hrun|].
  destruct (C8_ListLeases_decodable map_order Examples.cfg w _ w' eq_refl
              Hrun) as (t & _ & _ & _ & Hread & Hdb).
  split; [exact Hread | exact Hdb].
Defined.

(** ** Retry caps of the other operations *)

Section Caps.

Variable cap : nat.
Variable req : Database -> option error * Database.

(** The loop makes at most as many calls as the cap leaves. *)
Lemma attempts_calls (fuel : nat) (err : option error) (w w' : World) r :
  attempts fuel cap req err w = Some (r, w') ->
  (calls w <= calls w' <= calls w + (cap - attempt w))%nat.
Proof.
  revert err w. induction fuel as [|fuel IH]; intros err w H;
    [discriminate|].
  rewrite attempts_step in H.
  destruct (attempt w <? cap)%nat eqn:Hlt.
  - apply Nat.ltb_lt in Hlt.
    destruct (hd None (network w)) as [e|] eqn:Hhd.
    + rewrite (call_dropped req w e Hhd) in H.
      apply IH in H. simpl in H. lia.
    + rewrite (call_served req w Hhd) in H.
      destruct (fst (req (db w))) as [e|].
      * apply IH in H. simpl in H. lia.
      * injection H as _ <-. simpl. lia.
  - injection H as _ <-. lia.
Qed.

End Caps.

(** Renew, take, evict and delete give up after [maxUpdateRetries] and
    [maxDeleteRetries] calls. *)
Lemma update_delete_caps {T : Type} (c : Config) (u l : Lease T)
    (w w' : World) r :
  (updateLease c u l w = Some (r, w') ->
   (calls w' <= calls w + maxUpdateRetries)%nat)
  /\ (DeleteLease c l w = Some (r, w') ->
      (calls w' <= calls w + maxDeleteRetries)%nat).
Proof.
  rewrite updateLease_unfold, DeleteLease_unfold.
  split; intros H;
    destruct (attempts _ _ _ _ _) as [[err w1]|] eqn:Hrun;
    try discriminate; injection H as _ <-;
    apply attempts_calls in Hrun; simpl; lia.
Qed.

(** Every operation that touches the backoff leaves it at rest, and
    [CreateLease] does not touch it. *)
Lemma operations_rest {T : Type} (o : RangeOrder) (c : Config)
    (u l : Lease T) (w w' : World) :
  (forall r, updateLease c u l w = Some (r, w') -> idle w')
  /\ (forall r, DeleteLease c l w = Some (r, w') -> idle w')
  /\ (forall r, ListLeases (T := T) o c w = Some (r, w') -> idle w')
  /\ (forall r, CreateLease c l w = Some (r, w') -> attempt w' = attempt w).
Proof.
  rewrite updateLease_unfold, DeleteLease_unfold, ListLeases_unfold,
    CreateLease_unfold.
  repeat split; intros r H.
  - destruct (attempts _ _ _ _ _) as [[err w1]|]; [|discriminate].
    injection H as _ <-. reflexivity.
  - destruct (attempts _ _ _ _ _) as [[err w1]|]; [|discriminate].
    injection H as _ <-. reflexivity.
  - destruct (ListLeases_loop _ _ _ _ _ _) as [[r1 w1]|]; [|discriminate].
    injection H as _ <-. reflexivity.
  - unfold call in H.
    destruct (network w) as [|[e|] rest];
      try destruct (db_PutItem _ _); injection H as _ <-; reflexivity.
Qed.

(** Three timeouts exhaust [ListLeases] and [CreateLeaseTable]; two
    exhaust a renewal and a delete; one is enough for [CreateLease]. *)
Example timeouts_exhaust :
  let net := [Some Examples.timeout; Some Examples.timeout;
              Some Examples.timeout; Some Examples.timeout] in
  let w := Examples.world Examples.heldA net in
  let l := Examples.lease "A" "w2" 5 in
  (exists w', ListLeases (T := unit) map_order Examples.cfg w
              = Some (([], Some Examples.timeout), w')
              /\ calls w' = 3%nat /\ slept w' = [2; 1; 0]%nat)
  /\ (exists w', CreateLeaseTable Examples.cfg w
                 = Some (Some Examples.timeout, w')
                 /\ calls w' = 3%nat /\ slept w' = [2; 1; 0]%nat)
  /\ (exists w', RenewLease Examples.cfg l w
                 = Some ((Some Examples.timeout, l), w')
                 /\ calls w' = 2%nat /\ slept w' = [1; 0]%nat)
  /\ (exists w', DeleteLease Examples.cfg l w
                 = Some (Some Examples.timeout, w')
                 /\ calls w' = 2%nat /\ slept w' = [1; 0]%nat)
  /\ (exists w', CreateLease Examples.cfg l w
                 = Some (Some Examples.timeout, w')
                 /\ calls w' = 1%nat /\ slept w' = []).
Proof.
  intros net w l.
  repeat split; eexists; vm_compute; repeat split; reflexivity.
Qed.

(** [CreateLeaseTable] folds "already exists" into success at once, and
    creates the table keyed by [leaseKey] when there is none. *)
Example CreateLeaseTable_idempotent :
  (exists w', CreateLeaseTable Examples.cfg (Examples.world [] [])
              = Some (None, w')
              /\ calls w' = 1%nat
              /\ db w' = db (Examples.world [] []))
  /\ (exists w',
        CreateLeaseTable Examples.cfg (mkWorld ∅ [] 0 0 0 [] [])
        = Some (None, w')
        /\ serving Examples.cfg w').
Proof.
  split; eexists; (split; [vm_compute; reflexivity|]).
  - split; reflexivity.
  - eexists. split; reflexivity.
Qed.

(** A retried write goes through when only the first call is lost. *)
Example take_after_one_timeout :
  let w := Examples.world [("B", Examples.bare "B")]
                          [Some Examples.timeout] in
  exists w',
    TakeLease Examples.cfg (Examples.lease "B" "" 0) w
    = Some ((None, Examples.lease "B" "w1" 1), w')
    /\ calls w' = 2%nat /\ slept w' = [0%nat].
Proof.
  intros w. eexists. vm_compute. repeat split; reflexivity.
Qed.

(** A record as [CreateLease] leaves it cannot be deleted through the
    lease it lists as: its owner and counter attributes are missing, and a
    comparison with a missing attribute is false. *)
Example bare_record_not_deletable :
  let w := Examples.world [("B", Examples.bare "B")] [] in
  exists w1 w2,
    ListLeases (T := unit) map_order Examples.cfg w
    = Some (([mkLease "B" "" 0 1000 "" None], None), w1)
    /\ DeleteLease Examples.cfg (mkLease "B" "" 0 1000 "" None : Lease unit)
                   w1
       = Some (Some (RequestFailure ConditionalCheckFailed), w2)
    /\ stored Examples.cfg w2 "B" = Some (Examples.bare "B").
Proof.
  intros w. do 2 eexists.
  split; [vm_compute; reflexivity|].
  split; vm_compute; reflexivity.
Qed.

(** The evict-then-take scenario: w1 renews A to counter 5, the lease is
    evicted at counter 5, w1's next renewal is refused, and a take of the
    evicted lease stores counter 6. *)
Example evict_then_take_scenario :
  let w := Examples.world Examples.heldA [] in
  let held := Examples.lease "A" "w2" 5 in
  exists w1 w2 w3,
    EvictLease Examples.cfg held w
    = Some ((None, Examples.lease "A" "NULL" 5), w1)
    /\ stored Examples.cfg w1 "A" = Some (Examples.record "A" "NULL" 5)
    /\ RenewLease Examples.cfg held w1
       = Some ((Some (RequestFailure ConditionalCheckFailed), held), w2)
    /\ TakeLease Examples.cfg (Examples.lease "A" "NULL" 5) w2
       = Some ((None, Examples.lease "A" "w1" 6), w3)
    /\ stored Examples.cfg w3 "A" = Some (Examples.record "A" "w1" 6).
Proof.
  intros w held. do 3 eexists.
  split; [vm_compute; reflexivity|].
  split; [vm_compute; reflexivity|].
  split; [vm_compute; reflexivity|].
  split; vm_compute; reflexivity.
Qed.

(** ** What the operations maintain *)

Example updateExpression_text_value :
  updateExpression_text = "SET leaseOwner = :owner, leaseCounter = :count".
Proof. reflexivity. Qed.

Section Invariant.

Variable cap : nat.
Variable req : Database -> option error * Database.
Variable P : Database -> Prop.

Hypothesis req_keeps : forall d, P d -> P (snd (req d)).

(** What every request keeps, the retry loop keeps. *)
Lemma attempts_keeps (fuel : nat) (err : option error) (w w' : World) r :
  attempts fuel cap req err w = Some (r, w') -> P (db w) -> P (db w').
Proof.
  revert err w. induction fuel as [|fuel IH]; intros err w H HP;
    [discriminate|].
  rewrite attempts_step in H.
  destruct (attempt w <? cap)%nat.
  - destruct (hd None (network w)) as [e|] eqn:Hhd.
    + rewrite (call_dropped req w e Hhd) in H.
      apply IH in H; [exact H | exact HP].
    + rewrite (call_served req w Hhd) in H.
      destruct (fst (req (db w))) as [e|].
      * apply IH in H; [exact H|]. simpl. apply req_keeps, HP.
      * injection H as _ <-. simpl. apply req_keeps, HP.
  - injection H as _ <-. exact HP.
Qed.

End Invariant.

Lemma sound_insert (c : Config) (d : Database) (t : Table) (k : string)
    (item : Item) :
  d !! LeaseTable c = Some t ->
  KeySchema t = LeaseKeyKey ->
  well_keyed t ->
  item !! LeaseKeyKey = Some (AttrS k) ->
  sound c (<[LeaseTable c := mkTable (KeySchema t) (<[k := item]> (Items t))]>
             d).
Proof.
  intros Ht Hks Hwk Hitem. eexists. rewrite lookup_insert_eq.
  split; [reflexivity|]. split; [exact Hks|].
  intros k' item' H. simpl in *.
  apply lookup_insert_Some in H as [[<- <-]|[_ H]].
  - rewrite Hks. exact Hitem.
  - apply Hwk, H.
Qed.

Section Soundness.

Context {T : Type}.

Lemma db_UpdateItem_sound (c : Config) (u l : Lease T) (d : Database) :
  sound c d ->
  sound c (snd (db_UpdateItem (conditioned (updateInput c u) l) d)).
Proof.
  intros (t & Ht & Hks & Hwk).
  destruct (decide (Key u = "")) as [Hempty|Hk].
  - unfold db_UpdateItem.
    destruct (conditioned_frame c u l) as (-> & -> & _).
    rewrite Ht. unfold key_of. rewrite Hks, lookup_singleton_eq.
    rewrite bool_decide_eq_true_2 by exact Hempty. simpl.
    exists t. auto.
  - rewrite (db_UpdateItem_conditioned c u l d t Ht Hks Hk).
    destruct (guards l (Items t !! Key u)); simpl; [|exists t; auto].
    apply sound_insert; try assumption.
    unfold updated. rewrite !lookup_insert_ne by discriminate.
    destruct (Items t !! Key u) as [item|] eqn:Hitem; simpl.
    + apply Hwk in Hitem. rewrite Hks in Hitem. exact Hitem.
    + apply lookup_singleton_eq.
Qed.

Lemma db_DeleteItem_sound (c : Config) (l : Lease T) (d : Database) :
  sound c d -> sound c (snd (db_DeleteItem (deleteInput c l) d)).
Proof.
  intros (t & Ht & Hks & Hwk).
  destruct (decide (Key l = "")) as [Hempty|Hk].
  - unfold db_DeleteItem.
    change (di_TableName (deleteInput c l)) with (LeaseTable c).
    change (di_Key (deleteInput c l))
      with ({[ LeaseKeyKey := AttrS (Key l) ]} : Item).
    rewrite Ht. unfold key_of. rewrite Hks, lookup_singleton_eq.
    rewrite bool_decide_eq_true_2 by exact Hempty. simpl.
    exists t. auto.
  - rewrite (db_DeleteItem_lease c l d t Ht Hks Hk).
    destruct (deletable l (Items t !! Key l)); simpl; [|exists t; auto].
    eexists. rewrite lookup_insert_eq.
    split; [reflexivity|]. split; [exact Hks|].
    intros k' item' H. simpl in *.
    apply lookup_delete_Some in H as [_ H]. apply Hwk, H.
Qed.

(** The lease table stays served, keyed by [leaseKey], with every record
    under its own key, through every write of the manager. *)
Lemma operations_sound (c : Config) (u l : Lease T) (w w' : World) :
  sound c (db w) ->
  (forall r, updateLease c u l w = Some (r, w') -> sound c (db w'))
  /\ (forall r, DeleteLease c l w = Some (r, w') -> sound c (db w'))
  /\ (forall r, CreateLease c l w = Some (r, w') -> sound c (db w')).
Proof.
  intros Hs.
  rewrite updateLease_unfold, DeleteLease_unfold, CreateLease_unfold.
  repeat split; intros r H.
  - destruct (attempts _ _ _ _ _) as [[err w1]|] eqn:Hrun; [|discriminate].
    injection H as _ <-. simpl.
    eapply attempts_keeps; [|exact Hrun|exact Hs].
    intros d Hd. apply db_UpdateItem_sound, Hd.
  - destruct (attempts _ _ _ _ _) as [[err w1]|] eqn:Hrun; [|discriminate].
    injection H as _ <-. simpl.
    eapply attempts_keeps; [|exact Hrun|exact Hs].
    intros d Hd. apply db_DeleteItem_sound, Hd.
  - destruct (hd None (network w)) as [e|] eqn:Hhd.
    + rewrite (call_dropped _ w e Hhd) in H. injection H as _ <-. exact Hs.
    + rewrite (call_served _ w Hhd) in H. injection H as _ <-. simpl.
      destruct Hs as (t & Ht & Hks & Hwk).
      destruct (decide (Key l = "")) as [Hempty|Hk].
      * unfold db_PutItem. simpl. rewrite Ht. unfold key_of.
        rewrite Hks, lookup_singleton_eq.
        rewrite bool_decide_eq_true_2 by exact Hempty. simpl.
        exists t. auto.
      * rewrite (db_PutItem_lease c l (db w) t Ht Hks Hk). simpl.
        apply sound_insert; try assumption. apply lookup_singleton_eq.
Qed.

End Soundness.

(** [CreateLeaseTable] returns. *)
Lemma CreateLeaseTable_total (c : Config) (w : World) :
  exists r w', CreateLeaseTable c w = Some (r, w').
Proof.
  unfold CreateLeaseTable, bind.
  assert (H : forall fuel err w,
            (maxCreateRetries - attempt w < fuel)%nat ->
            exists r w', CreateLeaseTable_loop fuel c err w = Some (r, w')).
  { clear w. induction fuel as [|fuel IH]; intros err w Hfuel; [lia|].
    simpl. unfold bind, Backoff_Attempt.
    destruct (attempt w <? maxCreateRetries)%nat eqn:Hlt;
      [|unfold ret; eauto].
    apply Nat.ltb_lt in Hlt. unfold Client_CreateTable.
    unfold maxCreateRetries in Hfuel, Hlt, IH.
    destruct (hd None (network w)) as [e|] eqn:Hhd.
    - rewrite (call_dropped _ w e Hhd).
      destruct (has_code e AlreadyExist); [unfold ret; eauto|].
      apply IH. simpl. lia.
    - rewrite (call_served _ w Hhd).
      destruct (fst (db_CreateTable _ (db w))) as [e|];
        [|unfold ret; eauto].
      destruct (has_code e AlreadyExist); [unfold ret; eauto|].
      apply IH. simpl. lia. }
  destruct (H (fuel_for maxCreateRetries) None w) as (r & w1 & ->);
    [unfold fuel_for; lia|].
  simpl. eauto.
Qed.

(** * Further properties of the package *)

(** ** Extras and ownership of a lease *)

(** X1.  [Set(k, v)] leaves what [Get] returns for every other key as it
    was, and touches none of the named fields of the lease. *)
Theorem Set_leaves_the_rest {T : Type} (l : Lease T) (k k' : string)
    (v : interface T) :
  k <> k' ->
  Get (Set_ l k v) k' = Get l k'
  /\ Key (Set_ l k v) = Key l /\ Owner (Set_ l k v) = Owner l
  /\ Counter (Set_ l k v) = Counter l
  /\ lastRenewal (Set_ l k v) = lastRenewal l
  /\ concurrencyToken (Set_ l k v) = concurrencyToken l.
Proof.
  intros Hne. split; [apply Get_Set_other, Hne | apply Set_frame].
Qed.

Lemma Set_leaves_the_rest_witness :
  let l := Set_ (Examples.lease "A" "w2" 5) "shard" (iface_val tt) in
  Get (Set_ l "region" iface_nil) "shard" = (iface_val tt, true)
  /\ Get (Set_ l "region" iface_nil) "region" = (iface_nil, true).
Proof.
  intros l.
  destruct (Set_leaves_the_rest l "region" "shard" iface_nil) as [Hget _];
    [discriminate|].
  split; [rewrite Hget; reflexivity | reflexivity].
Defined.

(** X2.  After a successful [EvictLease] the caller's lease has no owner;
    after a successful [TakeLease] it has one unless the worker's id is
    itself "NULL" or empty; a successful [RenewLease] does not change
    whether it has one. *)
Theorem hasNoOwner_after {T : Type} (c : Config) (l : Lease T) (w : World) :
  (forall l' w',
     EvictLease c l w = Some ((None, l'), w') -> hasNoOwner l' = true)
  /\ (forall l' w',
        TakeLease c l w = Some ((None, l'), w') ->
        hasNoOwner l'
        = bool_decide (WorkerId c = "NULL") || bool_decide (WorkerId c = ""))
  /\ (forall l' w',
        RenewLease c l w = Some ((None, l'), w') ->
        hasNoOwner l' = hasNoOwner l).
Proof.
  rewrite EvictLease_unfold, TakeLease_unfold, RenewLease_unfold.
  repeat split; intros l' w' H;
    destruct (updateLease _ _ _ _) as [[[e|] w1]|]; try discriminate;
    injection H as <- _; reflexivity.
Qed.

Lemma hasNoOwner_after_witness :
  let w := Examples.world Examples.heldA [] in
  exists l' w',
    EvictLease Examples.cfg (Examples.lease "A" "w2" 5) w
    = Some ((None, l'), w')
    /\ hasNoOwner l' = true.
Proof.
  intros w.
  destruct (operations_total Examples.cfg (Examples.lease "A" "w2" 5) w)
    as (_ & _ & (r & w' & Hev)).
  assert (Hr : fst r = None) by (vm_compute in Hev; injection Hev as <- _;
                                 reflexivity).
  destruct r as [err l']. simpl in Hr. subst err.
  exists l', w'. split; [exact Hev|].
  exact (proj1 (hasNoOwner_after Examples.cfg _ w) l' w' Hev).
Defined.

(** ** Errors *)

(** X3.  Whatever error [RenewLease], [TakeLease] or [EvictLease] returns,
    the caller's lease is handed back exactly as it was passed in, in
    every field, and the backoff is at rest again. *)
Theorem error_hands_back_the_lease {T : Type} (c : Config) (l : Lease T)
    (w : World) :
  (forall e l' w',
     RenewLease c l w = Some ((Some e, l'), w') -> l' = l /\ idle w')
  /\ (forall e l' w',
        TakeLease c l w = Some ((Some e, l'), w') -> l' = l /\ idle w')
  /\ (forall e l' w',
        EvictLease c l w = Some ((Some e, l'), w') -> l' = l /\ idle w').
Proof.
  rewrite RenewLease_unfold, TakeLease_unfold, EvictLease_unfold.
  repeat split.
  all: destruct (updateLease _ _ _ _) as [[[e0|] w1]|] eqn:Hrun;
         try discriminate; injection H as _ <- <-;
         try reflexivity; apply updateLease_failed in Hrun; apply Hrun.
Qed.

Lemma error_hands_back_the_lease_witness :
  let w := Examples.world Examples.heldA [Some Examples.timeout; None] in
  let l := Examples.lease "A" "w9" 5 in
  exists e l' w',
    TakeLease Examples.cfg l w = Some ((Some e, l'), w')
    /\ l' = l /\ idle w'.
Proof.
  intros w l.
  destruct (operations_total Examples.cfg l w) as (_ & (r & w' & Htk) & _).
  assert (Hr : exists e, fst r = Some e).
  { vm_compute in Htk. injection Htk as <- _. eexists. reflexivity. }
  destruct r as [err l']. destruct Hr as [e He]. simpl in He. subst err.
  exists e, l', w'. split; [exact Htk|].
  destruct (error_hands_back_the_lease Examples.cfg l w) as (_ & Htake & _).
  exact (Htake e l' w' Htk).
Defined.

(** X4.  When the shared backoff counter has already reached the cap as
    an operation starts, the operation calls the store not at all and
    still reports success: a renew, take or evict hands back the lease as
    if it had been written, a delete returns nil, and a listing returns
    no lease and no error. *)
Theorem spent_backoff_skips_the_store {T : Type} (o : RangeOrder)
    (c : Config) (l : Lease T) (w : World) :
  ((maxUpdateRetries <= attempt w)%nat ->
   RenewLease c l w = Some ((None, renewed l), rested w)
   /\ TakeLease c l w = Some ((None, taken c l), rested w)
   /\ EvictLease c l w = Some ((None, evicted l), rested w)
   /\ DeleteLease c l w = Some (None, rested w))
  /\ ((maxScanRetries <= attempt w)%nat ->
      ListLeases (T := T) o c w = Some (([], None), rested w)
      /\ CreateLeaseTable c w = Some (None, rested w))
  /\ calls (rested w) = calls w /\ db (rested w) = db w.
Proof.
  split; [|split; [|split; reflexivity]].
  - intros Hcap.
    assert (Hltb : (attempt w <? 2)%nat = false)
      by (apply Nat.ltb_ge; exact Hcap).
    rewrite RenewLease_unfold, TakeLease_unfold, EvictLease_unfold,
      DeleteLease_unfold, !updateLease_unfold.
    unfold fuel_for. rewrite !attempts_step.
    unfold maxUpdateRetries, maxDeleteRetries. rewrite Hltb. auto.
  - intros Hcap.
    assert (Hltb : (attempt w <? 3)%nat = false)
      by (apply Nat.ltb_ge; exact Hcap).
    rewrite ListLeases_unfold. unfold fuel_for.
    rewrite ListLeases_loop_step.
    unfold CreateLeaseTable, fuel_for. simpl.
    unfold bind, Backoff_Attempt, maxScanRetries, maxCreateRetries.
    rewrite Hltb. auto.
Qed.

Lemma spent_backoff_skips_the_store_witness :
  let w := mkWorld (Examples.tables Examples.heldA) [] 0 3 1000 [] [] in
  let l := Examples.lease "A" "w7" 9 in
  RenewLease Examples.cfg l w
  = Some ((None, Examples.lease "A" "w7" 10), rested w)
  /\ stored_counter Examples.cfg (rested w) "A" = Some (AttrN 5)
  /\ ListLeases (T := unit) map_order Examples.cfg w
     = Some (([], None), rested w).
Proof.
  intros w l.
  destruct (spent_backoff_skips_the_store map_order Examples.cfg l w)
    as (Hupdate & Hscan & _).
  destruct Hupdate as (Hrenew & _); [vm_compute; lia|].
  destruct Hscan as (Hlist & _); [vm_compute; lia|].
  split; [exact Hrenew|]. split; [reflexivity | exact Hlist].
Defined.

(** ** [CreateLeaseTable] and the retry caps *)

Lemma CreateLeaseTable_loop_step (fuel : nat) (c : Config)
    (err : option error) (w : World) :
  CreateLeaseTable_loop (S fuel) c err w
  = if (attempt w <? maxCreateRetries)%nat then
      match hd None (network w) with
      | Some e =>
          if has_code e AlreadyExist then Some (None, dropped w)
          else CreateLeaseTable_loop fuel c (Some e) (paused (dropped w))
      | None =>
          match lease_table c w with
          | Some _ => Some (None, dropped w)
          | None =>
              Some (None,
                    served w (<[LeaseTable c := mkTable LeaseKeyKey ∅]>
                                (db w)))
          end
      end
    else Some (err, w).
Proof.
  simpl. unfold bind, Backoff_Attempt.
  destruct (attempt w <? maxCreateRetries)%nat; [|reflexivity].
  unfold Client_CreateTable.
  destruct (hd None (network w)) as [e|] eqn:Hhd.
  - rewrite (call_dropped _ w e Hhd).
    destruct (has_code e AlreadyExist); reflexivity.
  - rewrite (call_served _ w Hhd). unfold db_CreateTable, lease_table. simpl.
    destruct (db w !! LeaseTable c); reflexivity.
Qed.

(** The loop of [CreateLeaseTable]: its calls, and what an error means. *)
Lemma CreateLeaseTable_loop_spec (fuel : nat) (c : Config)
    (err : option error) (w w' : World) r :
  CreateLeaseTable_loop fuel c err w = Some (r, w') ->
  (calls w <= calls w' <= calls w + (maxCreateRetries - attempt w))%nat
  /\ (forall e, r = Some e ->
        db w' = db w
        /\ ((maxCreateRetries <= attempt w)%nat /\ attempt w' = attempt w
            \/ attempt w' = maxCreateRetries)
        /\ (calls w' + attempt w = calls w + attempt w')%nat).
Proof.
  revert err w. induction fuel as [|fuel IH]; intros err w H;
    [discriminate|].
  rewrite CreateLeaseTable_loop_step in H.
  unfold maxCreateRetries in *.
  destruct (attempt w <? 3)%nat eqn:Hlt.
  - apply Nat.ltb_lt in Hlt.
    destruct (hd None (network w)) as [e|].
    + destruct (has_code e AlreadyExist).
      * injection H as <- <-. simpl. split; [lia|discriminate].
      * apply IH in H as [Hcalls Herr]. simpl in Hcalls.
        split; [lia|]. intros e' He'.
        destruct (Herr e' He') as (Hdb & Hatt & Hsum). simpl in *.
        split; [exact Hdb|]. split; lia.
    + destruct (lease_table c w); injection H as <- <-; simpl;
        (split; [lia|discriminate]).
  - apply Nat.ltb_ge in Hlt. injection H as <- <-.
    split; [lia|]. intros e _. split; [reflexivity|]. split; lia.
Qed.

(** X5.  When its call reaches the store, [CreateLeaseTable] succeeds in
    one call and without a pause.  If the table exists already, "already
    exists" is folded into success and the tables are untouched; if not,
    the call creates it empty and keyed by [leaseKey]. *)
Theorem CreateLeaseTable_ensures (c : Config) (w : World) :
  idle w ->
  hd None (network w) = None ->
  exists w',
    CreateLeaseTable c w = Some (None, w')
    /\ calls w' = S (calls w) /\ slept w' = slept w /\ idle w'
    /\ (forall t, lease_table c w = Some t -> db w' = db w)
    /\ (lease_table c w = None ->
        lease_table c w' = Some (mkTable LeaseKeyKey ∅)
        /\ sound c (db w')
        /\ forall name, name <> LeaseTable c -> db w' !! name = db w !! name).
Proof.
  intros Hidle Hhd. unfold CreateLeaseTable, bind, fuel_for.
  rewrite CreateLeaseTable_loop_step, Hidle. simpl. rewrite Hhd.
  destruct (lease_table c w) as [t|] eqn:Ht; simpl.
  - eexists. split; [reflexivity|].
    split; [reflexivity|]. split; [reflexivity|]. split; [reflexivity|].
    split; [reflexivity | discriminate].
  - eexists. split; [reflexivity|].
    split; [reflexivity|]. split; [reflexivity|]. split; [reflexivity|].
    split; [discriminate|]. intros _. split; [|split].
    + unfold lease_table. simpl. apply lookup_insert_eq.
    + simpl. eexists. rewrite lookup_insert_eq.
      split; [reflexivity|]. split; [reflexivity|].
      intros k item H. simpl in H. rewrite lookup_empty in H. discriminate.
    + intros name Hne. simpl. apply lookup_insert_ne. congruence.
Qed.

Lemma CreateLeaseTable_ensures_witness :
  let w := mkWorld ∅ [] 0 0 0 [] [] in
  exists w1 w2,
    CreateLeaseTable Examples.cfg w = Some (None, w1)
    /\ sound Examples.cfg (db w1)
    /\ CreateLeaseTable Examples.cfg w1 = Some (None, w2)
    /\ db w2 = db w1.
Proof.
  intros w.
  destruct (CreateLeaseTable_ensures Examples.cfg w eq_refl eq_refl)
    as (w1 & Hrun1 & _ & _ & Hidle1 & _ & Hnew).
  destruct (Hnew eq_refl) as (Ht1 & Hsound & _).
  assert (Hhd1 : hd None (network w1) = None).
  { vm_compute in Hrun1 |- *. injection Hrun1 as <-. reflexivity. }
  destruct (CreateLeaseTable_ensures Examples.cfg w1 Hidle1 Hhd1)
    as (w2 & Hrun2 & _ & _ & _ & Hold & _).
  exists w1, w2. split; [exact Hrun1|]. split; [exact Hsound|].
  split; [exact Hrun2|]. exact (Hold _ Ht1).
Defined.

Section ListFailures.

Context {T : Type}.

Variable o : RangeOrder.

(** A failed listing: the leases collected so far are returned as they
    were, nothing was written, and every attempt was used. *)
Lemma ListLeases_loop_failed (fuel : nat) (c : Config)
    (acc : list (Lease T)) (err : option error) (w w' : World)
    (leases : list (Lease T)) (e : error) :
  ListLeases_loop o fuel c acc err w = Some ((leases, Some e), w') ->
  leases = acc /\ db w' = db w
  /\ ((maxScanRetries <= attempt w)%nat /\ attempt w' = attempt w
      \/ attempt w' = maxScanRetries)
  /\ (calls w' + attempt w = calls w + attempt w')%nat.
Proof.
  revert err w. induction fuel as [|fuel IH]; intros err w H;
    [discriminate|].
  rewrite ListLeases_loop_step in H. unfold maxScanRetries in *.
  destruct (attempt w <? 3)%nat eqn:Hlt.
  - apply Nat.ltb_lt in Hlt.
    assert (Hretry : forall e0,
      ListLeases_loop o fuel c acc (Some e0) (paused (dropped w))
      = Some ((leases, Some e), w') ->
      leases = acc /\ db w' = db w
      /\ ((3 <= attempt w)%nat /\ attempt w' = attempt w \/ attempt w' = 3%nat)
      /\ (calls w' + attempt w = calls w + attempt w')%nat).
    { intros e0 H0. apply IH in H0 as (Hl & Hdb & Hatt & Hsum).
      simpl in *. split; [exact Hl|]. split; [exact Hdb|]. split; lia. }
    destruct (hd None (network w)) as [e0|]; [exact (Hretry e0 H)|].
    destruct (lease_table c w) as [t|]; [|exact (Hretry _ H)].
    destruct (collect _ _ _ _) as [[ls w1]|]; discriminate.
  - apply Nat.ltb_ge in Hlt. injection H as <- _ <-.
    split; [reflexivity|]. split; [reflexivity|]. split; lia.
Qed.

End ListFailures.

(** X6.  No operation calls the store more often than its cap: two calls
    for a renew, take, evict or delete, three for a listing and for
    [CreateLeaseTable], and exactly one for [CreateLease]. *)
Theorem calls_within_caps {T : Type} (o : RangeOrder) (c : Config)
    (l : Lease T) (w : World) :
  (forall r w', RenewLease c l w = Some (r, w') ->
                (calls w' <= calls w + maxUpdateRetries)%nat)
  /\ (forall r w', TakeLease c l w = Some (r, w') ->
                   (calls w' <= calls w + maxUpdateRetries)%nat)
  /\ (forall r w', EvictLease c l w = Some (r, w') ->
                   (calls w' <= calls w + maxUpdateRetries)%nat)
  /\ (forall r w', DeleteLease c l w = Some (r, w') ->
                   (calls w' <= calls w + maxDeleteRetries)%nat)
  /\ (forall r w', ListLeases (T := T) o c w = Some (r, w') ->
                   (calls w' <= calls w + maxScanRetries)%nat)
  /\ (forall r w', CreateLeaseTable c w = Some (r, w') ->
                   (calls w' <= calls w + maxCreateRetries)%nat)
  /\ (forall r w', CreateLease c l w = Some (r, w') ->
                   calls w' = S (calls w)).
Proof.
  rewrite RenewLease_unfold, TakeLease_unfold, EvictLease_unfold.
  split; [|split; [|split; [|split; [|split; [|split]]]]]; intros r w' H.
  - destruct (updateLease c (renewed l) l w) as [[[e|] w1]|] eqn:Hrun;
      try discriminate; injection H as _ <-;
      exact (proj1 (update_delete_caps c _ l w w1 _) Hrun).
  - destruct (updateLease c (taken c l) l w) as [[[e|] w1]|] eqn:Hrun;
      try discriminate; injection H as _ <-;
      exact (proj1 (update_delete_caps c _ l w w1 _) Hrun).
  - destruct (updateLease c (evicted l) l w) as [[[e|] w1]|] eqn:Hrun;
      try discriminate; injection H as _ <-;
      exact (proj1 (update_delete_caps c _ l w w1 _) Hrun).
  - exact (proj2 (update_delete_caps c l l w w' r) H).
  - destruct (ListLeases_total (T := T) o c w) as (r0 & w0 & Hrun & Hcalls).
    rewrite Hrun in H. injection H as _ <-. exact Hcalls.
  - unfold CreateLeaseTable, bind in H.
    destruct (CreateLeaseTable_loop _ _ _ _) as [[err w1]|] eqn:Hrun;
      [|discriminate].
    injection H as _ <-. apply CreateLeaseTable_loop_spec in Hrun as [Hc _].
    simpl. lia.
  - rewrite CreateLease_unfold in H. unfold call in H.
    destruct (network w) as [|[e|] rest];
      try destruct (db_PutItem _ _); injection H as _ <-; reflexivity.
Qed.

Lemma calls_within_caps_witness :
  let w := Examples.world Examples.heldA
             [Some Examples.timeout; Some Examples.timeout;
              Some Examples.timeout; Some Examples.timeout] in
  exists r w',
    ListLeases (T := unit) map_order Examples.cfg w = Some (r, w')
    /\ (calls w' <= calls w + maxScanRetries)%nat.
Proof.
  intros w.
  destruct (ListLeases_total (T := unit) map_order Examples.cfg w)
    as (r & w' & Hrun & _).
  exists r, w'. split; [exact Hrun|].
  destruct (calls_within_caps map_order Examples.cfg
              (Examples.lease "A" "" 0) w)
    as (_ & _ & _ & _ & Hlist & _).
  exact (Hlist r w' Hrun).
Defined.

(** X7.  Started with the backoff at rest, an operation that returns an
    error has made every attempt its cap allows: two calls for a renew,
    take, evict or delete, three for a listing and for
    [CreateLeaseTable]. *)
Theorem error_after_every_attempt {T : Type} (o : RangeOrder) (c : Config)
    (l : Lease T) (w : World) :
  idle w ->
  (forall e l' w', RenewLease c l w = Some ((Some e, l'), w') ->
                   calls w' = (calls w + maxUpdateRetries)%nat)
  /\ (forall e l' w', TakeLease c l w = Some ((Some e, l'), w') ->
                      calls w' = (calls w + maxUpdateRetries)%nat)
  /\ (forall e l' w', EvictLease c l w = Some ((Some e, l'), w') ->
                      calls w' = (calls w + maxUpdateRetries)%nat)
  /\ (forall e w', DeleteLease c l w = Some (Some e, w') ->
                   calls w' = (calls w + maxDeleteRetries)%nat)
  /\ (forall (leases : list (Lease T)) e w',
        ListLeases o c w = Some ((leases, Some e), w') ->
        calls w' = (calls w + maxScanRetries)%nat /\ leases = [])
  /\ (forall e w', CreateLeaseTable c w = Some (Some e, w') ->
                   calls w' = (calls w + maxCreateRetries)%nat).
Proof.
  intros Hidle. unfold idle in Hidle.
  assert (Hupd : forall u e w',
            updateLease c u l w = Some (Some e, w') ->
            calls w' = (calls w + maxUpdateRetries)%nat).
  { intros u e w' H. rewrite updateLease_unfold in H.
    destruct (attempts _ _ _ _ _) as [[err w1]|] eqn:Hrun; [|discriminate].
    injection H as -> <-.
    apply attempts_failed in Hrun as (_ & _ & _ & Hatt & Hsum);
      [|apply db_UpdateItem_fails_clean].
    simpl. unfold maxUpdateRetries in *. lia. }
  rewrite RenewLease_unfold, TakeLease_unfold, EvictLease_unfold.
  split; [|split; [|split; [|split; [|split]]]].
  - intros e l' w' H.
    destruct (updateLease c (renewed l) l w) as [[[e0|] w1]|] eqn:Hrun;
      try discriminate. injection H as _ _ <-. exact (Hupd _ _ _ Hrun).
  - intros e l' w' H.
    destruct (updateLease c (taken c l) l w) as [[[e0|] w1]|] eqn:Hrun;
      try discriminate. injection H as _ _ <-. exact (Hupd _ _ _ Hrun).
  - intros e l' w' H.
    destruct (updateLease c (evicted l) l w) as [[[e0|] w1]|] eqn:Hrun;
      try discriminate. injection H as _ _ <-. exact (Hupd _ _ _ Hrun).
  - intros e w' H. rewrite DeleteLease_unfold in H.
    destruct (attempts _ _ _ _ _) as [[err w1]|] eqn:Hrun; [|discriminate].
    injection H as -> <-.
    apply attempts_failed in Hrun as (_ & _ & _ & Hatt & Hsum);
      [|apply db_DeleteItem_fails_clean].
    simpl. unfold maxDeleteRetries in *. lia.
  - intros leases e w' H. rewrite ListLeases_unfold in H.
    destruct (ListLeases_loop _ _ _ _ _ _) as [[r w1]|] eqn:Hrun;
      [|discriminate].
    injection H as -> <-.
    apply ListLeases_loop_failed in Hrun as (Hl & _ & Hatt & Hsum).
    simpl. unfold maxScanRetries in *. split; [lia | exact Hl].
  - intros e w' H. unfold CreateLeaseTable, bind in H.
    destruct (CreateLeaseTable_loop _ _ _ _) as [[err w1]|] eqn:Hrun;
      [|discriminate].
    injection H as -> <-.
    apply CreateLeaseTable_loop_spec in Hrun as [_ Herr].
    destruct (Herr e eq_refl) as (_ & Hatt & Hsum).
    simpl. unfold maxCreateRetries in *. lia.
Qed.

Lemma error_after_every_attempt_witness :
  let w := Examples.world Examples.heldA [] in
  let l := Examples.lease "A" "w2" 4 in
  exists e w',
    DeleteLease Examples.cfg l w = Some (Some e, w')
    /\ calls w' = (calls w + maxDeleteRetries)%nat.
Proof.
  intros w l.
  destruct (DeleteLease_total Examples.cfg l w) as (r & w' & Hrun).
  assert (Hr : exists e, r = Some e).
  { vm_compute in Hrun. injection Hrun as <- _. eexists. reflexivity. }
  destruct Hr as [e ->]. exists e, w'. split; [exact Hrun|].
  destruct (error_after_every_attempt map_order Examples.cfg l w eq_refl)
    as (_ & _ & _ & Hdel & _).
  exact (Hdel e w' Hrun).
Defined.

(** X8.  [ListLeases] never writes: whatever it returns, the tables are
    as before, and the backoff is at rest again. *)
Theorem ListLeases_reads_only {T : Type} (o : RangeOrder) (c : Config)
    (w : World) (r : list (Lease T) * option error) (w' : World) :
  ListLeases o c w = Some (r, w') ->
  db w' = db w /\ idle w' /\ now w <= now w'.
Proof.
  intros H. rewrite ListLeases_unfold in H.
  destruct (ListLeases_loop_spec (T := T) o (fuel_for maxScanRetries) c None
              w) as (r0 & w0 & Hrun & Hnow & Hdb & _); [unfold fuel_for; lia|].
  rewrite Hrun in H. injection H as _ <-. simpl.
  split; [exact Hdb|]. split; [reflexivity | exact Hnow].
Qed.

Lemma ListLeases_reads_only_witness :
  let w := Examples.world Examples.heldA [Some Examples.timeout] in
  exists r w',
    ListLeases (T := unit) map_order Examples.cfg w = Some (r, w')
    /\ db w' = db w.
Proof.
  intros w.
  destruct (ListLeases_total (T := unit) map_order Examples.cfg w)
    as (r & w' & Hrun & _).
  exists r, w'. split; [exact Hrun|].
  exact (proj1 (ListLeases_reads_only map_order Examples.cfg w r w' Hrun)).
Defined.

(** ** The conditional mutations *)

Section Mutations.

Context {T : Type}.

Lemma mutation_cases (c : Config)
    (op : Lease T -> M (option error * Lease T)) :
  In op (mutations c) ->
  exists u : Lease T -> Lease T,
    (u = renewed \/ u = taken c \/ u = evicted)
    /\ forall l w,
         op l w = match updateLease c (u l) l w with
                  | Some (None, w') => Some ((None, u l), w')
                  | Some (Some e, w') => Some ((Some e, l), w')
                  | None => None
                  end.
Proof.
  intros H. simpl in H.
  destruct H as [H|[H|[H|H]]]; [subst op|subst op|subst op|contradiction].
  - exists renewed. split; [auto|]. intros l w. apply RenewLease_unfold.
  - exists (taken c). split; [auto|]. intros l w. apply TakeLease_unfold.
  - exists evicted. split; [auto|]. intros l w. apply EvictLease_unfold.
Qed.

Lemma written_key (c : Config) (u : Lease T -> Lease T) (l : Lease T) :
  u = renewed \/ u = taken c \/ u = evicted -> Key (u l) = Key l.
Proof. intros [ -> | [ -> | -> ] ]; reflexivity. Qed.

Lemma precondition_guards (c : Config) (l : Lease T) (w : World) :
  guards l (stored c w (Key l)) = true <-> precondition c l w.
Proof.
  unfold guards, counter_guard, owner_guard, precondition, stored_counter,
    stored_owner.
  destruct (stored c w (Key l)) as [item|]; simpl;
    rewrite ?lookup_empty, andb_true_iff;
    destruct (0 <? Counter l) eqn:Hc;
    [apply Z.ltb_lt in Hc | apply Z.ltb_ge in Hc
    | apply Z.ltb_lt in Hc | apply Z.ltb_ge in Hc];
    destruct (decide (Owner l = "")) as [Ho|Ho];
    rewrite ?(bool_decide_eq_false_2 _ (fun H => H Ho)),
      ?(bool_decide_eq_true_2 _ Ho), ?bool_decide_eq_true;
    split; intros [H1 H2]; split; auto;
    try (destruct H1 as [H1|H1]; [lia | exact H1 || discriminate]);
    try (destruct H2 as [H2|H2]; [contradiction | exact H2 || discriminate]).
Qed.

(** An accepted write of [updateLease] was addressed to a table keyed by
    [leaseKey], with a key that is not empty. *)
Lemma db_UpdateItem_accepted_key (c : Config) (u l : Lease T)
    (d d' : Database) :
  db_UpdateItem (conditioned (updateInput c u) l) d = (None, d') ->
  exists t, d !! LeaseTable c = Some t
            /\ KeySchema t = LeaseKeyKey /\ Key u <> "".
Proof.
  unfold db_UpdateItem.
  destruct (conditioned_frame c u l) as (-> & -> & _).
  destruct (d !! LeaseTable c) as [t|] eqn:Ht; [|discriminate].
  unfold key_of.
  destruct (({[LeaseKeyKey := AttrS (Key u)]} : Item) !! KeySchema t)
    as [[k|n]|] eqn:Hk; try discriminate.
  destruct (bool_decide (k = "")) eqn:Hempty; [discriminate|].
  apply lookup_singleton_Some in Hk as [Hks Hk]. injection Hk as <-.
  apply bool_decide_eq_false in Hempty.
  intros _. exists t. auto.
Qed.

Lemma updateLease_succeeded_key (c : Config) (u l : Lease T)
    (w w' : World) :
  idle w ->
  updateLease c u l w = Some (None, w') ->
  Key u <> ""
  /\ exists t t',
       lease_table c w = Some t /\ KeySchema t = LeaseKeyKey
       /\ lease_table c w' = Some t' /\ KeySchema t' = LeaseKeyKey
       /\ Items t' = <[Key u := updated u (Items t !! Key u)]> (Items t)
       /\ (forall name, name <> LeaseTable c -> db w' !! name = db w !! name)
       /\ idle w'.
Proof.
  intros Hidle H.
  pose proof (updateLease_succeeded c u l w w' Hidle H)
    as (t & Ht & _ & Hd & Hidle').
  rewrite updateLease_unfold in H.
  destruct (attempts _ _ _ _ _) as [[err w1]|] eqn:Hrun; [|discriminate].
  injection H as -> <-.
  apply attempts_succeeded in Hrun; [|apply db_UpdateItem_fails_clean].
  destruct Hrun as [(_ & Hcap & _)|(_ & Hrun)].
  { unfold idle in Hidle. unfold maxUpdateRetries in Hcap. lia. }
  apply db_UpdateItem_accepted_key in Hrun as (t0 & Ht0 & Hks & Hk).
  unfold lease_table in Ht. rewrite Ht in Ht0. injection Ht0 as <-.
  split; [exact Hk|]. eexists t, _.
  split; [exact Ht|]. split; [exact Hks|].
  unfold lease_table. rewrite Hd, lookup_insert_eq.
  split; [reflexivity|]. split; [exact Hks|]. split; [reflexivity|].
  split; [|exact Hidle'].
  intros name Hne. apply lookup_insert_ne. congruence.
Qed.

End Mutations.

Section MutationRuns.

Context {T : Type}.

(** A run of a mutation, read through [updateLease]. *)
Lemma mutation_succeeded (c : Config)
    (op : Lease T -> M (option error * Lease T)) (l l' : Lease T)
    (w w' : World) :
  In op (mutations c) ->
  op l w = Some ((None, l'), w') ->
  Key l' = Key l /\ updateLease c l' l w = Some (None, w')
  /\ (l' = renewed l \/ l' = taken c l \/ l' = evicted l).
Proof.
  intros Hop H. destruct (mutation_cases c op Hop) as (u & Hu & Heq).
  rewrite Heq in H.
  destruct (updateLease c (u l) l w) as [[[e|] w1]|] eqn:Hrun;
    try discriminate.
  injection H as <- <-.
  split; [apply (written_key c), Hu|]. split; [exact Hrun|].
  destruct Hu as [ -> | [ -> | -> ] ]; auto.
Qed.

Lemma mutation_refused (c : Config)
    (op : Lease T -> M (option error * Lease T)) (l : Lease T) (w : World) :
  In op (mutations c) ->
  idle w ->
  guards l (stored c w (Key l)) = false ->
  (exists e w', op l w = Some ((Some e, l), w') /\ db w' = db w)
  /\ (serving c w -> Key l <> "" -> quiet w ->
      exists w',
        op l w = Some ((Some (RequestFailure ConditionalCheckFailed), l), w')).
Proof.
  intros Hop Hidle Hg. destruct (mutation_cases c op Hop) as (u & Hu & Heq).
  rewrite Heq. pose proof (written_key c u l Hu) as Hkey.
  split.
  - destruct (updateLease_refused c (u l) l w Hidle) as (e & w' & -> & Hd).
    + rewrite Hkey. apply guards_stored, Hg.
    + eauto.
  - intros Hserving Hk Hq.
    rewrite (updateLease_refused_twice c (u l) l w Hidle Hserving);
      [| rewrite Hkey; exact Hk | rewrite Hkey; exact Hg
       | apply quiet_hd, Hq].
    pose proof (quiet_tl w Hq) as Ht.
    destruct (tl (network w)) as [|o rest]; simpl; [eauto|].
    apply Forall_cons in Ht as [-> _]. simpl. eauto.
Qed.

Lemma mutation_accepted (c : Config)
    (op : Lease T -> M (option error * Lease T)) (l : Lease T) (w : World) :
  In op (mutations c) ->
  idle w -> serving c w -> Key l <> "" ->
  hd None (network w) = None ->
  guards l (stored c w (Key l)) = true ->
  exists l' w', op l w = Some ((None, l'), w').
Proof.
  intros Hop Hidle (t & Ht & Hks) Hk Hhd Hg.
  destruct (mutation_cases c op Hop) as (u & Hu & Heq).
  rewrite Heq. pose proof (written_key c u l Hu) as Hkey.
  unfold stored in Hg. rewrite Ht, <- Hkey in Hg.
  rewrite (updateLease_accepted c (u l) l w t Hidle Ht Hks); eauto.
  rewrite Hkey. exact Hk.
Qed.

End MutationRuns.

(** X9.  A successful renew, take or evict edits the owner and the
    counter of one record only: every other attribute of that record, the
    records of the other keys and the other tables are as before. *)
Theorem mutation_keeps_the_rest {T : Type} (c : Config)
    (op : Lease T -> M (option error * Lease T)) (l l' : Lease T)
    (w w' : World) :
  In op (mutations c) ->
  idle w ->
  op l w = Some ((None, l'), w') ->
  (forall item attr,
     stored c w (Key l) = Some item ->
     attr <> LeaseOwnerKey -> attr <> LeaseCounterKey ->
     exists item',
       stored c w' (Key l) = Some item' /\ item' !! attr = item !! attr)
  /\ (forall k, k <> Key l -> stored c w' k = stored c w k)
  /\ (forall name, name <> LeaseTable c -> db w' !! name = db w !! name).
Proof.
  intros Hop Hidle H.
  destruct (mutation_succeeded c op l l' w w' Hop H) as (Hkey & Hrun & _).
  apply updateLease_succeeded_key in Hrun
    as (_ & t & t' & Ht & _ & Ht' & _ & Hitems & Hother & _);
    [|exact Hidle].
  unfold stored. rewrite Ht, Ht', Hitems, Hkey.
  split; [|split; [|exact Hother]].
  - intros item attr Hitem Ha1 Ha2. rewrite lookup_insert_eq.
    eexists. split; [reflexivity|].
    unfold updated. rewrite !lookup_insert_ne by congruence.
    rewrite Hitem. reflexivity.
  - intros k Hne. apply lookup_insert_ne. congruence.
Qed.

Lemma mutation_keeps_the_rest_witness :
  let item : Item := <["shard" := AttrN 7]> (Examples.record "A" "w2" 5) in
  let w := Examples.world [("A", item); ("B", Examples.bare "B")] [] in
  exists l' w',
    TakeLease Examples.cfg (Examples.lease "A" "w2" 5) w
    = Some ((None, l'), w')
    /\ (exists item', stored Examples.cfg w' "A" = Some item'
                      /\ item' !! "shard" = Some (AttrN 7))
    /\ stored Examples.cfg w' "B" = Some (Examples.bare "B").
Proof.
  intros item w.
  destruct (operations_total Examples.cfg (Examples.lease "A" "w2" 5) w)
    as (_ & (r & w' & Htk) & _).
  assert (Hr : fst r = None)
    by (vm_compute in Htk; injection Htk as <- _; reflexivity).
  destruct r as [err l']. simpl in Hr. subst err.
  destruct (mutation_keeps_the_rest Examples.cfg (TakeLease Examples.cfg)
              (Examples.lease "A" "w2" 5) l' w w') as (Hattr & Hkeys & _).
  - right. left. reflexivity.
  - reflexivity.
  - exact Htk.
  - exists l', w'. split; [exact Htk|]. split.
    + destruct (Hattr item "shard") as (item' & Hs & Ha);
        [reflexivity | discriminate | discriminate |].
      exists item'. split; [exact Hs | rewrite Ha; reflexivity].
    + rewrite (Hkeys "B") by discriminate. reflexivity.
Defined.

(** X10.  A renew, take or evict whose precondition fails (the lease has
    a positive counter that is not the stored one, or an owner that is not
    the stored one) returns an error and changes neither the tables nor
    the caller's lease, whatever the network does; on a served table and a
    quiet network the error is the conditional-check failure. *)
Theorem failed_precondition_rejected {T : Type} (c : Config)
    (op : Lease T -> M (option error * Lease T)) (l : Lease T) (w : World) :
  In op (mutations c) ->
  idle w ->
  ~ precondition c l w ->
  (exists e w', op l w = Some ((Some e, l), w') /\ db w' = db w)
  /\ (serving c w -> Key l <> "" -> quiet w ->
      exists w',
        op l w = Some ((Some (RequestFailure ConditionalCheckFailed), l), w')).
Proof.
  intros Hop Hidle Hpre. apply (mutation_refused c); try assumption.
  destruct (guards l (stored c w (Key l))) eqn:Hg; [|reflexivity].
  exfalso. apply Hpre, (proj1 (precondition_guards c l w)), Hg.
Qed.

Lemma failed_precondition_rejected_witness :
  let w := Examples.world [("A", Examples.record "A" "NULL" 5)] [] in
  let l := Examples.lease "A" "w2" 5 in
  exists w',
    RenewLease Examples.cfg l w
    = Some ((Some (RequestFailure ConditionalCheckFailed), l), w').
Proof.
  intros w l.
  destruct (failed_precondition_rejected Examples.cfg
              (RenewLease Examples.cfg) l w) as (_ & Hquiet).
  - left. reflexivity.
  - reflexivity.
  - intros (_ & [Ho|Ho]); vm_compute in Ho; discriminate.
  - apply Hquiet; [|discriminate|constructor].
    eexists. split; reflexivity.
Defined.

(** X11.  On a served table, when the first call reaches the store, a
    renew, take or evict succeeds exactly when its precondition holds:
    the lease's counter is not positive or is the stored counter, and the
    lease's owner is empty or is the stored owner. *)
Theorem mutation_succeeds_iff {T : Type} (c : Config)
    (op : Lease T -> M (option error * Lease T)) (l : Lease T) (w : World) :
  In op (mutations c) ->
  idle w -> serving c w -> Key l <> "" ->
  hd None (network w) = None ->
  (exists l' w', op l w = Some ((None, l'), w')) <-> precondition c l w.
Proof.
  intros Hop Hidle Hserving Hk Hhd. split.
  - intros (l' & w' & H).
    destruct (mutation_succeeded c op l l' w w' Hop H) as (Hkey & Hrun & _).
    apply updateLease_stored in Hrun as (Hg & _); [|exact Hidle].
    rewrite Hkey in Hg. apply (proj1 (precondition_guards c l w)), Hg.
  - intros Hpre. apply (mutation_accepted c); try assumption.
    apply (proj2 (precondition_guards c l w)), Hpre.
Qed.

Lemma mutation_succeeds_iff_witness :
  let w := Examples.world Examples.heldA [] in
  exists l' w',
    EvictLease Examples.cfg (Examples.lease "A" "w2" 5) w
    = Some ((None, l'), w').
Proof.
  intros w.
  apply (mutation_succeeds_iff Examples.cfg (EvictLease Examples.cfg)
           (Examples.lease "A" "w2" 5) w).
  - right. right. left. reflexivity.
  - reflexivity.
  - eexists. split; reflexivity.
  - discriminate.
  - reflexivity.
  - split; right; reflexivity.
Defined.

(** X12.  On a key that has no record, a renew, take or evict succeeds
    only for a lease without checks (counter not positive, owner empty),
    and then creates the record, holding exactly the key, the written
    owner and the written counter; with a check it fails and no record
    appears. *)
Theorem mutation_of_missing_record {T : Type} (c : Config)
    (op : Lease T -> M (option error * Lease T)) (l : Lease T) (w : World) :
  In op (mutations c) ->
  idle w -> serving c w -> Key l <> "" ->
  hd None (network w) = None ->
  stored c w (Key l) = None ->
  (Counter l <= 0 -> Owner l = "" ->
   exists l' w',
     op l w = Some ((None, l'), w')
     /\ stored c w' (Key l)
        = Some (<[LeaseCounterKey := AttrN (Counter l')]>
                  (<[LeaseOwnerKey := AttrS (Owner l')]>
                     {[ LeaseKeyKey := AttrS (Key l) ]})))
  /\ (0 < Counter l \/ Owner l <> "" ->
      exists e w',
        op l w = Some ((Some e, l), w') /\ stored c w' (Key l) = None).
Proof.
  intros Hop Hidle Hserving Hk Hhd Hnone. split.
  - intros Hc Ho.
    destruct (mutation_accepted c op l w Hop Hidle Hserving Hk Hhd)
      as (l' & w' & H).
    { apply (proj2 (precondition_guards c l w)). split; left; assumption. }
    exists l', w'. split; [exact H|].
    destruct (mutation_succeeded c op l l' w w' Hop H) as (Hkey & Hrun & _).
    apply updateLease_stored in Hrun as (_ & Hs & _); [|exact Hidle].
    rewrite Hkey in Hs. rewrite Hs, Hnone. unfold updated. simpl.
    rewrite Hkey. reflexivity.
  - intros Hcheck.
    destruct (mutation_refused c op l w Hop Hidle) as ((e & w' & H & Hdb) & _).
    + destruct (guards l (stored c w (Key l))) eqn:Hg; [|reflexivity].
      apply (proj1 (precondition_guards c l w)) in Hg.
      unfold precondition, stored_counter, stored_owner in Hg.
      rewrite Hnone in Hg.
      destruct Hg as [[Hc|Hc] [Ho|Ho]]; try discriminate.
      destruct Hcheck; [lia | contradiction].
    + exists e, w'. split; [exact H|].
      unfold stored, lease_table in *. rewrite Hdb. exact Hnone.
Qed.

Lemma mutation_of_missing_record_witness :
  let w := Examples.world Examples.heldA [] in
  (exists l' w',
     TakeLease Examples.cfg (Examples.lease "Z" "" 0) w
     = Some ((None, l'), w')
     /\ stored Examples.cfg w' "Z"
        = Some (<[LeaseCounterKey := AttrN (Counter l')]>
                  (<[LeaseOwnerKey := AttrS (Owner l')]>
                     {[ LeaseKeyKey := AttrS "Z" ]})))
  /\ (exists e w',
        RenewLease Examples.cfg (Examples.lease "Z" "" 3) w
        = Some ((Some e, Examples.lease "Z" "" 3), w')
        /\ stored Examples.cfg w' "Z" = None).
Proof.
  intros w. split.
  - destruct (mutation_of_missing_record Examples.cfg
                (TakeLease Examples.cfg) (Examples.lease "Z" "" 0) w)
      as (Hcreate & _).
    + right. left. reflexivity.
    + reflexivity.
    + eexists. split; reflexivity.
    + discriminate.
    + reflexivity.
    + reflexivity.
    + apply Hcreate; [vm_compute; discriminate | reflexivity].
  - destruct (mutation_of_missing_record Examples.cfg
                (RenewLease Examples.cfg) (Examples.lease "Z" "" 3) w)
      as (_ & Hfail).
    + left. reflexivity.
    + reflexivity.
    + eexists. split; reflexivity.
    + discriminate.
    + reflexivity.
    + reflexivity.
    + apply Hfail. left. reflexivity.
Defined.

(** ** How the mutations compose *)

Lemma incr_neq (z : Z) : GoInt.incr z <> z.
Proof.
  unfold GoInt.incr, GoInt.wrap, GoInt.min_int, GoInt.modulus, GoInt.bits.
  intros H.
  pose proof (Z.div_mod (z + 1 - - 2 ^ (64 - 1)) (2 ^ 64)) as Hdm.
  pose proof (Z.mod_pos_bound (z + 1 - - 2 ^ (64 - 1)) (2 ^ 64)) as Hb.
  change (2 ^ 64) with 18446744073709551616 in *.
  change (2 ^ (64 - 1)) with 9223372036854775808 in *.
  lia.
Qed.

Lemma stored_same_table (c1 c2 : Config) (w : World) (k : string) :
  LeaseTable c2 = LeaseTable c1 ->
  stored c2 w k = stored c1 w k
  /\ stored_counter c2 w k = stored_counter c1 w k
  /\ stored_owner c2 w k = stored_owner c1 w k.
Proof.
  intros H. unfold stored_counter, stored_owner, stored, lease_table.
  rewrite H. auto.
Qed.

(** X13.  Of two writers working from the same lease with a positive
    counter, the second loses: once a renew or take has succeeded, any
    renew, take or evict made with the lease as it was before, by any
    worker of the same table, returns an error and leaves the first
    writer's record in place. *)
Theorem second_writer_loses {T : Type} (c1 c2 : Config)
    (first second : Lease T -> M (option error * Lease T)) (l l1 : Lease T)
    (w w1 : World) :
  In first [RenewLease c1; TakeLease c1] ->
  In second (mutations c2) ->
  LeaseTable c2 = LeaseTable c1 ->
  idle w ->
  0 < Counter l ->
  first l w = Some ((None, l1), w1) ->
  exists e w2,
    second l w1 = Some ((Some e, l), w2)
    /\ db w2 = db w1
    /\ stored_counter c1 w2 (Key l) = Some (AttrN (Counter l1))
    /\ stored_owner c1 w2 (Key l) = Some (AttrS (Owner l1)).
Proof.
  intros Hfirst Hsecond Htable Hidle Hpos H.
  assert (Hin : In first (mutations c1)).
  { simpl in *. tauto. }
  destruct (mutation_succeeded c1 first l l1 w w1 Hin H)
    as (Hkey & Hrun & Hl1).
  assert (Hcounter : Counter l1 = GoInt.incr (Counter l)).
  { destruct Hl1 as [ -> | [ -> | -> ] ]; try reflexivity.
    exfalso. simpl in Hfirst.
    destruct Hfirst as [Hf|[Hf|[]]]; subst first.
    - rewrite RenewLease_unfold in H.
      destruct (updateLease c1 (renewed l) l w) as [[[e|] w0]|];
        try discriminate.
      apply (incr_neq (Counter l)).
      change (Counter (renewed l) = Counter (evicted l)). congruence.
    - rewrite TakeLease_unfold in H.
      destruct (updateLease c1 (taken c1 l) l w) as [[[e|] w0]|];
        try discriminate.
      apply (incr_neq (Counter l)).
      change (Counter (taken c1 l) = Counter (evicted l)). congruence. }
  pose proof (updateLease_succeeded_key c1 l1 l w w1 Hidle Hrun)
    as (_ & _ & _ & _ & _ & _ & _ & _ & _ & Hidle1).
  apply updateLease_stored in Hrun as (_ & _ & Hsc & Hso); [|exact Hidle].
  rewrite Hkey in Hsc, Hso.
  destruct (stored_same_table c1 c2 w1 (Key l) Htable) as (_ & Hc12 & _).
  destruct (mutation_refused c2 second l w1 Hsecond Hidle1)
    as ((e & w2 & Hrun2 & Hdb) & _).
  { apply stale_guards; [exact Hpos|].
    rewrite Hc12, Hsc, Hcounter. intros Heq. injection Heq as Heq.
    exact (incr_neq _ Heq). }
  exists e, w2. split; [exact Hrun2|]. split; [exact Hdb|].
  unfold stored_counter, stored_owner, stored, lease_table in *.
  rewrite Hdb. auto.
Qed.

Lemma second_writer_loses_witness :
  let w := Examples.world Examples.heldA [] in
  let l := Examples.lease "A" "w2" 5 in
  let c2 := mkConfig "w3" "leases" 5 5 in
  exists l1 w1 e w2,
    TakeLease Examples.cfg l w = Some ((None, l1), w1)
    /\ TakeLease c2 l w1 = Some ((Some e, l), w2)
    /\ stored_owner Examples.cfg w2 "A" = Some (AttrS "w1").
Proof.
  intros w l c2.
  destruct (operations_total Examples.cfg l w) as (_ & (r & w1 & Htk) & _).
  assert (Hr : r = (None, Examples.lease "A" "w1" 6))
    by (vm_compute in Htk; injection Htk as <- _; reflexivity).
  subst r.
  destruct (second_writer_loses Examples.cfg c2 (TakeLease Examples.cfg)
              (TakeLease c2) l (Examples.lease "A" "w1" 6) w w1)
    as (e & w2 & Hrun2 & _ & _ & Hso).
  - right. left. reflexivity.
  - right. left. reflexivity.
  - reflexivity.
  - reflexivity.
  - reflexivity.
  - exact Htk.
  - exists (Examples.lease "A" "w1" 6), w1, e, w2. auto.
Defined.

(** X14.  A lease without checks (counter not positive, owner empty) is
    no guard at all: two workers that take it one after the other both
    succeed, both end with the same counter, and the record names the
    second. *)
Theorem unchecked_lease_taken_twice {T : Type} (c1 c2 : Config)
    (l : Lease T) (w : World) :
  LeaseTable c2 = LeaseTable c1 ->
  idle w -> serving c1 w -> Key l <> "" ->
  Counter l <= 0 -> Owner l = "" ->
  hd None (network w) = None ->
  hd None (tl (network w)) = None ->
  exists w1 w2,
    TakeLease c1 l w = Some ((None, taken c1 l), w1)
    /\ TakeLease c2 l w1 = Some ((None, taken c2 l), w2)
    /\ Counter (taken c1 l) = Counter (taken c2 l)
    /\ stored_owner c1 w1 (Key l) = Some (AttrS (WorkerId c1))
    /\ stored_owner c1 w2 (Key l) = Some (AttrS (WorkerId c2)).
Proof.
  intros Htable Hidle (t & Ht & Hks) Hk Hc Ho Hhd Hhd2.
  assert (Hg : forall record, guards l record = true).
  { intros record. unfold guards, counter_guard, owner_guard.
    rewrite Ho. apply Z.ltb_ge in Hc. rewrite Hc. reflexivity. }
  pose proof (updateLease_accepted c1 (taken c1 l) l w t Hidle Ht Hks Hk
                (Hg _) Hhd) as Hrun1.
  match type of Hrun1 with
  | _ = Some (None, ?x) => set (w1 := x) in *
  end.
  pose proof (updateLease_succeeded_key c1 (taken c1 l) l w w1 Hidle Hrun1)
    as (_ & t0 & t1 & Ht0 & _ & Ht1 & Hks1 & _ & _ & Hidle1).
  assert (Ht1' : lease_table c2 w1 = Some t1).
  { unfold lease_table in *. rewrite Htable. exact Ht1. }
  pose proof (updateLease_accepted c2 (taken c2 l) l w1 t1 Hidle1 Ht1' Hks1
                Hk (Hg _) Hhd2) as Hrun2.
  match type of Hrun2 with
  | _ = Some (None, ?x) => set (w2 := x) in *
  end.
  exists w1, w2.
  split; [rewrite TakeLease_unfold, Hrun1; reflexivity|].
  split; [rewrite TakeLease_unfold, Hrun2; reflexivity|].
  split; [reflexivity|].
  apply updateLease_stored in Hrun1 as (_ & _ & _ & Hso1); [|exact Hidle].
  apply updateLease_stored in Hrun2 as (_ & _ & _ & Hso2); [|exact Hidle1].
  split; [exact Hso1|].
  destruct (stored_same_table c1 c2 w2 (Key l) Htable) as (_ & _ & <-).
  exact Hso2.
Qed.

Lemma unchecked_lease_taken_twice_witness :
  let w := Examples.world [("B", Examples.bare "B")] [] in
  let l := Examples.lease "B" "" 0 in
  let c2 := mkConfig "w3" "leases" 5 5 in
  exists w1 w2,
    TakeLease Examples.cfg l w = Some ((None, Examples.lease "B" "w1" 1), w1)
    /\ TakeLease c2 l w1 = Some ((None, Examples.lease "B" "w3" 1), w2)
    /\ stored_owner Examples.cfg w2 "B" = Some (AttrS "w3").
Proof.
  intros w l c2.
  destruct (unchecked_lease_taken_twice Examples.cfg c2 l w)
    as (w1 & w2 & H1 & H2 & _ & _ & Hso).
  - reflexivity.
  - reflexivity.
  - eexists. split; reflexivity.
  - discriminate.
  - vm_compute. discriminate.
  - reflexivity.
  - reflexivity.
  - reflexivity.
  - exists w1, w2. split; [exact H1|]. split; [exact H2 | exact Hso].
Defined.

Lemma DeleteLease_accepted {T : Type} (c : Config) (l : Lease T)
    (w : World) (t : Table) :
  idle w ->
  lease_table c w = Some t ->
  KeySchema t = LeaseKeyKey ->
  Key l <> "" ->
  hd None (network w) = None ->
  deletable l (Items t !! Key l) = true ->
  DeleteLease c l w
  = Some (None,
          rested (served w
            (<[LeaseTable c :=
                 mkTable (KeySchema t) (delete (Key l) (Items t))]> (db w)))).
Proof.
  intros Hidle Ht Hks Hk Hhd Hdel.
  rewrite DeleteLease_unfold. unfold fuel_for.
  erewrite attempts_accepted; [reflexivity| | |exact Hhd].
  - rewrite (db_DeleteItem_lease c l (db w) t Ht Hks Hk), Hdel. reflexivity.
  - unfold idle in Hidle. unfold maxDeleteRetries. lia.
Qed.

(** X15.  What a successful renew, take or evict hands back is good for
    the next operation: the precondition of the returned lease holds of
    the record just written, so that, if nobody writes in between and the
    next call reaches the store, a further renew, take or evict with it
    succeeds, and so does a delete, which removes the record. *)
Theorem returned_lease_is_current {T : Type} (c : Config)
    (op : Lease T -> M (option error * Lease T)) (l l' : Lease T)
    (w w' : World) :
  In op (mutations c) ->
  idle w ->
  op l w = Some ((None, l'), w') ->
  precondition c l' w'
  /\ (hd None (network w') = None ->
      (forall op', In op' (mutations c) ->
                   exists l2 w2, op' l' w' = Some ((None, l2), w2))
      /\ exists w2, DeleteLease c l' w' = Some (None, w2)
                    /\ stored c w2 (Key l) = None).
Proof.
  intros Hop Hidle H.
  destruct (mutation_succeeded c op l l' w w' Hop H) as (Hkey & Hrun & _).
  pose proof (updateLease_succeeded_key c l' l w w' Hidle Hrun)
    as (Hk & _ & t' & _ & _ & Ht' & Hks' & _ & _ & Hidle').
  apply updateLease_stored in Hrun as (_ & Hs & Hsc & Hso); [|exact Hidle].
  assert (Hpre : precondition c l' w') by (split; right; assumption).
  split; [exact Hpre|]. intros Hhd. split.
  - intros op' Hop'. apply (mutation_accepted c); try assumption.
    + exists t'. auto.
    + apply (proj2 (precondition_guards c l' w')), Hpre.
  - assert (Hdel : deletable l' (Items t' !! Key l') = true).
    { unfold stored_counter, stored_owner, stored in Hsc, Hso.
      rewrite Ht' in Hsc, Hso.
      unfold deletable, matches.
      destruct (Items t' !! Key l') as [item|] eqn:Hitem;
        rewrite ?Hitem in Hsc, Hso; [|discriminate].
      simpl.
      rewrite (bool_decide_eq_true_2 _ Hsc), (bool_decide_eq_true_2 _ Hso).
      apply orb_true_r. }
    rewrite (DeleteLease_accepted c l' w' t' Hidle' Ht' Hks' Hk Hhd Hdel).
    eexists. split; [reflexivity|].
    unfold stored, lease_table. simpl. rewrite lookup_insert_eq. simpl.
    rewrite <- Hkey. apply lookup_delete_eq.
Qed.

Lemma returned_lease_is_current_witness :
  let w := Examples.world Examples.heldA [] in
  exists l1 w1 l2 w2 w3,
    TakeLease Examples.cfg (Examples.lease "A" "w2" 5) w
    = Some ((None, l1), w1)
    /\ RenewLease Examples.cfg l1 w1 = Some ((None, l2), w2)
    /\ DeleteLease Examples.cfg l1 w1 = Some (None, w3)
    /\ stored Examples.cfg w3 "A" = None.
Proof.
  intros w.
  destruct (operations_total Examples.cfg (Examples.lease "A" "w2" 5) w)
    as (_ & (r & w1 & Htk) & _).
  assert (Hr : fst r = None)
    by (vm_compute in Htk; injection Htk as <- _; reflexivity).
  destruct r as [err l1]. simpl in Hr. subst err.
  assert (Hhd : hd None (network w1) = None).
  { vm_compute in Htk. injection Htk as _ <-. reflexivity. }
  destruct (returned_lease_is_current Examples.cfg (TakeLease Examples.cfg)
              (Examples.lease "A" "w2" 5) l1 w w1) as (_ & Hnext).
  - right. left. reflexivity.
  - reflexivity.
  - exact Htk.
  - destruct (Hnext Hhd) as (Hops & w3 & Hdel & Hgone).
    destruct (Hops (RenewLease Examples.cfg)) as (l2 & w2 & Hrn);
      [left; reflexivity|].
    exists l1, w1, l2, w2, w3. auto.
Defined.

(** X16.  A successful renew or take of a lease whose counter is positive
    and below the largest [int] moves the stored counter from the lease's
    counter to the next integer, which is also the counter of the lease
    handed back. *)
Theorem counter_advances {T : Type} (c : Config)
    (op : Lease T -> M (option error * Lease T)) (l l' : Lease T)
    (w w' : World) :
  In op [RenewLease c; TakeLease c] ->
  idle w ->
  0 < Counter l < GoInt.max_int ->
  op l w = Some ((None, l'), w') ->
  stored_counter c w (Key l) = Some (AttrN (Counter l))
  /\ stored_counter c w' (Key l) = Some (AttrN (Counter l + 1))
  /\ Counter l' = Counter l + 1.
Proof.
  intros Hop Hidle [Hpos Hmax] H.
  assert (Hin : In op (mutations c)) by (simpl in *; tauto).
  assert (Hincr : GoInt.incr (Counter l) = Counter l + 1).
  { apply incr_in_range; [|exact Hmax].
    unfold GoInt.in_range, GoInt.min_int, GoInt.max_int, GoInt.bits in *.
    simpl in *. lia. }
  assert (Hl' : Counter l' = GoInt.incr (Counter l)).
  { simpl in Hop. destruct Hop as [Hf|[Hf|[]]]; subst op.
    - rewrite RenewLease_unfold in H.
      destruct (updateLease _ _ _ _) as [[[e|] w0]|]; try discriminate.
      injection H as <- _. reflexivity.
    - rewrite TakeLease_unfold in H.
      destruct (updateLease _ _ _ _) as [[[e|] w0]|]; try discriminate.
      injection H as <- _. reflexivity. }
  destruct (mutation_succeeded c op l l' w w' Hin H) as (Hkey & Hrun & _).
  apply updateLease_stored in Hrun as (Hg & _ & Hsc & _); [|exact Hidle].
  rewrite Hkey in Hg, Hsc. rewrite Hl', Hincr in Hsc.
  split; [|split; [exact Hsc | rewrite Hl'; exact Hincr]].
  apply (proj1 (precondition_guards c l w)) in Hg as [[Hc|Hc] _];
    [lia | exact Hc].
Qed.

Lemma counter_advances_witness :
  let w := Examples.world Examples.heldA [] in
  exists l' w',
    RenewLease Examples.cfg (Examples.lease "A" "w2" 5) w
    = Some ((None, l'), w')
    /\ stored_counter Examples.cfg w "A" = Some (AttrN 5)
    /\ stored_counter Examples.cfg w' "A" = Some (AttrN 6)
    /\ Counter l' = 6.
Proof.
  intros w.
  destruct (operations_total Examples.cfg (Examples.lease "A" "w2" 5) w)
    as ((r & w' & Hrn) & _).
  assert (Hr : fst r = None)
    by (vm_compute in Hrn; injection Hrn as <- _; reflexivity).
  destruct r as [err l']. simpl in Hr. subst err.
  exists l', w'. split; [exact Hrn|].
  apply (counter_advances Examples.cfg (RenewLease Examples.cfg)
           (Examples.lease "A" "w2" 5) l' w w').
  - left. reflexivity.
  - reflexivity.
  - vm_compute. split; reflexivity.
  - exact Hrn.
Defined.

(** ** Deleting *)

(** X17.  A record that holds its key alone, as [CreateLease] leaves it,
    cannot be deleted through [DeleteLease], whatever the owner and the
    counter of the lease passed in: the record has neither attribute to
    compare with.  On a quiet network the delete returns the
    conditional-check failure and the record stays. *)
Theorem created_record_resists_delete {T : Type} (c : Config) (l : Lease T)
    (w : World) :
  idle w -> serving c w -> Key l <> "" -> quiet w ->
  stored c w (Key l) = Some {[ LeaseKeyKey := AttrS (Key l) ]} ->
  exists w',
    DeleteLease c l w
    = Some (Some (RequestFailure ConditionalCheckFailed), w')
    /\ db w' = db w.
Proof.
  intros Hidle (t & Ht & Hks) Hk Hq Hs.
  unfold stored in Hs. rewrite Ht in Hs.
  assert (Hreq := db_DeleteItem_lease c l (db w) t Ht Hks Hk).
  assert (Hdel : deletable l (Items t !! Key l) = false).
  { rewrite Hs. unfold deletable, matches. simpl.
    rewrite lookup_singleton_eq, !lookup_singleton_ne by discriminate.
    reflexivity. }
  rewrite Hdel in Hreq. rewrite DeleteLease_unfold.
  destruct (attempts_refused_quiet maxDeleteRetries
              (db_DeleteItem (deleteInput c l))
              (fuel_for maxDeleteRetries) None w _ Hreq)
    as (w1 & Hrun & _).
  - unfold fuel_for. lia.
  - unfold idle in Hidle. unfold maxDeleteRetries. lia.
  - exact Hq.
  - rewrite Hrun. exists (rested w1). split; [reflexivity|].
    apply attempts_failed in Hrun; [|apply db_DeleteItem_fails_clean].
    simpl. apply Hrun.
Qed.

Lemma created_record_resists_delete_witness :
  let w := Examples.world [] [] in
  exists w1 w2,
    CreateLease Examples.cfg (Examples.lease "B" "" 0) w = Some (None, w1)
    /\ DeleteLease Examples.cfg (Examples.lease "B" "" 0) w1
       = Some (Some (RequestFailure ConditionalCheckFailed), w2)
    /\ stored Examples.cfg w2 "B" = Some (Examples.bare "B").
Proof.
  intros w.
  assert (Hcr : exists w1,
            CreateLease Examples.cfg (Examples.lease "B" "" 0) w
            = Some (None, w1)
            /\ w1 = mkWorld (Examples.tables [("B", Examples.bare "B")])
                            [] 1 0 1000 [] []).
  { eexists. split; vm_compute; reflexivity. }
  destruct Hcr as (w1 & Hcr & Hw1). exists w1.
  destruct (created_record_resists_delete Examples.cfg
              (Examples.lease "B" "" 0) w1) as (w2 & Hdel & Hdb).
  - subst w1. reflexivity.
  - subst w1. eexists. split; reflexivity.
  - discriminate.
  - subst w1. constructor.
  - subst w1. reflexivity.
  - exists w2. split; [exact Hcr|]. split; [exact Hdel|].
    unfold stored, lease_table. rewrite Hdb. subst w1. reflexivity.
Defined.

(** X18.  [DeleteLease] of a key that has no record does nothing and
    succeeds, in one call: the tables are exactly as before. *)
Theorem delete_of_missing_record {T : Type} (c : Config) (l : Lease T)
    (w : World) :
  idle w -> serving c w -> Key l <> "" ->
  hd None (network w) = None ->
  stored c w (Key l) = None ->
  exists w',
    DeleteLease c l w = Some (None, w')
    /\ db w' = db w /\ calls w' = S (calls w) /\ slept w' = slept w.
Proof.
  intros Hidle (t & Ht & Hks) Hk Hhd Hs.
  unfold stored in Hs. rewrite Ht in Hs.
  assert (Hdel : deletable l (Items t !! Key l) = true).
  { rewrite Hs. unfold deletable. simpl. rewrite lookup_empty. reflexivity. }
  rewrite (DeleteLease_accepted c l w t Hidle Ht Hks Hk Hhd Hdel).
  eexists. split; [reflexivity|]. split; [|split; reflexivity].
  simpl. rewrite (delete_id (Items t) (Key l) Hs).
  destruct t as [ks items]. simpl. apply insert_id. exact Ht.
Qed.

Lemma delete_of_missing_record_witness :
  let w := Examples.world Examples.heldA [] in
  exists w',
    DeleteLease Examples.cfg (Examples.lease "Z" "w2" 5) w = Some (None, w')
    /\ db w' = db w.
Proof.
  intros w.
  destruct (delete_of_missing_record Examples.cfg
              (Examples.lease "Z" "w2" 5) w) as (w' & Hrun & Hdb & _).
  - reflexivity.
  - eexists. split; reflexivity.
  - discriminate.
  - reflexivity.
  - reflexivity.
  - exists w'. split; [exact Hrun | exact Hdb].
Defined.

(** ** Listing *)

Lemma incr_range (z : Z) : GoInt.in_range (GoInt.incr z).
Proof.
  unfold GoInt.in_range, GoInt.incr, GoInt.wrap, GoInt.min_int,
    GoInt.max_int, GoInt.modulus, GoInt.bits.
  pose proof (Z.mod_pos_bound (z + 1 - - 2 ^ (64 - 1)) (2 ^ 64)) as Hb.
  change (2 ^ 64) with 18446744073709551616 in *.
  change (2 ^ (64 - 1)) with 9223372036854775808 in *.
  lia.
Qed.

Lemma in_rangeb_true (z : Z) : GoInt.in_range z -> GoInt.in_rangeb z = true.
Proof.
  unfold GoInt.in_range, GoInt.in_rangeb. intros [Hlo Hhi].
  apply andb_true_iff. split; apply Z.leb_le; assumption.
Qed.

Section ListingFacts.

Context {T : Type}.

(** The lease a record stands for carries the key the record carries. *)
Lemma as_stored_key (item : Item) (k : string) (l : Lease T) :
  item !! LeaseKeyKey = Some (AttrS k) ->
  as_stored item = Some l -> Key l = k.
Proof.
  intros Hk H. unfold as_stored, overlay in H. rewrite Hk in H.
  simpl in H. repeat case_match; simplify_eq; reflexivity.
Qed.

(** What [updateLease] writes stands for what it wrote. *)
Lemma as_stored_updated (u : Lease T) (record : option Item) (k : string) :
  GoInt.in_range (Counter u) ->
  default {[ LeaseKeyKey := AttrS (Key u) ]} record !! LeaseKeyKey
  = Some (AttrS k) ->
  as_stored (T := T) (updated u record)
  = Some (mkLease k (Owner u) (Counter u) 0 "" None).
Proof.
  intros Hr Hk. unfold as_stored, overlay, updated.
  rewrite lookup_insert_eq.
  rewrite (lookup_insert_ne _ LeaseCounterKey LeaseOwnerKey) by discriminate.
  rewrite lookup_insert_eq.
  rewrite !lookup_insert_ne by discriminate.
  rewrite Hk. simpl. rewrite (in_rangeb_true _ Hr). reflexivity.
Qed.

(** [updateLease] keeps a tidy record tidy. *)
Lemma tidy_updated (u : Lease T) (record : option Item) :
  (forall item, record = Some item -> tidy item) ->
  tidy (updated u record).
Proof.
  intros Ht. unfold updated.
  apply (tidy_insert _ FieldCounter), (tidy_insert _ FieldOwner).
  destruct record as [item|]; simpl.
  - apply Ht. reflexivity.
  - apply (tidy_singleton FieldKey).
Qed.

Lemma unstamped_fields (l : Lease T) :
  Key (unstamped l) = Key l /\ Owner (unstamped l) = Owner l
  /\ Counter (unstamped l) = Counter l.
Proof. auto. Qed.

(** The keys of the decodable records, in scan order, are among the keys
    of the table, when the records are tidy. *)
Lemma decoded_keys_sublist (o : RangeOrder) (L : list (string * Item)) :
  (forall k item, (k, item) ∈ L ->
                  item !! LeaseKeyKey = Some (AttrS k) /\ tidy item) ->
  sublist (map Key (omap (decoded (T := T) o) (map snd L))) (map fst L).
Proof.
  induction L as [|[k item] L IH]; intros Hwk; [constructor|].
  simpl.
  assert (IH' : sublist (map Key (omap (decoded (T := T) o) (map snd L)))
                        (map fst L)).
  { apply IH. intros k' item' Hin. apply Hwk. right. exact Hin. }
  destruct (Hwk k item) as [Hk Ht]; [left|].
  destruct (decoded o item) as [l|] eqn:Hdec; simpl.
  - rewrite decoded_tidy in Hdec by exact Ht.
    rewrite (as_stored_key item k l Hk Hdec).
    constructor. exact IH'.
  - constructor. exact IH'.
Qed.

End ListingFacts.

Lemma tidy_record (key owner : string) (counter : Z) :
  tidy (Examples.record key owner counter).
Proof.
  unfold Examples.record.
  apply (tidy_insert _ FieldCounter), (tidy_insert _ FieldOwner),
    (tidy_singleton FieldKey).
Qed.

Lemma tidy_records_single (k : string) (item : Item)
    (net : list (option error)) :
  tidy item -> tidy_records Examples.cfg (Examples.world [(k, item)] net).
Proof.
  intros Ht k' item' H.
  unfold stored, lease_table, Examples.world, Examples.tables, Examples.cfg
    in H.
  simpl in H. rewrite lookup_singleton_eq in H. simpl in H.
  apply lookup_insert_Some in H as [[_ <-]|[_ H]]; [exact Ht|].
  rewrite lookup_empty in H. discriminate.
Qed.

(** X19.  What a renew, take or evict has written is what the next
    listing reads, whatever the order in which the decoder ranges over a
    record: after a success on a sound table, with a lease whose counter
    is a Go [int] and whose record, if there was one, is tidy (no
    attribute other than [leaseKey], [leaseOwner] and [leaseCounter]
    passes for one of them), a successful [ListLeases] returns a lease
    with the key, the owner and the counter of the lease handed back. *)
Theorem written_lease_lists_back {T : Type} (o : RangeOrder) (c : Config)
    (op : Lease T -> M (option error * Lease T)) (l l' : Lease T)
    (w w' : World) (leases : list (Lease T)) (w2 : World) :
  In op (mutations c) ->
  idle w ->
  sound c (db w) ->
  (forall item, stored c w (Key l) = Some item -> tidy item) ->
  GoInt.in_range (Counter l) ->
  op l w = Some ((None, l'), w') ->
  ListLeases o c w' = Some ((leases, None), w2) ->
  exists l2,
    l2 ∈ leases
    /\ Key l2 = Key l' /\ Owner l2 = Owner l' /\ Counter l2 = Counter l'.
Proof.
  intros Hop Hidle (t & Ht & Hks & Hwk) Htidy Hrange H Hlist.
  destruct (mutation_succeeded c op l l' w w' Hop H) as (Hkey & Hrun & Hl').
  unfold stored, lease_table in Htidy. rewrite Ht, <- Hkey in Htidy.
  assert (Hrange' : GoInt.in_range (Counter l')).
  { destruct Hl' as [ -> | [ -> | -> ] ]; simpl;
      [apply incr_range | apply incr_range | exact Hrange]. }
  pose proof (updateLease_succeeded_key c l' l w w' Hidle Hrun)
    as (_ & t0 & t' & Ht0 & _ & Ht' & _ & Hitems & _ & Hidle').
  unfold lease_table in Ht0. rewrite Ht in Ht0. injection Ht0 as <-.
  destruct (ListLeases_succeeded o c w' leases w2 Hidle' Hlist)
    as (t1 & Ht1 & Hmap & _).
  rewrite Ht' in Ht1. injection Ht1 as <-.
  assert (Hdec : decoded (T := T) o (updated l' (Items t !! Key l'))
                 = Some (mkLease (Key l') (Owner l') (Counter l') 0 "" None)).
  { rewrite decoded_tidy by (apply tidy_updated; exact Htidy).
    apply as_stored_updated; [exact Hrange'|].
    destruct (Items t !! Key l') as [item|] eqn:Hitem; simpl.
    - apply Hwk in Hitem. rewrite Hks in Hitem. exact Hitem.
    - apply lookup_singleton_eq. }
  assert (Hin : mkLease (Key l') (Owner l') (Counter l') 0 "" None
                ∈ map unstamped leases).
  { rewrite Hmap. apply list_elem_of_omap.
    exists (updated l' (Items t !! Key l')). split; [|exact Hdec].
    apply list_elem_of_fmap. exists (Key l', updated l' (Items t !! Key l')).
    split; [reflexivity|].
    apply elem_of_map_to_list. rewrite Hitems. apply lookup_insert_eq. }
  apply list_elem_of_fmap in Hin as (l2 & Heq & Hl2).
  exists l2. split; [exact Hl2|].
  destruct (unstamped_fields l2) as (<- & <- & <-).
  rewrite <- Heq. auto.
Qed.

Lemma written_lease_lists_back_witness :
  let w := Examples.world Examples.heldA [] in
  exists l' w' leases w2 l2,
    TakeLease Examples.cfg (Examples.lease "A" "w2" 5) w
    = Some ((None, l'), w')
    /\ ListLeases (T := unit) map_order Examples.cfg w'
       = Some ((leases, None), w2)
    /\ l2 ∈ leases /\ Owner l2 = "w1" /\ Counter l2 = 6.
Proof.
  intros w.
  assert (Htk : exists w',
            TakeLease Examples.cfg (Examples.lease "A" "w2" 5) w
            = Some ((None, Examples.lease "A" "w1" 6), w')
            /\ hd None (network w') = None /\ idle w'
            /\ lease_table Examples.cfg w'
               = Some (mkTable LeaseKeyKey
                         (list_to_map [("A", Examples.record "A" "w1" 6)]))).
  { eexists. split; [vm_compute; reflexivity|].
    split; [reflexivity|]. split; vm_compute; reflexivity. }
  destruct Htk as (w' & Htk & Hhd & Hidle' & Ht').
  destruct (ListLeases_served (T := unit) map_order Examples.cfg w' _ Hidle'
              Ht' Hhd) as (leases & w2 & Hlist).
  destruct (written_lease_lists_back map_order Examples.cfg
              (TakeLease Examples.cfg)
              (Examples.lease "A" "w2" 5) (Examples.lease "A" "w1" 6)
              w w' leases w2) as (l2 & Hin & _ & Ho & Hc).
  - right. left. reflexivity.
  - reflexivity.
  - eexists. split; [reflexivity|]. split; [reflexivity|].
    apply well_keyed_single. reflexivity.
  - intros item Hitem. injection Hitem as <-. apply tidy_record.
  - vm_compute. split; discriminate.
  - exact Htk.
  - exact Hlist.
  - exists (Examples.lease "A" "w1" 6), w', leases, w2, l2. auto.
Defined.

(** X20.  On a sound table whose records are tidy (no attribute other
    than [leaseKey], [leaseOwner] and [leaseCounter] passes for one of
    them) a successful [ListLeases] returns no key twice, and every lease
    it returns has a record under its key, whatever the order in which
    the decoder ranges over a record. *)
Theorem listed_keys_distinct {T : Type} (o : RangeOrder) (c : Config)
    (w : World) (leases : list (Lease T)) (w' : World) :
  idle w ->
  sound c (db w) ->
  tidy_records c w ->
  ListLeases o c w = Some ((leases, None), w') ->
  NoDup (map Key leases)
  /\ (forall l, l ∈ leases -> is_Some (stored c w (Key l)))
  /\ (exists t, lease_table c w = Some t
                /\ (length leases <= size (Items t))%nat).
Proof.
  intros Hidle (t & Ht & Hks & Hwk) Htidy Hlist.
  destruct (ListLeases_succeeded o c w leases w' Hidle Hlist)
    as (t1 & Ht1 & Hmap & _).
  unfold lease_table in Ht1. rewrite Ht in Ht1. injection Ht1 as <-.
  unfold tidy_records, stored, lease_table in Htidy. rewrite Ht in Htidy.
  assert (Hkeys : map Key leases = map Key (map unstamped leases)).
  { rewrite map_map. reflexivity. }
  assert (Hsub : sublist (map Key leases)
                         (map fst (map_to_list (Items t)))).
  { rewrite Hkeys, Hmap. apply decoded_keys_sublist.
    intros k item Hin. apply elem_of_map_to_list in Hin.
    split; [|exact (Htidy k item Hin)].
    apply Hwk in Hin. rewrite Hks in Hin. exact Hin. }
  split; [|split].
  - apply (sublist_NoDup _ _ (NoDup_fst_map_to_list (Items t)) Hsub).
  - intros l Hl. unfold stored, lease_table. rewrite Ht.
    assert (Hin : Key l ∈ map fst (map_to_list (Items t))).
    { eapply elem_of_sublist; [|exact Hsub].
      apply list_elem_of_fmap. exists l. auto. }
    apply list_elem_of_fmap in Hin as ([k item] & Hk & Hin). simpl in Hk.
    subst k. apply elem_of_map_to_list in Hin. rewrite Hin. eauto.
  - exists t. split; [exact Ht|].
    apply sublist_length in Hsub.
    rewrite !length_map in Hsub. rewrite length_map_to_list in Hsub.
    exact Hsub.
Qed.

Lemma listed_keys_distinct_witness :
  let w := Examples.world Examples.heldA [] in
  exists leases w',
    ListLeases (T := unit) map_order Examples.cfg w
    = Some ((leases, None), w')
    /\ NoDup (map Key leases).
Proof.
  intros w.
  destruct (ListLeases_served (T := unit) map_order Examples.cfg w
              (mkTable LeaseKeyKey (list_to_map Examples.heldA))
              eq_refl eq_refl eq_refl) as (leases & w' & Hlist).
  exists leases, w'. split; [exact Hlist|].
  apply (listed_keys_distinct map_order Examples.cfg w leases w');
    [reflexivity| | |exact Hlist].
  - eexists. split; [reflexivity|]. split; [reflexivity|].
    apply well_keyed_single. reflexivity.
  - apply tidy_records_single, tidy_record.
Defined.

(** ** Creation followed by a listing *)

Lemma CreateLease_succeeded {T : Type} (c : Config) (l : Lease T)
    (w w' : World) :
  CreateLease c l w = Some (None, w') ->
  Key l <> ""
  /\ attempt w' = attempt w
  /\ exists t,
       lease_table c w = Some t /\ KeySchema t = LeaseKeyKey
       /\ lease_table c w'
          = Some (mkTable (KeySchema t)
                    (<[Key l := {[ LeaseKeyKey := AttrS (Key l) ]}]>
                       (Items t))).
Proof.
  rewrite CreateLease_unfold. intros H.
  destruct (hd None (network w)) as [e|] eqn:Hhd.
  { rewrite (call_dropped _ w e Hhd) in H. discriminate. }
  rewrite (call_served _ w Hhd) in H.
  unfold db_PutItem in H. simpl in H. unfold lease_table.
  destruct (db w !! LeaseTable c) as [t|] eqn:Ht; [|discriminate].
  unfold key_of in H.
  destruct (({[LeaseKeyKey := AttrS (Key l)]} : Item) !! KeySchema t)
    as [[k|n]|] eqn:Hk; try discriminate.
  destruct (bool_decide (k = "")) eqn:Hempty; [discriminate|].
  apply lookup_singleton_Some in Hk as [Hks Hk]. injection Hk as <-.
  apply bool_decide_eq_false in Hempty.
  simpl in H. injection H as <-. simpl.
  split; [exact Hempty|]. split; [reflexivity|].
  exists t. rewrite lookup_insert_eq. auto.
Qed.

(** X21.  A key that [CreateLease] has just written lists as a lease
    without owner at counter 0, whatever the lease passed to
    [CreateLease] said and whatever was stored before. *)
Theorem created_lease_lists_unowned {T : Type} (o : RangeOrder)
    (c : Config) (l : Lease T) (w w' : World) (leases : list (Lease T))
    (w2 : World) :
  idle w ->
  CreateLease c l w = Some (None, w') ->
  ListLeases o c w' = Some ((leases, None), w2) ->
  exists l2,
    l2 ∈ leases
    /\ Key l2 = Key l /\ Owner l2 = "" /\ Counter l2 = 0
    /\ hasNoOwner l2 = true.
Proof.
  intros Hidle Hcr Hlist.
  destruct (CreateLease_succeeded c l w w' Hcr)
    as (_ & Hatt & t & _ & _ & Ht').
  assert (Hidle' : idle w') by (unfold idle in *; congruence).
  destruct (ListLeases_succeeded o c w' leases w2 Hidle' Hlist)
    as (t1 & Ht1 & Hmap & _).
  rewrite Ht' in Ht1. injection Ht1 as <-. simpl in Hmap.
  assert (Hin : (NewLease (Key l) : Lease T) ∈ map unstamped leases).
  { rewrite Hmap. apply list_elem_of_omap.
    exists {[ LeaseKeyKey := AttrS (Key l) ]}. split; [|apply decoded_bare].
    apply list_elem_of_fmap.
    exists (Key l, {[ LeaseKeyKey := AttrS (Key l) ]}).
    split; [reflexivity|].
    apply elem_of_map_to_list, lookup_insert_eq. }
  apply list_elem_of_fmap in Hin as (l2 & Heq & Hl2).
  exists l2. split; [exact Hl2|].
  destruct (unstamped_fields l2) as (Hk & Ho & Hc).
  rewrite <- Heq in Hk, Ho, Hc. simpl in Hk, Ho, Hc.
  unfold hasNoOwner. rewrite <- Ho. auto.
Qed.

Lemma created_lease_lists_unowned_witness :
  let w := Examples.world Examples.heldA [] in
  exists w' leases w2 l2,
    CreateLease Examples.cfg (Examples.lease "A" "w2" 5) w = Some (None, w')
    /\ ListLeases (T := unit) map_order Examples.cfg w'
       = Some ((leases, None), w2)
    /\ l2 ∈ leases /\ Key l2 = "A" /\ Owner l2 = "" /\ Counter l2 = 0.
Proof.
  intros w.
  assert (Hcr : exists w',
            CreateLease Examples.cfg (Examples.lease "A" "w2" 5) w
            = Some (None, w')
            /\ hd None (network w') = None /\ idle w'
            /\ lease_table Examples.cfg w'
               = Some (mkTable LeaseKeyKey
                         (list_to_map [("A", Examples.bare "A")]))).
  { eexists. split; [vm_compute; reflexivity|].
    split; [reflexivity|]. split; vm_compute; reflexivity. }
  destruct Hcr as (w' & Hcr & Hhd & Hidle' & Ht').
  destruct (ListLeases_served (T := unit) map_order Examples.cfg w' _ Hidle'
              Ht' Hhd) as (leases & w2 & Hlist).
  destruct (created_lease_lists_unowned map_order Examples.cfg
              (Examples.lease "A" "w2" 5) w w' leases w2 eq_refl Hcr Hlist)
    as (l2 & Hin & Hk & Ho & Hc & _).
  exists w', leases, w2, l2. repeat split; assumption.
Defined.

(** ** Expiry *)

Lemma isExpired_reading {T : Type} (l : Lease T) (t : Z) (w : World) :
  exists w',
    isExpired l t w
    = Some (t <? Time_Sub (next_reading w) (lastRenewal l), w')
    /\ now w' = next_reading w /\ db w' = db w.
Proof. eexists. unfold isExpired, Since, bind, Now, ret. simpl. eauto. Qed.

(** X22.  A lease that [ListLeases] has returned is not expired for a
    duration [t] as long as the clock reads at most [t] past the start of
    the listing, and it is expired once the clock reads more than [t]
    past the end of the listing (for [t] below the largest duration). *)
Theorem listed_lease_expiry {T : Type} (o : RangeOrder) (c : Config)
    (w : World) (leases : list (Lease T)) (w' : World) (l : Lease T) (t : Z)
    (w2 : World) :
  idle w ->
  ListLeases o c w = Some ((leases, None), w') ->
  l ∈ leases ->
  minDuration <= t < maxDuration ->
  (next_reading w2 - now w <= t ->
   exists w3, isExpired l t w2 = Some (false, w3))
  /\ (t < next_reading w2 - now w' ->
      exists w3, isExpired l t w2 = Some (true, w3)).
Proof.
  intros Hidle Hlist Hl [Htlo Hthi].
  destruct (ListLeases_succeeded o c w leases w' Hidle Hlist)
    as (_ & _ & _ & _ & Hall).
  rewrite Forall_forall in Hall. specialize (Hall l Hl).
  destruct (isExpired_reading l t w2) as (w3 & -> & _).
  unfold Time_Sub. split; intros Hread; exists w3; f_equal; f_equal.
  - apply Z.ltb_ge. lia.
  - apply Z.ltb_lt. lia.
Qed.

Lemma listed_lease_expiry_witness :
  let w := Examples.world Examples.heldA [] in
  exists leases w' l,
    ListLeases (T := unit) map_order Examples.cfg w
    = Some ((leases, None), w')
    /\ l ∈ leases
    /\ (exists w3, isExpired l 30 w' = Some (false, w3))
    /\ (exists w3,
          isExpired l 30 (mkWorld (db w') [] 0 0 1040 [] [])
          = Some (true, w3)).
Proof.
  intros w.
  assert (Hlist : exists w',
            ListLeases (T := unit) map_order Examples.cfg w
            = Some (([mkLease "A" "w2" 5 1000 "" None], None), w')
            /\ now w' = 1000 /\ ticks w' = []).
  { eexists. split; [vm_compute; reflexivity|]. split; reflexivity. }
  destruct Hlist as (w' & Hlist & Hnow & Hticks).
  exists [mkLease "A" "w2" 5 1000 "" None], w',
    (mkLease "A" "w2" 5 1000 "" None).
  split; [exact Hlist|]. split; [apply list_elem_of_here|].
  split.
  - apply (proj1 (listed_lease_expiry map_order Examples.cfg w _ w' _ 30 w'
                    eq_refl
                    Hlist (list_elem_of_here _ _)
                    ltac:(vm_compute; split; [discriminate | reflexivity]))).
    unfold next_reading. rewrite Hnow, Hticks. vm_compute. discriminate.
  - apply (proj2 (listed_lease_expiry map_order Examples.cfg w _ w' _ 30
                    (mkWorld (db w') [] 0 0 1040 [] []) eq_refl
                    Hlist (list_elem_of_here _ _)
                    ltac:(vm_compute; split; [discriminate | reflexivity]))).
    unfold next_reading. rewrite Hnow. vm_compute. reflexivity.
Defined.

(** ** The lease table stays sound *)

Lemma CreateLeaseTable_loop_exists (fuel : nat) (c : Config)
    (err : option error) (w w' : World) r (t : Table) :
  lease_table c w = Some t ->
  CreateLeaseTable_loop fuel c err w = Some (r, w') -> db w' = db w.
Proof.
  intros Ht. revert err w Ht.
  induction fuel as [|fuel IH]; intros err w Ht H; [discriminate|].
  rewrite CreateLeaseTable_loop_step in H.
  destruct (attempt w <? maxCreateRetries)%nat.
  - destruct (hd None (network w)) as [e|].
    + destruct (has_code e AlreadyExist).
      * injection H as _ <-. reflexivity.
      * apply IH in H; [exact H | exact Ht].
    + rewrite Ht in H. injection H as _ <-. reflexivity.
  - injection H as _ <-. reflexivity.
Qed.

(** X23.  Every operation of the manager keeps the lease table sound:
    once the table exists, is keyed by [leaseKey] and holds every record
    under the key the record itself carries, it stays so through any
    renew, take, evict, delete, create, listing and re-creation of the
    table, successful or not. *)
Theorem table_stays_sound {T : Type} (o : RangeOrder) (c : Config)
    (l : Lease T) (w : World) :
  sound c (db w) ->
  (forall op r w', In op (mutations c) -> op l w = Some (r, w') ->
                   sound c (db w'))
  /\ (forall r w', DeleteLease c l w = Some (r, w') -> sound c (db w'))
  /\ (forall r w', CreateLease c l w = Some (r, w') -> sound c (db w'))
  /\ (forall r w', ListLeases (T := T) o c w = Some (r, w') ->
                   sound c (db w'))
  /\ (forall r w', CreateLeaseTable c w = Some (r, w') -> sound c (db w')).
Proof.
  intros Hs. split; [|split; [|split; [|split]]].
  - intros op r w' Hop H.
    destruct (mutation_cases c op Hop) as (u & _ & Heq). rewrite Heq in H.
    destruct (updateLease c (u l) l w) as [[err w1]|] eqn:Hrun;
      [|discriminate].
    assert (Hw : w1 = w') by (destruct err; injection H as _ <-; reflexivity).
    subst w1.
    exact (proj1 (operations_sound c (u l) l w w' Hs) _ Hrun).
  - intros r w' H.
    exact (proj1 (proj2 (operations_sound c l l w w' Hs)) _ H).
  - intros r w' H.
    exact (proj2 (proj2 (operations_sound c l l w w' Hs)) _ H).
  - intros r w' H. rewrite ListLeases_unfold in H.
    destruct (ListLeases_loop_spec (T := T) o (fuel_for maxScanRetries) c None
                w) as (r0 & w0 & Hrun & _ & Hdb & _); [unfold fuel_for; lia|].
    rewrite Hrun in H. injection H as _ <-. simpl. rewrite Hdb. exact Hs.
  - intros r w' H. unfold CreateLeaseTable, bind in H.
    destruct (CreateLeaseTable_loop _ _ _ _) as [[err w1]|] eqn:Hrun;
      [|discriminate].
    injection H as _ <-. simpl.
    destruct Hs as (t & Ht & Hrest).
    rewrite (CreateLeaseTable_loop_exists _ c None w w1 err t Ht Hrun).
    exists t. auto.
Qed.

Lemma table_stays_sound_witness :
  let w := Examples.world Examples.heldA [] in
  exists r w',
    TakeLease Examples.cfg (Examples.lease "A" "w2" 5) w = Some (r, w')
    /\ sound Examples.cfg (db w').
Proof.
  intros w.
  destruct (operations_total Examples.cfg (Examples.lease "A" "w2" 5) w)
    as (_ & (r & w' & Htk) & _).
  exists r, w'. split; [exact Htk|].
  destruct (table_stays_sound map_order Examples.cfg
              (Examples.lease "A" "w2" 5) w) as (Hmut & _).
  - eexists. split; [reflexivity|]. split; [reflexivity|].
    apply well_keyed_single. reflexivity.
  - apply (Hmut (TakeLease Examples.cfg) r w'); [|exact Htk].
    right. left. reflexivity.
Defined.
